(** * groupcache primitives: LRU cache, call coalescer, consistent-hash ring

    A shallow embedding of the three Go packages of the repository
    (lru/lru.go, singleflight/singleflight.go and the consistenthash
    package) and the properties their specification states about them.

    Conventions of the embedding:
    - a Go pointer to a heap object is an address ([nat]) into a finite map
      holding the objects, so that two references to one object alias;
    - a nil pointer or nil map is [None];
    - a run-time fault (nil dereference) is the result [None] of an
      operation, every other result is [Some];
    - Go's [int] is [Z]. *)

From stdpp Require Import gmap strings list fin_maps sorting pretty.

(* ===================================================================== *)
(** * Package lru *)
(* ===================================================================== *)

Module lru.

Section cache.

(** [Key] is Go's [interface{}] restricted to the comparable values the
    package documents ("A Key may be any value that is comparable") that
    are equal to themselves; equality on keys is the map's key equality.
    The keys Go's [==] does not hold reflexive (a floating-point NaN) are
    the subject of [lru_any_key] below. *)
Context {Key : Type} `{Countable Key}.

(** [Value] is the [interface{}] payload, with [zero] its nil value. [W] is
    whatever state of the program the eviction callback acts on. *)
Context {Value W : Type}.
Variable zero : Value.

(** type entry struct { key Key; value interface{} } *)
Record entry := Entry { key : Key; value : Value }.

(** The fields of [Cache], together with the part of the Go heap that the
    cache reaches: [elems] holds the [list.Element] objects (each carrying
    its [*entry]) by address, and [env] is the state the callback acts on.
    [ll] lists the addresses of the elements of the [list.List] from front
    to back. *)
Record Cache := mkCache {
  MaxEntries : Z;
  OnEvicted : option (Key → Value → W → W);
  ll : option (list nat);
  cache : option (gmap Key nat);
  elems : gmap nat entry;
  env : W
}.

Definition set_ll (l : option (list nat)) (c : Cache) : Cache :=
  mkCache (MaxEntries c) (OnEvicted c) l (cache c) (elems c) (env c).
Definition set_cache (m : option (gmap Key nat)) (c : Cache) : Cache :=
  mkCache (MaxEntries c) (OnEvicted c) (ll c) m (elems c) (env c).
Definition set_elems (h : gmap nat entry) (c : Cache) : Cache :=
  mkCache (MaxEntries c) (OnEvicted c) (ll c) (cache c) h (env c).
Definition set_env (w : W) (c : Cache) : Cache :=
  mkCache (MaxEntries c) (OnEvicted c) (ll c) (cache c) (elems c) w.
Definition set_MaxEntries (n : Z) (c : Cache) : Cache :=
  mkCache n (OnEvicted c) (ll c) (cache c) (elems c) (env c).
Definition set_OnEvicted (f : option (Key → Value → W → W)) (c : Cache) : Cache :=
  mkCache (MaxEntries c) f (ll c) (cache c) (elems c) (env c).

(** ** container/list, on the address sequence of a [*list.List]

    Every method faults on the nil list. [MoveToFront] and [Remove] leave
    the list alone when the element is not one of its elements (Go's
    [e.list != l] test). *)

Definition list_New : option (list nat) := Some [].

Definition list_Len (l : option (list nat)) : option Z :=
  l' ← l; Some (Z.of_nat (length l')).

Definition list_PushFront (e : nat) (l : option (list nat)) : option (list nat) :=
  l' ← l; Some (e :: l').

Definition list_MoveToFront (e : nat) (l : option (list nat)) : option (list nat) :=
  l' ← l;
  Some (if bool_decide (e ∈ l') then e :: filter (λ a, a ≠ e) l' else l').

Definition list_Remove (e : nat) (l : option (list nat)) : option (list nat) :=
  l' ← l; Some (filter (λ a, a ≠ e) l').

(** [Back] returns nil ([None] inside) on the empty list. *)
Definition list_Back (l : option (list nat)) : option (option nat) :=
  l' ← l; Some (last l').

(** ** The order in which a [range] over the map visits its entries

    Go leaves the iteration order of a map unspecified. The embedding takes
    it from an oracle that may pick any enumeration of the map. *)
Record range_order := RangeOrder {
  range : gmap Key nat → list (Key * nat);
  range_perm : ∀ m, range m ≡ₚ map_to_list m
}.

Definition range_default : range_order :=
  RangeOrder map_to_list (λ m, reflexivity (map_to_list m)).

Variable R : range_order.

(** ** The methods of [*Cache] *)

(** func New(maxEntries int) *Cache, allocated in a program whose element
    heap is [h] and whose callback state is [w]. *)
Definition New_in (h : gmap nat entry) (w : W) (maxEntries : Z) : Cache :=
  mkCache maxEntries None list_New (Some ∅) h w.

Definition New (w : W) (maxEntries : Z) : Cache := New_in ∅ w maxEntries.

(** The zero value [Cache{}] (or [new(Cache)]), with its two exported
    fields set by the caller. *)
Definition zero_Cache (w : W) (maxEntries : Z)
    (onEvicted : option (Key → Value → W → W)) : Cache :=
  mkCache maxEntries onEvicted None None ∅ w.

(** func (c *Cache) removeElement(e *list.Element) *)
Definition removeElement (e : nat) (c : Cache) : option Cache :=
  l ← list_Remove e (ll c);
  kv ← elems c !! e;
  let c1 := set_cache (delete (key kv) <$> cache c) (set_ll (Some l) c) in
  match OnEvicted c1 with
  | Some f => Some (set_env (f (key kv) (value kv) (env c1)) c1)
  | None => Some c1
  end.

(** func (c *Cache) RemoveOldest() *)
Definition RemoveOldest (c : Cache) : option Cache :=
  match cache c with
  | None => Some c
  | Some _ =>
      ele ← list_Back (ll c);
      match ele with
      | Some e => removeElement e c
      | None => Some c
      end
  end.

(** func (c *Cache) Add(key Key, value interface{}) *)
Definition Add (k : Key) (v : Value) (c : Cache) : option Cache :=
  let c0 := match cache c with
            | None => set_ll list_New (set_cache (Some ∅) c)
            | Some _ => c
            end in
  m ← cache c0;
  match m !! k with
  | Some ee =>
      l ← list_MoveToFront ee (ll c0);
      kv ← elems c0 !! ee;
      Some (set_elems (<[ee := Entry (key kv) v]> (elems c0)) (set_ll (Some l) c0))
  | None =>
      let ele := fresh (dom (elems c0)) in
      l ← list_PushFront ele (ll c0);
      let c1 := set_cache (Some (<[k := ele]> m))
                  (set_ll (Some l)
                     (set_elems (<[ele := Entry k v]> (elems c0)) c0)) in
      n ← list_Len (ll c1);
      if bool_decide (MaxEntries c1 ≠ 0%Z) && bool_decide (n > MaxEntries c1)%Z
      then RemoveOldest c1
      else Some c1
  end.

(** func (c *Cache) Get(key Key) (value interface{}, ok bool) *)
Definition Get (k : Key) (c : Cache) : option (Value * bool * Cache) :=
  match cache c with
  | None => Some (zero, false, c)
  | Some m =>
      match m !! k with
      | Some ele =>
          l ← list_MoveToFront ele (ll c);
          kv ← elems c !! ele;
          Some (value kv, true, set_ll (Some l) c)
      | None => Some (zero, false, c)
      end
  end.

(** func (c *Cache) Remove(key Key) *)
Definition Remove (k : Key) (c : Cache) : option Cache :=
  match cache c with
  | None => Some c
  | Some m =>
      match m !! k with
      | Some ele => removeElement ele c
      | None => Some c
      end
  end.

(** func (c *Cache) Len() int *)
Definition Len (c : Cache) : option Z :=
  match cache c with
  | None => Some 0%Z
  | Some _ => list_Len (ll c)
  end.

(** The loop of [Clear]: one callback call per visited map entry, on the
    key and value held by the element the entry points to. *)
Fixpoint Clear_loop (f : Key → Value → W → W) (h : gmap nat entry)
    (es : list (Key * nat)) (w : W) : option W :=
  match es with
  | [] => Some w
  | (_, e) :: es' =>
      kv ← h !! e;
      Clear_loop f h es' (f (key kv) (value kv) w)
  end.

(** func (c *Cache) Clear() *)
Definition Clear (c : Cache) : option Cache :=
  w ← match OnEvicted c with
      | Some f =>
          Clear_loop f (elems c)
            (match cache c with Some m => range R m | None => [] end) (env c)
      | None => Some (env c)
      end;
  Some (set_cache None (set_ll None (set_env w c))).

(** ** Sequences of operations *)

Inductive op :=
  | OpAdd (k : Key) (v : Value)
  | OpGet (k : Key)
  | OpRemove (k : Key)
  | OpRemoveOldest
  | OpLen
  | OpClear.

(** One call of a method, as the state it leaves ([Get] and [Len] results
    are dropped). *)
Definition step (o : op) (c : Cache) : option Cache :=
  match o with
  | OpAdd k v => Add k v c
  | OpGet k => r ← Get k c; Some r.2
  | OpRemove k => Remove k c
  | OpRemoveOldest => RemoveOldest c
  | OpLen => _ ← Len c; Some c
  | OpClear => Clear c
  end.

Fixpoint run (os : list op) (c : Cache) : option Cache :=
  match os with
  | [] => Some c
  | o :: os' => c' ← step o c; run os' c'
  end.

(** ** What the cache holds: the recency sequence, as entries *)

(** The entries of the cache from most to least recently used: the elements
    of [ll], dereferenced. A nil list holds nothing. *)
Definition entries (c : Cache) : list entry :=
  match ll c with
  | Some l => omap (λ a, elems c !! a) l
  | None => []
  end.

Definition keys (c : Cache) : list Key := key <$> entries c.

(** The representation invariant. The list and the map are nil together;
    otherwise the list holds no element twice, every element of the list
    is the one the map holds under the element's key, and every element
    the map holds is in the list and carries the key it is filed under. *)
Record wf_store (l : list nat) (m : gmap Key nat) (h : gmap nat entry) : Prop := {
  wf_nodup : NoDup l;
  wf_list_map : ∀ a, a ∈ l → ∃ kv, h !! a = Some kv ∧ m !! key kv = Some a;
  wf_map_list : ∀ k a, m !! k = Some a → a ∈ l ∧ ∃ kv, h !! a = Some kv ∧ key kv = k
}.

Definition wf (c : Cache) : Prop :=
  match ll c, cache c with
  | None, None => True
  | Some l, Some m => wf_store l m (elems c)
  | _, _ => False
  end.

(** The cache as [Clear] leaves it and as the zero value has it. *)
Definition uninitialized (c : Cache) : Prop := ll c = None ∧ cache c = None.

(** ** The specification's cache: a sequence of entries

    These follow the words of the specification, not the code: the cache is
    its recency sequence, most recently used first. *)

Definition without (k : Key) (es : list entry) : list entry :=
  filter (λ e, key e ≠ k) es.

Definition over_capacity (n : Z) (es : list entry) : bool :=
  bool_decide (n ≠ 0%Z) && bool_decide (Z.of_nat (length es) > n)%Z.

(** The entries after one operation on a cache of maximum [n]. *)
Definition spec_entries (n : Z) (o : op) (es : list entry) : list entry :=
  match o with
  | OpAdd k v =>
      if bool_decide (k ∈ key <$> es) then Entry k v :: without k es
      else if over_capacity n (Entry k v :: es)
           then removelast (Entry k v :: es)
           else Entry k v :: es
  | OpGet k =>
      match list_find (λ e, key e = k) es with
      | Some (_, e) => e :: without k es
      | None => es
      end
  | OpRemove k => without k es
  | OpRemoveOldest => removelast es
  | OpLen => es
  | OpClear => []
  end.

(** The entries that leave the cache in one operation, in the order they
    leave (for [Clear], in some order). *)
Definition spec_evicted (n : Z) (o : op) (es : list entry) : list entry :=
  match o with
  | OpAdd k v =>
      if bool_decide (k ∈ key <$> es) then []
      else if over_capacity n (Entry k v :: es)
           then option_list (last (Entry k v :: es))
           else []
  | OpRemove k => filter (λ e, key e = k) es
  | OpRemoveOldest => option_list (last es)
  | OpClear => es
  | OpGet _ | OpLen => []
  end.

(** The callback, called on each entry of a list in turn. *)
Definition call_evicted (f : option (Key → Value → W → W)) (ev : list entry) (w : W) : W :=
  match f with
  | Some g => foldl (λ w' e, g (key e) (value e) w') w ev
  | None => w
  end.

(** A sequence of operations on the specification's cache: the entries
    it leaves and the entries evicted on the way, in order. *)
Fixpoint spec_run (n : Z) (os : list op) (es : list entry) : list entry * list entry :=
  match os with
  | [] => (es, [])
  | o :: os' =>
      let r := spec_run n os' (spec_entries n o es) in
      (r.1, spec_evicted n o es ++ r.2)
  end.

(** The number of entries an operation puts into the cache: one for the
    Add of a key the cache does not hold. *)
Definition inserts (o : op) (es : list entry) : nat :=
  match o with
  | OpAdd k _ => if bool_decide (k ∈ key <$> es) then 0 else 1
  | _ => 0
  end.

(** The number of entries a sequence of operations puts into the cache. *)
Fixpoint inserted (os : list op) (c : Cache) : nat :=
  match os with
  | [] => 0
  | o :: os' =>
      inserts o (entries c)
      + match step o c with Some c' => inserted os' c' | None => 0 end
  end.

(** Adding the entries of a list, first to last. *)
Definition adds (es : list entry) : list op :=
  (λ e, OpAdd (key e) (value e)) <$> es.

End cache.

Global Arguments entry : clear implicits.
Global Arguments Cache : clear implicits.
Global Arguments Cache _ {_ _} _ _.
Global Arguments op : clear implicits.
Global Arguments range_order : clear implicits.
Global Arguments range_order _ {_ _}.

(** ** Lemmas on the representation *)

Section representation.

Context {Key : Type} `{Countable Key} {Value W : Type}.
Implicit Types (c : Cache Key Value W) (l : list nat) (m : gmap Key nat).
Implicit Types (h : gmap nat (entry Key Value)) (es : list (entry Key Value)).

Lemma wf_store_empty h : wf_store [] (∅ : gmap Key nat) h.
Proof.
  split; [constructor | intros a Ha; inversion Ha | intros k a Hk].
  by rewrite lookup_empty in Hk.
Qed.

(** The elements of a well-formed list are all allocated, and listed with
    their entries. *)
Lemma wf_store_entries l m h :
  wf_store l m h → Forall2 (λ a e, h !! a = Some e) l (omap (λ a, h !! a) l).
Proof.
  intros [_ Hlm _]. induction l as [|a l IH]; simpl; [constructor|].
  destruct (Hlm a) as (kv & Hkv & _); [left|]. rewrite Hkv.
  constructor; [done|]. apply IH. intros a' Ha'. apply Hlm. by right.
Qed.

Lemma wf_store_length l m h :
  wf_store l m h → length (omap (λ a, h !! a) l) = length l.
Proof. intros Hwf. symmetry. eapply Forall2_length, wf_store_entries, Hwf. Qed.

(** An entry is in the sequence exactly when the map files an element
    holding it under its key. *)
Lemma wf_store_elem_of l m h e :
  wf_store l m h →
  e ∈ omap (λ a, h !! a) l ↔ ∃ a, m !! key e = Some a ∧ h !! a = Some e.
Proof.
  intros Hwf. rewrite list_elem_of_omap. split.
  - intros (a & Ha & Hae). exists a. split; [|done].
    destruct (wf_list_map _ _ _ Hwf a Ha) as (kv & Hkv & Hm). congruence.
  - intros (a & Hm & Hae). exists a. split; [|done].
    by destruct (wf_map_list _ _ _ Hwf _ _ Hm).
Qed.

Lemma wf_store_keys l m h k :
  wf_store l m h → k ∈ key <$> omap (λ a, h !! a) l ↔ is_Some (m !! k).
Proof.
  intros Hwf. rewrite list_elem_of_fmap. split.
  - intros (e & -> & He). apply (wf_store_elem_of _ _ _ _ Hwf) in He as (a & Ha & _). eauto.
  - intros [a Ha]. destruct (wf_map_list _ _ _ Hwf _ _ Ha) as (Hal & kv & Hkv & Hk).
    exists kv. split; [done|]. apply (wf_store_elem_of _ _ _ _ Hwf). exists a. by rewrite Hk.
Qed.

(** Two elements of the list with the same key are the same element. *)
Lemma wf_store_key_inj l m h a a' e e' :
  wf_store l m h → a ∈ l → a' ∈ l → h !! a = Some e → h !! a' = Some e' →
  key e = key e' → a = a'.
Proof.
  intros Hwf Ha Ha' He He' Hk.
  destruct (wf_list_map _ _ _ Hwf a Ha) as (kv & Hkv & Hm).
  destruct (wf_list_map _ _ _ Hwf a' Ha') as (kv' & Hkv' & Hm').
  simplify_eq. rewrite Hk in Hm. congruence.
Qed.

(** Every key occurs at most once in the sequence. *)
Lemma wf_store_NoDup_keys_sub l0 l m h :
  wf_store l m h → l0 ⊆ l → NoDup l0 → NoDup (key <$> omap (λ a, h !! a) l0).
Proof.
  intros Hwf. induction l0 as [|a l0 IH]; intros Hin Hnd.
  { constructor. }
  inversion_clear Hnd as [|?? Hnotin Hnd'].
  destruct (wf_list_map _ _ _ Hwf a) as (kv & Hkv & Hm); [apply Hin; left|].
  simpl. rewrite Hkv. simpl. constructor.
  - rewrite list_elem_of_fmap. intros (e' & Hk & He').
    apply list_elem_of_omap in He' as (a' & Ha' & Hae').
    assert (a = a'); [|by subst].
    eapply (wf_store_key_inj l m h); eauto. { apply Hin; left. } { apply Hin. by right. }
  - apply IH; [|done]. intros a' Ha'. apply Hin. by right.
Qed.

Lemma wf_store_NoDup_keys l m h :
  wf_store l m h → NoDup (key <$> omap (λ a, h !! a) l).
Proof. intros Hwf. eapply wf_store_NoDup_keys_sub; [done..|]. apply Hwf. Qed.

(** Dropping an element from the list drops its key from the sequence. *)
Lemma omap_filter_elem l0 l m h a e :
  wf_store l m h → l0 ⊆ l → a ∈ l → h !! a = Some e →
  omap (λ a', h !! a') (filter (λ a', a' ≠ a) l0)
  = without (key e) (omap (λ a', h !! a') l0).
Proof.
  intros Hwf Hsub Ha He. unfold without. induction l0 as [|a' l0 IH]; [done|].
  assert (Ha' : a' ∈ l) by (apply Hsub; left).
  assert (Hsub' : l0 ⊆ l) by (intros x Hx; apply Hsub; by right).
  destruct (wf_list_map _ _ _ Hwf a' Ha') as (kv & Hkv & Hm).
  rewrite filter_cons. simpl. rewrite Hkv. rewrite filter_cons.
  destruct (decide (a' ≠ a)) as [Hne|Heq].
  - simpl. rewrite Hkv. destruct (decide (key kv ≠ key e)) as [_|Hk].
    + f_equal. by apply IH.
    + exfalso. apply Hne. apply dec_stable in Hk.
      by eapply (wf_store_key_inj l m h a' a).
  - apply dec_stable in Heq. subst a'. simplify_eq.
    destruct (decide (key e ≠ key e)); [done|]. by apply IH.
Qed.

(** A change of an object outside a list does not change what the list
    holds. *)
Lemma omap_insert_notin l h a e :
  a ∉ l → omap (λ a', <[a:=e]> h !! a') l = omap (λ a', h !! a') l.
Proof.
  intros Ha. induction l as [|a' l IH]; [done|].
  apply not_elem_of_cons in Ha as [Hne Ha]. csimpl.
  rewrite lookup_insert_ne; [|done]. by rewrite IH.
Qed.

Lemma not_elem_of_filter_ne l a : a ∉ filter (λ a', a' ≠ a) l.
Proof. rewrite list_elem_of_filter. intros [? _]. done. Qed.

(** *** What each list step does to a well-formed store *)

Lemma wf_store_remove l m h a e :
  wf_store l m h → a ∈ l → h !! a = Some e →
  wf_store (filter (λ a', a' ≠ a) l) (delete (key e) m) h.
Proof.
  intros Hwf Ha He. split.
  - apply NoDup_filter, Hwf.
  - intros a' [Hne Ha']%list_elem_of_filter.
    destruct (wf_list_map _ _ _ Hwf a' Ha') as (kv & Hkv & Hm).
    exists kv. split; [done|]. rewrite lookup_delete_ne; [done|].
    intros Hk. apply Hne. symmetry. by eapply (wf_store_key_inj l m h a a').
  - intros k a' [Hk Hm]%lookup_delete_Some.
    destruct (wf_map_list _ _ _ Hwf _ _ Hm) as (Ha' & kv & Hkv & Hkk).
    split; [|eauto]. apply list_elem_of_filter. split; [|done].
    intros ->. simplify_eq.
Qed.

Lemma wf_store_move_to_front l m h a e v :
  wf_store l m h → a ∈ l → h !! a = Some e →
  wf_store (a :: filter (λ a', a' ≠ a) l) m (<[a := Entry (key e) v]> h).
Proof.
  intros Hwf Ha He.
  assert (Hmem : ∀ a', a' ∈ a :: filter (λ a', a' ≠ a) l ↔ a' ∈ l).
  { intros a'. rewrite elem_of_cons, list_elem_of_filter.
    destruct (decide (a' = a)) as [->|Hne]; [tauto|].
    split; [intros [?|[_ ?]]; done|intros ?; by right]. }
  split.
  - constructor; [apply not_elem_of_filter_ne|]. apply NoDup_filter, Hwf.
  - intros a' Ha'%Hmem. destruct (decide (a' = a)) as [->|Hne].
    + rewrite lookup_insert_eq. eexists. split; [done|]. simpl.
      destruct (wf_list_map _ _ _ Hwf a Ha) as (kv & Hkv & Hm). congruence.
    + rewrite lookup_insert_ne; [|done]. by apply Hwf.
  - intros k a' Hm. destruct (wf_map_list _ _ _ Hwf _ _ Hm) as (Ha' & kv & Hkv & Hk).
    split; [by apply Hmem|]. destruct (decide (a' = a)) as [->|Hne].
    + rewrite lookup_insert_eq. eexists. split; [done|]. simpl. congruence.
    + rewrite lookup_insert_ne; [|done]. eauto.
Qed.

Lemma entries_move_to_front l m h a e v :
  wf_store l m h → a ∈ l → h !! a = Some e →
  omap (λ a', <[a := Entry (key e) v]> h !! a') (a :: filter (λ a', a' ≠ a) l)
  = Entry (key e) v :: without (key e) (omap (λ a', h !! a') l).
Proof.
  intros Hwf Ha He. csimpl. rewrite lookup_insert_eq. f_equal.
  rewrite omap_insert_notin; [|apply not_elem_of_filter_ne].
  by apply (omap_filter_elem l l m).
Qed.

(** A fresh address is not an element of the list. *)
Lemma wf_store_fresh l m h : wf_store l m h → fresh (dom h) ∉ l.
Proof.
  intros Hwf Hin. destruct (wf_list_map _ _ _ Hwf _ Hin) as (kv & Hkv & _).
  apply (is_fresh (dom h)). apply elem_of_dom. eauto.
Qed.

Lemma wf_store_push_front l m h k v :
  wf_store l m h → m !! k = None →
  wf_store (fresh (dom h) :: l) (<[k := fresh (dom h)]> m)
    (<[fresh (dom h) := Entry k v]> h).
Proof.
  intros Hwf Hk. pose proof (wf_store_fresh _ _ _ Hwf) as Hfresh.
  set (a := fresh (dom h)) in *. split.
  - constructor; [done|apply Hwf].
  - intros a' [->|Ha']%elem_of_cons.
    + rewrite lookup_insert_eq. eexists. split; [done|]. simpl. by rewrite lookup_insert_eq.
    + assert (a' ≠ a) by (intros ->; done).
      destruct (wf_list_map _ _ _ Hwf a' Ha') as (kv & Hkv & Hm).
      rewrite lookup_insert_ne; [|done]. exists kv. split; [done|].
      rewrite lookup_insert_ne; [done|]. intros ->. congruence.
  - intros k' a' Hm. apply lookup_insert_Some in Hm as [[<- <-]|[Hne Hm]].
    + split; [left|]. rewrite lookup_insert_eq. eauto.
    + destruct (wf_map_list _ _ _ Hwf _ _ Hm) as (Ha' & kv & Hkv & Hkk).
      split; [by right|]. rewrite lookup_insert_ne; [eauto|]. intros <-. done.
Qed.

Lemma entries_push_front l m h k v :
  wf_store l m h →
  omap (λ a', <[fresh (dom h) := Entry k v]> h !! a') (fresh (dom h) :: l)
  = Entry k v :: omap (λ a', h !! a') l.
Proof.
  intros Hwf. csimpl. rewrite lookup_insert_eq. f_equal.
  apply omap_insert_notin. by eapply wf_store_fresh.
Qed.

(** The last element of the list holds the last entry of the sequence. *)
Lemma wf_store_last l m h a :
  wf_store l m h → last l = Some a →
  ∃ e, h !! a = Some e ∧ last (omap (λ a', h !! a') l) = Some e.
Proof.
  intros Hwf [l0 ->]%last_Some.
  destruct (wf_list_map _ _ _ Hwf a) as (e & He & _); [apply elem_of_app; right; left|].
  exists e. split; [done|]. rewrite omap_app. csimpl. rewrite He. apply last_snoc.
Qed.

(** *** Facts about sequences with distinct keys *)

Lemma key_notin_without k es : k ∉ key <$> without k es.
Proof.
  intros (x & Hk & Hx)%list_elem_of_fmap.
  apply list_elem_of_filter in Hx as [Hx _]. done.
Qed.

Lemma without_last es e :
  NoDup (key <$> es) → last es = Some e → without (key e) es = removelast es.
Proof.
  intros Hnd [es0 ->]%last_Some. rewrite removelast_last.
  rewrite fmap_app in Hnd. apply NoDup_app in Hnd as (_ & Hdisj & _).
  unfold without. rewrite filter_app, filter_cons, filter_nil.
  destruct (decide (key e ≠ key e)); [done|]. rewrite app_nil_r.
  induction es0 as [|e0 es0 IH]; [done|]. rewrite filter_cons.
  destruct (decide (key e0 ≠ key e)) as [_|Heq].
  - f_equal. apply IH. intros x Hx. apply Hdisj. by right.
  - exfalso. apply dec_stable in Heq. apply (Hdisj (key e0)); [left|].
    rewrite Heq. left.
Qed.

Lemma without_notin k es : k ∉ key <$> es → without k es = es.
Proof.
  intros Hk. unfold without. induction es as [|e es IH]; [done|].
  csimpl in Hk. apply not_elem_of_cons in Hk as [Hne Hk].
  rewrite filter_cons. destruct (decide (key e ≠ k)); [|done]. f_equal. by apply IH.
Qed.

Lemma filter_key_notin k es : k ∉ key <$> es → filter (λ e, key e = k) es = [].
Proof.
  intros Hk. induction es as [|e es IH]; [done|].
  csimpl in Hk. apply not_elem_of_cons in Hk as [Hne Hk].
  rewrite filter_cons. destruct (decide (key e = k)); [done|]. by apply IH.
Qed.

Lemma list_find_key es e :
  NoDup (key <$> es) → e ∈ es →
  ∃ i, list_find (λ e', key e' = key e) es = Some (i, e).
Proof.
  induction es as [|e0 es IH]; intros Hnd He; [inversion He|].
  csimpl in Hnd. apply NoDup_cons in Hnd as [Hnotin Hnd]. csimpl.
  apply elem_of_cons in He as [->|He].
  - exists 0. by rewrite decide_True.
  - rewrite decide_False.
    + destruct (IH Hnd He) as [i ->]. by exists (S i).
    + intros Hk. apply Hnotin. rewrite Hk. by apply list_elem_of_fmap_2.
Qed.

Lemma list_find_key_None k es :
  k ∉ key <$> es → list_find (λ e', key e' = k) es = None.
Proof.
  intros Hk. apply list_find_None. apply Forall_forall. intros e He Hke.
  apply Hk. rewrite <- Hke. by apply list_elem_of_fmap_2.
Qed.

Lemma filter_key es e :
  NoDup (key <$> es) → e ∈ es → filter (λ e', key e' = key e) es = [e].
Proof.
  induction es as [|e0 es IH]; intros Hnd He; [inversion He|].
  csimpl in Hnd. apply NoDup_cons in Hnd as [Hnotin Hnd]. rewrite filter_cons.
  apply elem_of_cons in He as [->|He].
  - rewrite decide_True; [|done]. f_equal. by apply filter_key_notin.
  - rewrite decide_False; [by apply IH|].
    intros Hk. apply Hnotin. rewrite Hk. by apply list_elem_of_fmap_2.
Qed.

End representation.

(** ** Properties of the specification's cache *)

Section spec_cache.

Context {Key : Type} `{Countable Key} {Value W : Type}.
Implicit Types (es : list (entry Key Value)) (os : list (op Key Value)).

Lemma call_evicted_app (f : option (Key → Value → W → W)) ev1 ev2 w :
  call_evicted f (ev1 ++ ev2) w = call_evicted f ev2 (call_evicted f ev1 w).
Proof. destruct f as [f|]; [apply foldl_app|done]. Qed.

Lemma spec_run_app n os1 os2 es :
  spec_run n (os1 ++ os2) es
  = ((spec_run n os2 (spec_run n os1 es).1).1,
     (spec_run n os1 es).2 ++ (spec_run n os2 (spec_run n os1 es).1).2).
Proof.
  revert es. induction os1 as [|o os1 IH]; intros es; simpl.
  - by destruct (spec_run n os2 es).
  - rewrite IH. simpl. by rewrite app_assoc.
Qed.

Lemma spec_run_singleton n o es :
  spec_run n [o] es = (spec_entries n o es, spec_evicted n o es).
Proof. simpl. by rewrite app_nil_r. Qed.

Lemma over_capacity_pos n es :
  (0 < n)%Z → over_capacity n es = bool_decide (Z.to_nat n < length es).
Proof.
  intros Hn. unfold over_capacity. rewrite bool_decide_eq_true_2 by lia. simpl.
  apply bool_decide_ext. lia.
Qed.

Lemma over_capacity_zero es : over_capacity 0 es = false.
Proof. done. Qed.

(** Adding a new key to a cache that holds at most its maximum keeps the
    [n] most recent entries and evicts the rest (at most one entry). *)
Lemma spec_add_new n es e :
  (0 < n)%Z → key e ∉ key <$> es → length es ≤ Z.to_nat n →
  spec_entries n (OpAdd (key e) (value e)) es = take (Z.to_nat n) (e :: es) ∧
  spec_evicted n (OpAdd (key e) (value e)) es = drop (Z.to_nat n) (e :: es).
Proof.
  intros Hn Hk Hlen. unfold spec_entries, spec_evicted.
  rewrite bool_decide_eq_false_2 by done.
  assert (Heta : Entry (key e) (value e) = e) by (by destruct e). rewrite Heta.
  rewrite over_capacity_pos by done. case_bool_decide as Hcap.
  - assert (Hl : length (e :: es) = S (Z.to_nat n)) by (simpl in *; lia).
    rewrite removelast_firstn_len, Hl. split; [done|].
    destruct (last (e :: es)) as [x|] eqn:Hlast.
    + apply last_Some in Hlast as [l0 Hl0]. rewrite Hl0 in Hl |- *.
      rewrite length_app in Hl. simpl in Hl.
      rewrite drop_app_length'; [done|lia].
    + by apply last_None in Hlast.
  - simpl in Hcap. rewrite take_ge, drop_ge by (simpl; lia). done.
Qed.

(** Adding entries with distinct keys to an empty cache of maximum [n > 0]
    leaves the [n] last added, most recent first, and evicts the others in
    the order they were added. *)
Lemma spec_adds n es :
  (0 < n)%Z → NoDup (key <$> es) →
  spec_run n (adds es) []
  = (take (Z.to_nat n) (reverse es), take (length es - Z.to_nat n) es).
Proof.
  intros Hn. induction es as [|e es IH] using rev_ind; intros Hnd.
  { simpl. by destruct (Z.to_nat n). }
  rewrite fmap_app in Hnd. apply NoDup_app in Hnd as (Hnd & Hdisj & _).
  unfold adds in *. rewrite fmap_app, spec_run_app, IH by done.
  change ((λ e0, OpAdd (key e0) (value e0)) <$> [e]) with [OpAdd (key e) (value e)].
  rewrite spec_run_singleton. cbn [fst snd].
  set (k := Z.to_nat n). assert (Hk : 0 < k) by lia.
  assert (Hnotin : key e ∉ key <$> take k (reverse es)).
  { intros (x & Hkx & Hx)%list_elem_of_fmap. apply (Hdisj (key e)); [|left].
    rewrite Hkx. apply list_elem_of_fmap_2.
    apply elem_of_reverse. by apply (subseteq_take k). }
  assert (Hlen : length (take k (reverse es)) ≤ k).
  { rewrite length_take. lia. }
  destruct (spec_add_new n _ e Hn Hnotin Hlen) as [-> ->]. fold k.
  rewrite reverse_snoc, length_app. simpl. f_equal.
  - destruct k as [|k']; [lia|]. simpl. f_equal. rewrite take_take. f_equal. lia.
  - destruct k as [|k']; [lia|]. simpl.
    destruct (decide (length es ≤ k')) as [Hle|Hgt].
    + rewrite drop_ge by (rewrite length_take, length_reverse; lia).
      replace (length es - S k') with 0 by lia.
      replace (length es + 1 - S k') with 0 by lia. done.
    + replace (length es + 1 - S k') with (S (length es - S k')) by lia.
      destruct (lookup_lt_is_Some_2 es (length es - S k')) as [x Hx]; [lia|].
      rewrite take_app_le by lia.
      rewrite (take_S_r es (length es - S k') x) by done. f_equal.
      rewrite skipn_firstn_comm. replace (S k' - k') with 1 by lia.
      rewrite drop_reverse. replace (length es - k') with (S (length es - S k')) by lia.
      rewrite (take_S_r es (length es - S k') x) by done. by rewrite reverse_snoc.
Qed.

(** With maximum zero, adding never evicts. *)
Lemma spec_adds_unlimited os es :
  (∀ o, o ∈ os → ∃ k v, o = OpAdd k v) →
  (spec_run 0 os es).2 = [] ∧
  ∀ k, k ∈ key <$> (spec_run 0 os es).1
       ↔ k ∈ key <$> es ∨ ∃ v, OpAdd k v ∈ os.
Proof.
  revert es. induction os as [|o os IH]; intros es Hall.
  { simpl. split; [done|]. intros k. split; [by left|].
    intros [?|[v Hv]]; [done|]. by apply elem_of_nil in Hv. }
  destruct (Hall o) as (k0 & v0 & ->); [left|].
  destruct (IH (spec_entries 0 (OpAdd k0 v0) es)) as [Hev Hkeys].
  { intros o Ho. apply Hall. by right. }
  simpl in *. split.
  - rewrite Hev. by destruct (bool_decide _).
  - intros k. rewrite Hkeys. clear Hkeys Hev IH.
    assert (Hstep : k ∈ key <$> (if bool_decide (k0 ∈ key <$> es)
                                 then Entry k0 v0 :: without k0 es
                                 else Entry k0 v0 :: es)
                    ↔ k = k0 ∨ k ∈ key <$> es).
    { case_bool_decide as Hin; csimpl; rewrite elem_of_cons; [|done].
      split; (intros [->|Hk]; [by left|]).
      - right. apply list_elem_of_fmap in Hk as (x & -> & Hx).
        apply list_elem_of_filter in Hx as [_ Hx]. by apply list_elem_of_fmap_2.
      - destruct (decide (k = k0)) as [->|Hne]; [by left|]. right.
        apply list_elem_of_fmap in Hk as (x & -> & Hx).
        apply list_elem_of_fmap_2, list_elem_of_filter. done. }
    rewrite Hstep. split.
    + intros [[->|Hk]|[v Hv]]; [right; exists v0; left|by left|right; exists v; by right].
    + intros [Hk|[v Hv]]; [left; by right|].
      apply elem_of_cons in Hv as [Heq|Hv]; [left; left; congruence|right; eauto].
Qed.

Lemma length_without k es :
  length (filter (λ e, key e = k) es) + length (without k es) = length es.
Proof.
  unfold without. induction es as [|e es IH]; [done|]. rewrite !filter_cons.
  destruct (decide (key e = k)), (decide (key e ≠ k)); simpl; try done; lia.
Qed.

Lemma length_last_removelast es :
  length (option_list (last es)) + length (removelast es) = length es.
Proof.
  destruct (last es) as [x|] eqn:Hlast.
  - apply last_Some in Hlast as [es0 ->]. rewrite removelast_last, length_app. simpl. lia.
  - apply last_None in Hlast. by subst.
Qed.

(** Every entry that an operation takes out of the sequence is among the
    evicted ones, and no other is: the counts balance. *)
Lemma spec_conservation n o es :
  NoDup (key <$> es) →
  length (spec_evicted n o es) + length (spec_entries n o es)
  = length es + inserts o es.
Proof.
  intros Hnd. destruct o as [k v|k|k| | |]; simpl.
  - case_bool_decide as Hin.
    + apply list_elem_of_fmap in Hin as (e & -> & He).
      pose proof (length_without (key e) es) as Hlen.
      rewrite (filter_key es e) in Hlen by done. simpl in *. lia.
    + destruct (over_capacity n (Entry k v :: es)); [|simpl; lia].
      pose proof (length_last_removelast (Entry k v :: es)) as Hlen.
      simpl in *. lia.
  - destruct (list_find _ es) as [[i e]|] eqn:Hfind; [|lia].
    apply list_find_Some in Hfind as (Hi & <- & _).
    apply list_elem_of_lookup_2 in Hi.
    pose proof (length_without (key e) es) as Hlen.
    rewrite (filter_key es e) in Hlen by done. simpl in *. lia.
  - pose proof (length_without k es). lia.
  - pose proof (length_last_removelast es). lia.
  - lia.
  - lia.
Qed.

End spec_cache.

(** ** Each method refines the specification's cache *)

Section refinement.

Context {Key : Type} `{Countable Key} {Value W : Type}.
Variable zero : Value.
Variable R : range_order Key.
Implicit Types (c : Cache Key Value W) (l : list nat) (m : gmap Key nat).
Implicit Types (h : gmap nat (entry Key Value)) (es : list (entry Key Value)).

(** What an operation keeps: the two exported fields. *)
Definition same_config c c' : Prop :=
  MaxEntries c' = MaxEntries c ∧ OnEvicted c' = OnEvicted c.

Lemma wf_cases c :
  wf c →
  uninitialized c ∨
  ∃ l m, ll c = Some l ∧ cache c = Some m ∧ wf_store l m (elems c).
Proof.
  unfold wf, uninitialized. destruct (ll c) as [l|], (cache c) as [m|]; try done.
  - right. eauto.
  - by left.
Qed.

Lemma wf_NoDup_keys c : wf c → NoDup (keys c).
Proof.
  intros [[Hl _]|(l & m & Hl & Hm & Hwf)]%wf_cases; unfold keys, entries; rewrite Hl.
  - constructor.
  - by eapply wf_store_NoDup_keys.
Qed.

Lemma entries_uninitialized c : uninitialized c → entries c = [].
Proof. intros [Hl _]. unfold entries. by rewrite Hl. Qed.

Lemma removeElement_refines c l m a e :
  ll c = Some l → cache c = Some m → wf_store l m (elems c) →
  a ∈ l → elems c !! a = Some e →
  ∃ c', removeElement a c = Some c' ∧ wf c' ∧ same_config c c' ∧
        is_Some (cache c') ∧
        entries c' = without (key e) (entries c) ∧
        env c' = call_evicted (OnEvicted c) [e] (env c).
Proof.
  destruct c as [n f ll0 m0 h w]. simpl. intros -> -> Hwf Ha He.
  unfold removeElement. simpl. rewrite He. simpl.
  pose proof (wf_store_remove _ _ _ _ _ Hwf Ha He) as Hwf'.
  assert (Hent : omap (λ a', h !! a') (filter (λ a', a' ≠ a) l)
                 = without (key e) (omap (λ a', h !! a') l)).
  { by apply (omap_filter_elem l l m). }
  destruct f as [f|]; eexists; (split; [done|]);
    unfold wf, same_config, entries; simpl; eauto 10.
Qed.

Lemma RemoveOldest_refines c :
  wf c →
  ∃ c', RemoveOldest c = Some c' ∧ wf c' ∧ same_config c c' ∧
        (is_Some (cache c) → is_Some (cache c')) ∧
        entries c' = removelast (entries c) ∧
        env c' = call_evicted (OnEvicted c) (option_list (last (entries c))) (env c).
Proof.
  intros Hwfc. pose proof (wf_NoDup_keys _ Hwfc) as Hnd.
  destruct (wf_cases _ Hwfc) as [[Hl Hm]|(l & m & Hl & Hm & Hwf)].
  - exists c. unfold RemoveOldest. rewrite Hm, (entries_uninitialized c); [|done].
    simpl. destruct (OnEvicted c); done.
  - unfold RemoveOldest. rewrite Hm, Hl. simpl.
    destruct (last l) as [a|] eqn:Hlast.
    + destruct (wf_store_last _ _ _ _ Hwf Hlast) as (e & He & Hle).
      assert (Ha : a ∈ l).
      { apply last_Some in Hlast as [l0 ->]. apply elem_of_app. right. left. }
      destruct (removeElement_refines c l m a e Hl Hm Hwf Ha He)
        as (c' & -> & Hwf' & Hcfg & Hsome & Hent & Henv).
      exists c'. split_and!; try done.
      * rewrite Hent. apply without_last; [done|]. unfold entries. by rewrite Hl.
      * rewrite Henv. unfold entries. by rewrite Hl, Hle.
    + apply last_None in Hlast. subst l. exists c.
      unfold entries. rewrite Hl. simpl. destruct (OnEvicted c); done.
Qed.

Lemma Remove_refines k c :
  wf c →
  ∃ c', Remove k c = Some c' ∧ wf c' ∧ same_config c c' ∧
        entries c' = without k (entries c) ∧
        env c' = call_evicted (OnEvicted c)
                   (filter (λ e, key e = k) (entries c)) (env c).
Proof.
  intros Hwfc. pose proof (wf_NoDup_keys _ Hwfc) as Hnd.
  destruct (wf_cases _ Hwfc) as [[Hl Hm]|(l & m & Hl & Hm & Hwf)].
  - exists c. unfold Remove. rewrite Hm, (entries_uninitialized c); [|done].
    simpl. destruct (OnEvicted c); done.
  - unfold Remove. rewrite Hm. destruct (m !! k) as [a|] eqn:Hk.
    + destruct (wf_map_list _ _ _ Hwf _ _ Hk) as (Ha & e & He & <-).
      destruct (removeElement_refines c l m a e Hl Hm Hwf Ha He)
        as (c' & -> & Hwf' & Hcfg & Hsome & Hent & Henv).
      exists c'. split_and!; try done.
      * rewrite Henv. f_equal. symmetry. apply filter_key; [done|].
        unfold entries. rewrite Hl. apply (wf_store_elem_of _ _ _ _ Hwf). eauto.
    + assert (Hnotin : k ∉ key <$> entries c).
      { unfold entries. rewrite Hl, (wf_store_keys _ _ _ _ Hwf), Hk.
        by intros [? ?]. }
      exists c. rewrite without_notin, filter_key_notin by done.
      destruct (OnEvicted c); done.
Qed.

(** The result of [Get] on the specification's cache. *)
Definition spec_get (k : Key) es : Value * bool :=
  match list_find (λ e, key e = k) es with
  | Some (_, e) => (value e, true)
  | None => (zero, false)
  end.

Lemma Get_refines k c :
  wf c →
  ∃ c', Get zero k c = Some (spec_get k (entries c), c') ∧ wf c' ∧ same_config c c' ∧
        entries c' = spec_entries (MaxEntries c) (OpGet k) (entries c) ∧
        env c' = env c ∧
        (k ∉ keys c → c' = c).
Proof.
  intros Hwfc. pose proof (wf_NoDup_keys _ Hwfc) as Hnd.
  destruct (wf_cases _ Hwfc) as [[Hl Hm]|(l & m & Hl & Hm & Hwf)].
  - exists c. unfold Get, spec_get. rewrite Hm, (entries_uninitialized c); done.
  - unfold Get, spec_get, keys. rewrite Hm. simpl. destruct (m !! k) as [a|] eqn:Hk.
    + destruct (wf_map_list _ _ _ Hwf _ _ Hk) as (Ha & e & He & <-).
      assert (Hin : e ∈ entries c).
      { unfold entries. rewrite Hl. apply (wf_store_elem_of _ _ _ _ Hwf). eauto. }
      destruct (list_find_key _ _ Hnd Hin) as [i ->].
      rewrite Hl. simpl. rewrite bool_decide_eq_true_2 by done. rewrite He. simpl.
      pose proof (wf_store_move_to_front _ _ _ _ _ (value e) Hwf Ha He) as Hwf'.
      pose proof (entries_move_to_front _ _ _ _ _ (value e) Hwf Ha He) as Hent.
      assert (Heta : Entry (key e) (value e) = e) by (by destruct e).
      rewrite Heta, insert_id in Hwf', Hent by done.
      eexists. split; [done|]. destruct c; simpl in *. subst.
      split_and!; try done. intros Hnotin. exfalso. apply Hnotin.
      by apply list_elem_of_fmap_2.
    + assert (Hnotin : k ∉ key <$> entries c).
      { unfold entries. rewrite Hl, (wf_store_keys _ _ _ _ Hwf), Hk.
        by intros [? ?]. }
      rewrite list_find_key_None by done. exists c. done.
Qed.

Lemma Len_refines c : wf c → Len c = Some (Z.of_nat (length (entries c))).
Proof.
  intros [[Hl Hm]|(l & m & Hl & Hm & Hwf)]%wf_cases; unfold Len, entries; rewrite Hm, Hl.
  - done.
  - simpl. by rewrite (wf_store_length _ _ _ Hwf).
Qed.

Lemma Add_refines_init k v c l m :
  ll c = Some l → cache c = Some m → wf_store l m (elems c) →
  ∃ c', Add k v c = Some c' ∧ wf c' ∧ same_config c c' ∧ is_Some (cache c') ∧
        entries c' = spec_entries (MaxEntries c) (OpAdd k v) (entries c) ∧
        env c' = call_evicted (OnEvicted c)
                   (spec_evicted (MaxEntries c) (OpAdd k v) (entries c)) (env c).
Proof.
  destruct c as [n f ll0 m0 h w]. simpl. intros -> -> Hwf.
  unfold Add, entries. simpl.
  destruct (m !! k) as [a|] eqn:Hk.
  - destruct (wf_map_list _ _ _ Hwf _ _ Hk) as (Ha & e & He & <-).
    assert (Hin : key e ∈ key <$> omap (λ a, h !! a) l).
    { apply (wf_store_keys _ _ _ _ Hwf). eauto. }
    rewrite !bool_decide_eq_true_2 by done. rewrite He. simpl.
    pose proof (wf_store_move_to_front _ _ _ _ _ v Hwf Ha He) as Hwf'.
    pose proof (entries_move_to_front _ _ _ _ _ v Hwf Ha He) as Hent.
    eexists. split; [done|].
    unfold wf, same_config, entries. simpl. split_and!; eauto.
    by destruct f.
  - assert (Hnotin : k ∉ key <$> omap (λ a, h !! a) l).
    { rewrite (wf_store_keys _ _ _ _ Hwf), Hk. by intros [? ?]. }
    rewrite (bool_decide_eq_false_2 (k ∈ _)) by done.
    pose proof (wf_store_push_front _ _ _ _ v Hwf Hk) as Hwf'.
    pose proof (entries_push_front _ _ _ k v Hwf) as Hent.
    set (c1 := set_cache _ _).
    assert (Hwf1 : wf c1) by done.
    assert (Hent1 : entries c1 = Entry k v :: omap (λ a, h !! a) l) by done.
    assert (Hcap : bool_decide (n ≠ 0%Z)
                   && bool_decide (Z.of_nat (S (length l)) > n)%Z
                   = over_capacity n (Entry k v :: omap (λ a, h !! a) l)).
    { unfold over_capacity. simpl. by rewrite (wf_store_length _ _ _ Hwf). }
    rewrite Hcap. destruct (over_capacity _ _).
    + destruct (RemoveOldest_refines c1 Hwf1)
        as (c' & -> & Hwf2 & Hcfg & Hsome & Hent2 & Henv).
      exists c'. rewrite Hent1 in Hent2, Henv. split_and!; try done.
      by apply Hsome.
    + exists c1. split_and!; try done. by destruct f.
Qed.

Lemma Add_refines k v c :
  wf c →
  ∃ c', Add k v c = Some c' ∧ wf c' ∧ same_config c c' ∧ is_Some (cache c') ∧
        entries c' = spec_entries (MaxEntries c) (OpAdd k v) (entries c) ∧
        env c' = call_evicted (OnEvicted c)
                   (spec_evicted (MaxEntries c) (OpAdd k v) (entries c)) (env c).
Proof.
  intros [[Hl Hm]|(l & m & Hl & Hm & Hwf)]%wf_cases.
  - destruct c as [n f ll0 m0 h w]. simpl in *. subst.
    apply (Add_refines_init k v (mkCache n f (Some []) (Some ∅) h w) [] ∅); try done.
    apply wf_store_empty.
  - by eapply Add_refines_init.
Qed.

(** The loop of [Clear] calls the callback on the entry of every element
    it visits, in the order of the visit. *)
Lemma Clear_loop_spec f h (xs : list (Key * nat)) (w : W) :
  (∀ x, x ∈ xs → is_Some (h !! x.2)) →
  Clear_loop f h xs w
  = Some (call_evicted (Some f) (omap (λ a, h !! a) xs.*2) w).
Proof.
  revert w. induction xs as [|[k a] xs IH]; intros w Hall; [done|].
  destruct (Hall (k, a)) as [e He]; [left|]. csimpl in *. rewrite He. simpl.
  rewrite IH; [done|]. intros x Hx. apply Hall. by right.
Qed.

(** The elements the map holds are, in some order, those of the list. *)
Lemma wf_store_range l m h : wf_store l m h → (range R m).*2 ≡ₚ l.
Proof.
  intros Hwf. rewrite (range_perm R m). apply NoDup_Permutation.
  - apply NoDup_fmap_2_strong; [|apply NoDup_map_to_list].
    intros [k1 a1] [k2 a2] H1%elem_of_map_to_list H2%elem_of_map_to_list. simpl.
    intros <-. f_equal.
    destruct (wf_map_list _ _ _ Hwf _ _ H1) as (_ & e1 & He1 & <-).
    destruct (wf_map_list _ _ _ Hwf _ _ H2) as (_ & e2 & He2 & <-). congruence.
  - apply Hwf.
  - intros a. rewrite list_elem_of_fmap. split.
    + intros ([k a'] & -> & Hk%elem_of_map_to_list). by apply (wf_map_list _ _ _ Hwf k).
    + intros Ha. destruct (wf_list_map _ _ _ Hwf a Ha) as (e & He & Hm).
      exists (key e, a). split; [done|]. by apply elem_of_map_to_list.
Qed.

Lemma Clear_refines c :
  wf c →
  ∃ c' ev, Clear R c = Some c' ∧ uninitialized c' ∧ same_config c c' ∧
           ev ≡ₚ entries c ∧
           env c' = call_evicted (OnEvicted c) ev (env c).
Proof.
  intros Hwfc. destruct (wf_cases _ Hwfc) as [[Hl Hm]|(l & m & Hl & Hm & Hwf)].
  - exists c, []. rewrite (entries_uninitialized c) by done.
    destruct c as [n f ll0 m0 h w]. simpl in *. subst. unfold Clear. simpl.
    by destruct f.
  - destruct c as [n f ll0 m0 h w]. simpl in *. subst. unfold Clear, entries. simpl.
    destruct f as [f|]; simpl.
    + rewrite Clear_loop_spec.
      * eexists _, (omap (λ a, h !! a) (range R m).*2). split; [done|].
        split_and!; try done.
        apply (omap_Permutation (λ a, h !! a)), (wf_store_range _ _ _ Hwf).
      * intros [k a] Hx. simpl.
        assert (Ha : a ∈ (range R m).*2) by (by apply (list_elem_of_fmap_2 snd _ (k, a))).
        rewrite (wf_store_range _ _ _ Hwf) in Ha.
        destruct (wf_list_map _ _ _ Hwf a Ha) as (e & -> & _). eauto.
    + eexists _, (omap (λ a, h !! a) l). split; [done|]. split_and!; done.
Qed.

(** One operation on a well-formed cache never faults, keeps it well
    formed, and does to the recency sequence and to the callback's state
    what the specification's cache does. *)
Lemma step_refines o c :
  wf c →
  ∃ c' ev, step zero R o c = Some c' ∧ wf c' ∧ same_config c c' ∧
           entries c' = spec_entries (MaxEntries c) o (entries c) ∧
           ev ≡ₚ spec_evicted (MaxEntries c) o (entries c) ∧
           (o ≠ OpClear → ev = spec_evicted (MaxEntries c) o (entries c)) ∧
           env c' = call_evicted (OnEvicted c) ev (env c).
Proof.
  intros Hwf. destruct o as [k v|k|k| | |]; simpl.
  - destruct (Add_refines k v c Hwf) as (c' & -> & ? & ? & ? & ? & ?).
    eexists c', _. split_and!; done.
  - destruct (Get_refines k c Hwf) as (c' & -> & ? & ? & ? & ? & ?).
    exists c', []. split_and!; try done. by destruct (OnEvicted c).
  - destruct (Remove_refines k c Hwf) as (c' & -> & ? & ? & ? & ?).
    eexists c', _. split_and!; done.
  - destruct (RemoveOldest_refines c Hwf) as (c' & -> & ? & ? & ? & ? & ?).
    eexists c', _. split_and!; done.
  - rewrite (Len_refines c Hwf). exists c, []. split_and!; try done.
    by destruct (OnEvicted c).
  - destruct (Clear_refines c Hwf) as (c' & ev & -> & Hun & ? & ? & ?).
    exists c', ev. split_and!; try done.
    + destruct Hun as [Hl Hm]. unfold wf. by rewrite Hl, Hm.
    + by apply entries_uninitialized.
Qed.

Lemma run_app os1 os2 c :
  run zero R (os1 ++ os2) c = run zero R os1 c ≫= run zero R os2.
Proof.
  revert c. induction os1 as [|o os1 IH]; intros c; [done|]. simpl.
  destruct (step zero R o c); [apply IH|done].
Qed.

(** No sequence of operations faults or breaks the invariant. *)
Lemma run_wf os c : wf c → ∃ c', run zero R os c = Some c' ∧ wf c' ∧ same_config c c'.
Proof.
  revert c. induction os as [|o os IH]; intros c Hwf.
  { by exists c. }
  destruct (step_refines o c Hwf) as (c1 & ev & Hstep & Hwf1 & [Hn1 Hf1] & _).
  destruct (IH c1 Hwf1) as (c' & Hrun & Hwf' & [Hn Hf]).
  exists c'. simpl. rewrite Hstep. split_and!; try done.
  split; [by rewrite Hn|by rewrite Hf].
Qed.

Lemma wf_New_in h (w : W) n : wf (New_in h w n : Cache Key Value W).
Proof. apply wf_store_empty. Qed.

Lemma wf_zero_Cache (w : W) n f : wf (zero_Cache w n f : Cache Key Value W).
Proof. done. Qed.

Lemma wf_set_OnEvicted f c : wf c → wf (set_OnEvicted f c).
Proof. by destruct c. Qed.

Lemma wf_set_MaxEntries n c : wf c → wf (set_MaxEntries n c).
Proof. by destruct c. Qed.

(** A sequence of operations refines the specification's cache; the
    callback sees the evicted entries in order, up to the unspecified order
    of each [Clear]. *)
Lemma run_refines os c :
  wf c →
  ∃ c' ev, run zero R os c = Some c' ∧ wf c' ∧ same_config c c' ∧
           entries c' = (spec_run (MaxEntries c) os (entries c)).1 ∧
           ev ≡ₚ (spec_run (MaxEntries c) os (entries c)).2 ∧
           (OpClear ∉ os → ev = (spec_run (MaxEntries c) os (entries c)).2) ∧
           env c' = call_evicted (OnEvicted c) ev (env c).
Proof.
  revert c. induction os as [|o os IH]; intros c Hwf.
  { exists c, []. split_and!; try done. by destruct (OnEvicted c). }
  destruct (step_refines o c Hwf)
    as (c1 & ev1 & Hstep & Hwf1 & [Hn1 Hf1] & Hent1 & Hperm1 & Heq1 & Henv1).
  destruct (IH c1 Hwf1) as (c' & ev & Hrun & Hwf' & [Hn Hf] & Hent & Hperm & Heq & Henv).
  rewrite Hn1, Hf1, Hent1 in *.
  exists c', (ev1 ++ ev). simpl. rewrite Hstep.
  split; [done|]. split; [done|]. split; [by split|]. split; [done|].
  split; [by rewrite Hperm1, Hperm|]. split.
  - intros Hnc. apply not_elem_of_cons in Hnc as [Hne Hnc].
    rewrite Heq1, Heq by done. done.
  - by rewrite call_evicted_app, <- Henv1.
Qed.

Lemma adds_no_Clear (es : list (entry Key Value)) : OpClear ∉ adds es.
Proof. unfold adds. intros (e & He & _)%list_elem_of_fmap. done. Qed.

(** C1. On a well-formed cache with maximum N > 0, an Add of an absent key
    that takes the count over N returns with the new entry in front and the
    least recently used entry gone, the callback (if any) called once, on
    that entry. Adding entries with distinct keys to an empty cache of
    maximum N > 0 leaves the N last added, most recent first, with the
    others evicted in the order they were added, so that Len is the smaller
    of N and the number added; after N+1 entries exactly the first added is
    evicted. With maximum 0, no sequence of Adds calls the callback or
    loses a key. *)
Theorem add_evicts_least_recently_used c :
  wf c →
  ((0 < MaxEntries c)%Z →
     ∀ k v, k ∉ keys c → (Z.of_nat (length (entries c)) + 1 > MaxEntries c)%Z →
     ∃ c' e, Add k v c = Some c' ∧ last (entries c) = Some e ∧
             entries c' = Entry k v :: removelast (entries c) ∧
             env c' = call_evicted (OnEvicted c) [e] (env c)) ∧
  ((0 < MaxEntries c)%Z → entries c = [] →
     ∀ es, NoDup (key <$> es) →
     ∃ c', run zero R (adds es) c = Some c' ∧
           entries c' = take (Z.to_nat (MaxEntries c)) (reverse es) ∧
           env c' = call_evicted (OnEvicted c)
                      (take (length es - Z.to_nat (MaxEntries c)) es) (env c) ∧
           Len c' = Some (Z.min (MaxEntries c) (Z.of_nat (length es))) ∧
           (∀ e0 es', es = e0 :: es' → Z.of_nat (length es') = MaxEntries c →
              entries c' = reverse es' ∧
              env c' = call_evicted (OnEvicted c) [e0] (env c))) ∧
  (MaxEntries c = 0%Z →
     ∀ es, ∃ c', run zero R (adds es) c = Some c' ∧ env c' = env c ∧
                 ∀ k, k ∈ keys c' ↔ k ∈ keys c ∨ k ∈ key <$> es).
Proof.
  intros Hwf. split_and!.
  - intros Hn k v Hk Hlen.
    destruct (Add_refines k v c Hwf) as (c' & HAdd & Hwf' & _ & _ & Hent & Henv).
    unfold spec_entries in Hent. unfold spec_evicted in Henv.
    rewrite bool_decide_eq_false_2 in Hent, Henv by done.
    assert (Hcap : over_capacity (MaxEntries c) (Entry k v :: entries c) = true).
    { rewrite over_capacity_pos by done. apply bool_decide_eq_true_2. simpl. lia. }
    rewrite Hcap in Hent, Henv.
    destruct (entries c) as [|e1 es] eqn:Hes; [simpl in Hlen; lia|].
    destruct (last (e1 :: es)) as [e|] eqn:Hlast; [|by apply last_None in Hlast].
    exists c', e. split_and!; try done.
    rewrite Henv. by rewrite last_cons, Hlast.
  - intros Hn Hes es Hnd.
    destruct (run_refines (adds es) c Hwf)
      as (c' & ev & Hrun & Hwf' & _ & Hent & _ & Heq & Henv).
    rewrite Heq in Henv by apply adds_no_Clear. clear Heq.
    rewrite Hes, spec_adds in Hent, Henv by done. simpl in Hent, Henv.
    exists c'. split_and!; try done.
    + rewrite (Len_refines c' Hwf'), Hent, length_take, length_reverse. f_equal. lia.
    + intros e0 es' -> Hlen. rewrite Hent, Henv. split.
      * rewrite reverse_cons. apply take_app_length'. rewrite length_reverse. lia.
      * simpl. replace (S (length es') - Z.to_nat (MaxEntries c)) with 1 by lia. done.
  - intros Hn es.
    destruct (run_refines (adds es) c Hwf)
      as (c' & ev & Hrun & Hwf' & _ & Hent & _ & Heq & Henv).
    rewrite Heq in Henv by apply adds_no_Clear. clear Heq. rewrite Hn in *.
    destruct (spec_adds_unlimited (adds es) (entries c)) as [Hev Hkeys].
    { intros o (e & -> & _)%list_elem_of_fmap. eauto. }
    rewrite Hev in Henv. exists c'. split_and!; try done.
    + rewrite Henv. by destruct (OnEvicted c).
    + intros k. unfold keys at 1. rewrite Hent, Hkeys. unfold keys.
      split; (intros [?|Hk]; [by left|right]).
      * destruct Hk as (v & (e & Heq & He)%list_elem_of_fmap). simplify_eq.
        by apply list_elem_of_fmap_2.
      * apply list_elem_of_fmap in Hk as (e & -> & He). exists (value e).
        by apply (list_elem_of_fmap_2 (λ e, OpAdd (key e) (value e))).
Qed.

(** A sequence with two entries or more still holds an entry once those
    under one key are taken out. *)
Lemma without_nonempty k es :
  NoDup (key <$> es) → 2 ≤ length es → without k es ≠ [].
Proof.
  intros Hnd Hlen Hnil. pose proof (length_without k es) as Hl. rewrite Hnil in Hl.
  destruct (decide (k ∈ key <$> es)) as [Hin|Hnotin].
  - apply list_elem_of_fmap in Hin as (e & -> & He).
    rewrite (filter_key es e) in Hl by done. simpl in Hl. lia.
  - rewrite filter_key_notin in Hl by done. simpl in Hl. lia.
Qed.

(** C5, as amended. A Get hit on a well-formed cache moves the entry to
    the front of the recency sequence, the others keeping their order.
    When the cache holds another entry as well, the next eviction does not
    take the entry just read but the least recently used of the others,
    [e]: a RemoveOldest performed next, and an Add performed next that
    evicts, take out [e] and call the callback once, on [e]; and after any
    Add performed next the entry just read is still held. *)
Theorem get_hit_promotes c k v c1 :
  wf c → Get zero k c = Some (v, true, c1) →
  entries c1 = Entry k v :: without k (entries c) ∧
  (2 ≤ length (entries c) →
   ∃ e, last (without k (entries c)) = Some e ∧ e ∈ entries c ∧ key e ≠ k ∧
     (∃ c2, RemoveOldest c1 = Some c2 ∧
            entries c2 = Entry k v :: removelast (without k (entries c)) ∧
            env c2 = call_evicted (OnEvicted c) [e] (env c) ∧
            k ∈ keys c2 ∧ (key e ∉ keys c2)) ∧
     (∀ k' v', k' ∉ keys c →
        over_capacity (MaxEntries c) (Entry k' v' :: entries c1) = true →
        ∃ c2, Add k' v' c1 = Some c2 ∧
              entries c2
              = Entry k' v' :: Entry k v :: removelast (without k (entries c)) ∧
              env c2 = call_evicted (OnEvicted c) [e] (env c) ∧
              k ∈ keys c2 ∧ (key e ∉ keys c2)) ∧
     (∀ k' v', ∃ c2, Add k' v' c1 = Some c2 ∧ k ∈ keys c2)).
Proof.
  intros Hwf HGet. pose proof (wf_NoDup_keys c Hwf) as Hnd.
  destruct (Get_refines k c Hwf) as (c' & HGet' & Hwf1 & [Hn1 Hf1] & Hent & Henv1 & _).
  rewrite HGet in HGet'. injection HGet' as Hres <-. unfold spec_get in Hres.
  simpl in Hent. destruct (list_find _ (entries c)) as [[i e0]|] eqn:Hfind; [|done].
  injection Hres as ->. apply list_find_Some in Hfind as (Hi & <- & _).
  apply list_elem_of_lookup_2 in Hi.
  assert (Heta : Entry (key e0) (value e0) = e0) by (by destruct e0).
  rewrite Heta. split; [done|]. intros Hlen.
  pose proof (without_nonempty (key e0) _ Hnd Hlen) as Hne.
  destruct (last (without (key e0) (entries c))) as [e|] eqn:Hlast;
    [|by apply last_None in Hlast].
  assert (He : key e ≠ key e0 ∧ e ∈ entries c).
  { apply last_Some_elem_of in Hlast. unfold without in Hlast.
    by apply list_elem_of_filter in Hlast. }
  destruct He as [Hke He].
  assert (Hndw : NoDup (key <$> without (key e0) (entries c))).
  { unfold without. apply (sublist_NoDup _ (key <$> entries c)); [done|].
    apply fmap_sublist, sublist_filter. }
  assert (Hgone : key e ∉ key <$> removelast (without (key e0) (entries c))).
  { rewrite <- (without_last _ e Hndw Hlast). apply key_notin_without. }
  assert (Hrl : removelast (e0 :: without (key e0) (entries c))
                = e0 :: removelast (without (key e0) (entries c))).
  { destruct (without (key e0) (entries c)); [done|]. done. }
  assert (Hle : last (e0 :: without (key e0) (entries c)) = Some e).
  { rewrite last_cons, Hlast. done. }
  assert (Hkeep : ∀ es, key e0 ∈ key <$> e0 :: es) by (intros es; left).
  exists e. split_and!; [done|done|done| | |].
  - destruct (RemoveOldest_refines c1 Hwf1) as (c2 & -> & _ & _ & _ & Hent2 & Henv2).
    rewrite Hent, Hrl in Hent2. rewrite Hent, Hle, Hf1, Henv1 in Henv2.
    exists c2. unfold keys. rewrite Hent2. split_and!; [done|done|done|apply Hkeep|].
    csimpl. apply not_elem_of_cons. done.
  - intros k' v' Hk' Hcap.
    destruct (Add_refines k' v' c1 Hwf1) as (c2 & -> & _ & _ & _ & Hent2 & Henv2).
    assert (Hnew : k' ∉ key <$> entries c1).
    { rewrite Hent. csimpl. apply not_elem_of_cons. split.
      - intros ->. apply Hk'. by apply list_elem_of_fmap_2.
      - intros (x & -> & [_ Hx]%list_elem_of_filter)%list_elem_of_fmap.
        apply Hk'. by apply list_elem_of_fmap_2. }
    unfold spec_entries in Hent2. unfold spec_evicted in Henv2.
    rewrite Hn1, Hf1, Henv1 in *.
    rewrite bool_decide_eq_false_2, Hcap in Hent2, Henv2 by done.
    rewrite Hent in Hent2, Henv2.
    assert (Hrl2 : removelast (Entry k' v' :: e0 :: without (key e0) (entries c))
                   = Entry k' v' :: e0 :: removelast (without (key e0) (entries c))).
    { by rewrite <- Hrl. }
    rewrite Hrl2 in Hent2. rewrite last_cons, Hle in Henv2.
    exists c2. unfold keys. rewrite Hent2. split_and!; [done|done|done| |].
    + right. apply Hkeep.
    + csimpl. apply not_elem_of_cons. split.
      * intros Heq. apply Hk'. rewrite <- Heq. by apply list_elem_of_fmap_2.
      * apply not_elem_of_cons. done.
  - intros k' v'.
    destruct (Add_refines k' v' c1 Hwf1) as (c2 & -> & _ & _ & _ & Hent2 & _).
    exists c2. split; [done|]. unfold keys. rewrite Hent2, Hent.
    unfold spec_entries. case_bool_decide as Hin.
    + destruct (decide (k' = key e0)) as [->|Hk]; [left|]. right.
      apply list_elem_of_fmap_2, list_elem_of_filter. split; [done|left].
    + destruct (over_capacity _ _); [|right; left].
      change (removelast (Entry k' v' :: e0 :: without (key e0) (entries c)))
        with (Entry k' v' :: removelast (e0 :: without (key e0) (entries c))).
      rewrite Hrl. right. left.
Qed.

(** The callback on a well-formed cache, all of whose keys are equal to
    themselves: Remove of a held key, RemoveOldest on a cache that holds an
    entry, an Add that evicts, each take one entry out of the cache and
    call [f] once, on the key and value that entry held; Clear empties the
    cache and calls [f] once on every entry it held, in some order. Over
    any sequence of operations the callback is called on a list [ev] of
    entries whose length, with the number of entries still held, is the
    number held at first plus the number put in. *)
Lemma callback_once_per_removed_entry c f :
  wf c → OnEvicted c = Some f →
  (∀ e, e ∈ entries c →
     ∃ c', Remove (key e) c = Some c' ∧
           entries c' = without (key e) (entries c) ∧ (key e ∉ keys c') ∧
           env c' = f (key e) (value e) (env c)) ∧
  (∀ e, last (entries c) = Some e →
     ∃ c', RemoveOldest c = Some c' ∧
           entries c' = removelast (entries c) ∧ (key e ∉ keys c') ∧
           env c' = f (key e) (value e) (env c)) ∧
  (∀ k v e, k ∉ keys c →
     over_capacity (MaxEntries c) (Entry k v :: entries c) = true →
     last (Entry k v :: entries c) = Some e →
     ∃ c', Add k v c = Some c' ∧
           entries c' = removelast (Entry k v :: entries c) ∧ (key e ∉ keys c') ∧
           env c' = f (key e) (value e) (env c)) ∧
  (∃ c' ev, Clear R c = Some c' ∧ entries c' = [] ∧ ev ≡ₚ entries c ∧
            env c' = foldl (λ w e, f (key e) (value e) w) (env c) ev) ∧
  (∀ os, ∃ c' ev, run zero R os c = Some c' ∧
            env c' = foldl (λ w e, f (key e) (value e) w) (env c) ev ∧
            length ev + length (entries c') = length (entries c) + inserted zero R os c).
Proof.
  intros Hwf Hf. pose proof (wf_NoDup_keys c Hwf) as Hnd. split_and!.
  - intros e He.
    destruct (Remove_refines (key e) c Hwf) as (c' & -> & _ & _ & Hent & Henv).
    exists c'. rewrite (filter_key _ e) in Henv by done. rewrite Hf in Henv.
    split_and!; try done. unfold keys. rewrite Hent. apply key_notin_without.
  - intros e He.
    destruct (RemoveOldest_refines c Hwf) as (c' & -> & _ & _ & _ & Hent & Henv).
    exists c'. rewrite He, Hf in Henv. split_and!; try done.
    unfold keys. rewrite Hent, <- (without_last _ e) by done.
    apply key_notin_without.
  - intros k v e Hk Hcap He.
    destruct (Add_refines k v c Hwf) as (c' & -> & _ & _ & _ & Hent & Henv).
    unfold spec_entries in Hent. unfold spec_evicted in Henv.
    rewrite bool_decide_eq_false_2, Hcap in Hent, Henv by done.
    rewrite He, Hf in Henv. exists c'. split_and!; try done.
    unfold keys. rewrite Hent, <- (without_last _ e); [|by constructor|done].
    apply key_notin_without.
  - destruct (Clear_refines c Hwf) as (c' & ev & -> & Hun & _ & Hperm & Henv).
    exists c', ev. rewrite Hf in Henv. split_and!; try done.
    by apply entries_uninitialized.
  - intros os. revert c Hwf Hf Hnd. induction os as [|o os IH]; intros c Hwf Hf Hnd.
    { exists c, []. simpl. split_and!; done. }
    destruct (step_refines o c Hwf)
      as (c1 & ev1 & Hstep & Hwf1 & [_ Hf1] & Hent1 & Hperm1 & _ & Henv1).
    rewrite Hf in Hf1, Henv1.
    destruct (IH c1 Hwf1 Hf1 (wf_NoDup_keys c1 Hwf1)) as (c' & ev & Hrun & Henv & Hlen).
    exists c', (ev1 ++ ev). simpl. rewrite Hstep. split_and!; try done.
    + rewrite Henv, Henv1. simpl. by rewrite foldl_app.
    + pose proof (spec_conservation (MaxEntries c) o (entries c) Hnd) as Hcons.
      rewrite <- Hent1, <- Hperm1 in Hcons. rewrite length_app. lia.
Qed.

Lemma wf_keys_index c k :
  wf c → k ∈ keys c ↔ is_Some (cache c ≫= λ m, m !! k).
Proof.
  intros [[Hl Hm]|(l & m & Hl & Hm & Hwf)]%wf_cases; unfold keys, entries; rewrite Hl, Hm.
  - simpl. split; [by intros ?%elem_of_nil|by intros [? ?]].
  - apply (wf_store_keys _ _ _ _ Hwf).
Qed.

(** A cache as a program first holds it: made by [New] (with the callback
    field then set by the caller), or the zero value. *)
Definition initial (b : bool) (w : W) (n : Z)
    (f : option (Key → Value → W → W)) : Cache Key Value W :=
  if b then set_OnEvicted f (New w n) else zero_Cache w n f.

Lemma wf_initial b w n f : wf (initial b w n f).
Proof. destruct b; [apply wf_set_OnEvicted, wf_New_in|apply wf_zero_Cache]. Qed.

(** C9. On a well-formed cache, Get of an absent key returns the zero
    value and false and leaves the whole state (recency order, index,
    elements, callback state) as it was; Remove of an absent key and
    RemoveOldest on an empty cache return normally with the state as it
    was. *)
Theorem absent_key_no_effect c k :
  wf c →
  (k ∉ keys c → Get zero k c = Some (zero, false, c) ∧ Remove k c = Some c) ∧
  (entries c = [] → RemoveOldest c = Some c).
Proof.
  intros Hwf. split.
  - intros Hk. rewrite (wf_keys_index c k Hwf) in Hk. unfold Get, Remove.
    destruct (cache c) as [m|]; [|done]. simpl in Hk.
    destruct (m !! k); [|done]. exfalso. apply Hk. eauto.
  - intros Hes. destruct (wf_cases _ Hwf) as [[Hl Hm]|(l & m & Hl & Hm & Hst)];
      unfold RemoveOldest; rewrite Hm; [done|]. rewrite Hl. simpl.
    unfold entries in Hes. rewrite Hl in Hes.
    pose proof (wf_store_length _ _ _ Hst) as Hlen. rewrite Hes in Hlen.
    destruct l; [done|discriminate].
Qed.

(** C10. On a cache whose list and map are nil, Get returns not-found,
    Remove, RemoveOldest and Clear return with the state as it was, Len
    returns 0, and Add allocates the list and the map, keeps MaxEntries and
    OnEvicted, and (for a maximum that is not negative) leaves the cache
    holding the added entry. Clear of any well-formed cache leaves the list
    and the map nil with MaxEntries and OnEvicted as they were, and every
    sequence of operations after it runs without a fault on a well-formed
    cache with that configuration. *)
Theorem uninitialized_safe c k v :
  (uninitialized c →
     Get zero k c = Some (zero, false, c) ∧
     Remove k c = Some c ∧
     RemoveOldest c = Some c ∧
     Len c = Some 0%Z ∧
     Clear R c = Some c ∧
     ∃ c', Add k v c = Some c' ∧ wf c' ∧ same_config c c' ∧
           is_Some (ll c') ∧ is_Some (cache c') ∧
           ((0 ≤ MaxEntries c)%Z →
              entries c' = [Entry k v] ∧ env c' = env c ∧
              ∃ c'', Get zero k c' = Some (v, true, c''))) ∧
  (wf c →
     ∃ c1, Clear R c = Some c1 ∧ uninitialized c1 ∧ same_config c c1 ∧
           ∀ os, ∃ c2, run zero R os c1 = Some c2 ∧ wf c2 ∧ same_config c c2).
Proof.
  split.
  - intros [Hl Hm]. destruct c as [n f ll0 m0 h w]. simpl in *. subst.
    unfold Get, Remove, RemoveOldest, Len, Clear. simpl.
    split_and!; try done.
    { by destruct f. }
    assert (Hwf : wf (mkCache n f None None h w)) by done.
    destruct (Add_refines k v _ Hwf) as (c' & HAdd & Hwf' & Hcfg & Hsome & Hent & Henv).
    exists c'. split_and!; try done.
    + destruct (wf_cases _ Hwf') as [[_ Hm']|(l & m & -> & _)]; [|done].
      rewrite Hm' in Hsome. by destruct Hsome.
    + intros Hn. simpl in Hn, Hent, Henv.
      change (entries (mkCache n f None None h w))
        with (@nil (entry Key Value)) in Hent, Henv.
      assert (Hcap : over_capacity n [Entry k v] = false).
      { unfold over_capacity. simpl. destruct (decide (n = 0%Z)) as [->|Hne]; [done|].
        rewrite (bool_decide_eq_false_2 (1 > n)%Z); [|lia]. apply andb_false_r. }
      rewrite Hcap in Hent, Henv. split_and!; [done|by destruct f|].
      destruct (Get_refines k c' Hwf') as (c'' & HGet & _).
      exists c''. change (Get zero k c' = Some (v, true, c'')). rewrite HGet. rewrite Hent. unfold spec_get. simpl.
      by rewrite decide_True.
  - intros Hwf. destruct (Clear_refines c Hwf) as (c1 & ev & HClear & Hun & Hcfg & _).
    exists c1. split_and!; try done. intros os.
    assert (Hwf1 : wf c1). { destruct Hun as [Hl Hm]. unfold wf. by rewrite Hl, Hm. }
    destruct (run_wf os c1 Hwf1) as (c2 & Hrun & Hwf2 & Hcfg2).
    exists c2. split_and!; try done. destruct Hcfg, Hcfg2. split; congruence.
Qed.

End refinement.

(** ** Further properties of the cache *)

Section further.

Context {Key : Type} `{Countable Key} {Value W : Type}.
Variable zero : Value.
Variable R : range_order Key.
Implicit Types (c : Cache Key Value W) (es : list (entry Key Value)).
Implicit Types (os : list (op Key Value)).

(** The map a sequence of operations describes when nothing is ever
    evicted: the value last added under each key that was not removed
    since. *)
Definition model_step (o : op Key Value) (mp : gmap Key Value) : gmap Key Value :=
  match o with
  | OpAdd k v => <[k := v]> mp
  | OpRemove k => delete k mp
  | OpClear => ∅
  | OpGet _ | OpRemoveOldest | OpLen => mp
  end.

Definition model (os : list (op Key Value)) (mp : gmap Key Value) : gmap Key Value :=
  foldl (λ mp' o, model_step o mp') mp os.

Lemma elem_of_removelast es e : e ∈ removelast es → e ∈ es.
Proof.
  destruct (last es) as [x|] eqn:Hlast.
  - apply last_Some in Hlast as [es0 ->]. rewrite removelast_last, elem_of_app. by left.
  - apply last_None in Hlast. by subst.
Qed.

Lemma elem_of_without k es e : e ∈ without k es ↔ key e ≠ k ∧ e ∈ es.
Proof. unfold without. by rewrite list_elem_of_filter. Qed.

Lemma call_evicted_nil (f : option (Key → Value → W → W)) (w : W) :
  call_evicted f [] w = w.
Proof. by destruct f. Qed.

Lemma spec_get_head k v es : spec_get zero k (Entry k v :: es) = (v, true).
Proof. unfold spec_get. simpl. by rewrite decide_True. Qed.

Lemma spec_get_notin k es : k ∉ key <$> es → spec_get zero k es = (zero, false).
Proof. intros Hk. unfold spec_get. by rewrite list_find_key_None. Qed.

Lemma spec_get_elem k es e :
  NoDup (key <$> es) → e ∈ es → key e = k → spec_get zero k es = (value e, true).
Proof.
  intros Hnd He <-. unfold spec_get. by destruct (list_find_key es e Hnd He) as [i ->].
Qed.

(** The result of a lookup depends on the entries, not on their order. *)
Lemma spec_get_Permutation k es es' :
  NoDup (key <$> es) → es ≡ₚ es' → spec_get zero k es = spec_get zero k es'.
Proof.
  intros Hnd Hperm. assert (Hnd' : NoDup (key <$> es')) by (by rewrite <- Hperm).
  destruct (decide (k ∈ key <$> es)) as [Hin|Hnotin].
  - apply list_elem_of_fmap in Hin as (e & -> & He).
    rewrite (spec_get_elem (key e) es e), (spec_get_elem (key e) es' e); try done.
    by rewrite <- Hperm.
  - rewrite !spec_get_notin; [done| |done]. by rewrite <- Hperm.
Qed.

Lemma spec_get_without k k' es :
  NoDup (key <$> es) → k' ≠ k →
  spec_get zero k' (without k es) = spec_get zero k' es.
Proof.
  intros Hnd Hne.
  assert (Hnd' : NoDup (key <$> without k es)).
  { unfold without. apply (sublist_NoDup _ (key <$> es)); [done|].
    apply fmap_sublist, sublist_filter. }
  destruct (decide (k' ∈ key <$> es)) as [Hin|Hnotin].
  - apply list_elem_of_fmap in Hin as (e & -> & He).
    rewrite (spec_get_elem (key e) es e), (spec_get_elem (key e) (without k es) e); try done.
    by apply elem_of_without.
  - rewrite !spec_get_notin; [done|done|].
    intros (e & -> & [_ He]%elem_of_without)%list_elem_of_fmap.
    apply Hnotin. by apply list_elem_of_fmap_2.
Qed.

(** Moving an entry to the front keeps the entries. *)
Lemma move_to_front_Permutation es e :
  NoDup (key <$> es) → e ∈ es → e :: without (key e) es ≡ₚ es.
Proof.
  intros Hnd He. rewrite <- (filter_app_complement (λ e', key e' = key e) es) at 2.
  by rewrite (filter_key es e).
Qed.

Lemma length_move_to_front es e :
  NoDup (key <$> es) → e ∈ es → length (without (key e) es) + 1 = length es.
Proof.
  intros Hnd He. pose proof (length_without (key e) es) as Hlen.
  rewrite (filter_key es e) in Hlen by done. simpl in Hlen. lia.
Qed.

(** After [Add(k, v)] on a cache whose maximum is not negative and whose
    keys are equal to themselves, the cache holds [k] with [v] as its most
    recently used entry, the other entries it holds are entries it held
    before, and [Get(k)] returns [v]. *)
Lemma Add_then_Get c k v :
  wf c → (0 ≤ MaxEntries c)%Z →
  ∃ c' c'' es,
    Add k v c = Some c' ∧ entries c' = Entry k v :: es ∧
    (∀ e, e ∈ es → e ∈ entries c ∧ key e ≠ k) ∧
    Get zero k c' = Some (v, true, c'') ∧ entries c'' = entries c'.
Proof.
  intros Hwf Hn. pose proof (wf_NoDup_keys c Hwf) as Hnd.
  destruct (Add_refines k v c Hwf) as (c' & HAdd & Hwf' & _ & _ & Hent & _).
  assert (Hes : ∃ es, entries c' = Entry k v :: es ∧
                      ∀ e, e ∈ es → e ∈ entries c ∧ key e ≠ k).
  { rewrite Hent. unfold spec_entries. case_bool_decide as Hin.
    - eexists. split; [done|]. intros e [? ?]%elem_of_without. done.
    - assert (Hother : ∀ e, e ∈ entries c → key e ≠ k).
      { intros e He <-. apply Hin. by apply list_elem_of_fmap_2. }
      destruct (over_capacity _ _) eqn:Hcap.
      + destruct (entries c) as [|e0 es0] eqn:Hes0.
        { unfold over_capacity in Hcap. simpl in Hcap.
          apply andb_true_iff in Hcap as [Hne%bool_decide_eq_true Hgt%bool_decide_eq_true].
          lia. }
        exists (removelast (e0 :: es0)). split; [done|].
        intros e He%elem_of_removelast. auto.
      + exists (entries c). split; [done|]. auto. }
  destruct Hes as (es & Hes & Hold).
  destruct (Get_refines zero k c' Hwf') as (c'' & HGet & _ & _ & Hent'' & _).
  exists c', c'', es. split_and!; try done.
  - by rewrite HGet, Hes, spec_get_head.
  - rewrite Hent'', Hes. simpl. rewrite decide_True by done. simpl. f_equal.
    unfold without. rewrite filter_cons, decide_False by (simpl; auto). 
    apply without_notin. intros (e & -> & He)%list_elem_of_fmap. by destruct (Hold e He).
Qed.

(** X2. [Add] of a key the cache holds puts the new value in the place of the
    old one and makes the entry the most recently used; it takes no entry
    out and does not call the callback, also when the cache holds more
    entries than its maximum. *)
Theorem Add_held_key_replaces_value c k v :
  wf c → k ∈ keys c →
  ∃ c', Add k v c = Some c' ∧
        entries c' = Entry k v :: without k (entries c) ∧
        length (entries c') = length (entries c) ∧
        Len c' = Len c ∧ env c' = env c.
Proof.
  intros Hwf Hk. pose proof (wf_NoDup_keys c Hwf) as Hnd.
  destruct (Add_refines k v c Hwf) as (c' & HAdd & Hwf' & _ & _ & Hent & Henv).
  unfold spec_entries in Hent. unfold spec_evicted in Henv.
  rewrite bool_decide_eq_true_2 in Hent, Henv by done. rewrite call_evicted_nil in Henv.
  assert (Hlen : length (entries c') = length (entries c)).
  { apply list_elem_of_fmap in Hk as (e & -> & He). rewrite Hent. simpl.
    pose proof (length_move_to_front _ e Hnd He). lia. }
  exists c'. split_and!; try done.
  by rewrite (Len_refines c' Hwf'), (Len_refines c Hwf), Hlen.
Qed.

(** X3. With a negative maximum every [Add] of a new key takes the oldest
    entry out again: on an empty cache that is the entry just added, which
    is passed to the callback and is not found by a [Get]; a cache that is
    empty stays empty whatever is done with it. *)
Theorem negative_MaxEntries_holds_nothing c :
  wf c → (MaxEntries c < 0)%Z → entries c = [] →
  (∀ k v, ∃ c', Add k v c = Some c' ∧ entries c' = [] ∧
                env c' = call_evicted (OnEvicted c) [Entry k v] (env c) ∧
                Get zero k c' = Some (zero, false, c')) ∧
  (∀ os, ∃ c', run zero R os c = Some c' ∧ entries c' = [] ∧ Len c' = Some 0%Z).
Proof.
  intros Hwf Hn Hes.
  assert (Hcap : ∀ (k : Key) (v : Value), over_capacity (MaxEntries c) [Entry k v] = true).
  { intros k v. unfold over_capacity. simpl.
    rewrite !bool_decide_eq_true_2 by lia. done. }
  split.
  - intros k v. destruct (Add_refines k v c Hwf) as (c' & HAdd & Hwf' & _ & _ & Hent & Henv).
    unfold spec_entries in Hent. unfold spec_evicted in Henv. rewrite Hes in Hent, Henv.
    rewrite bool_decide_eq_false_2 in Hent, Henv by (by intros ?%elem_of_nil).
    rewrite Hcap in Hent, Henv. simpl in Hent, Henv.
    exists c'. split_and!; try done.
    destruct (Get_refines zero k c' Hwf') as (c'' & HGet & _ & _ & _ & _ & Hsame).
    assert (Hk : k ∉ keys c') by (unfold keys; rewrite Hent; by intros ?%elem_of_nil).
    rewrite (Hsame Hk) in HGet. by rewrite HGet, Hent.
  - intros os. revert c Hwf Hn Hes Hcap.
    induction os as [|o os IH]; intros c Hwf Hn Hes Hcap.
    { exists c. split_and!; try done. by rewrite (Len_refines c Hwf), Hes. }
    destruct (step_refines zero R o c Hwf) as (c1 & ev & Hstep & Hwf1 & [Hn1 _] & Hent & _).
    assert (Hes1 : entries c1 = []).
    { rewrite Hent, Hes. destruct o as [k v|k|k| | |]; simpl; try done.
      by rewrite Hcap. }
    destruct (IH c1) as (c' & Hrun & Hes' & Hlen); [done|by rewrite Hn1|done|by rewrite Hn1|].
    exists c'. simpl. rewrite Hstep. done.
Qed.

Lemma spec_entries_length n (o : op Key Value) es :
  n ≠ 0%Z → NoDup (key <$> es) →
  (Z.of_nat (length (spec_entries n o es)) ≤ Z.max n (Z.of_nat (length es)))%Z.
Proof.
  intros Hn Hnd. destruct o as [k v|k|k| | |]; simpl.
  - case_bool_decide as Hin.
    + apply list_elem_of_fmap in Hin as (e & -> & He). simpl.
      pose proof (length_move_to_front es e Hnd He). lia.
    + destruct (over_capacity n (Entry k v :: es)) eqn:Hcap.
      * pose proof (length_last_removelast (Entry k v :: es)) as Hlen.
        destruct (last (Entry k v :: es)) eqn:Hlast; [|by apply last_None in Hlast].
        simpl in Hlen |- *. lia.
      * unfold over_capacity in Hcap. rewrite bool_decide_eq_true_2 in Hcap by done.
        simpl in Hcap. apply bool_decide_eq_false in Hcap. simpl. lia.
  - destruct (list_find _ es) as [[i e]|] eqn:Hfind; [|lia].
    apply list_find_Some in Hfind as (Hi & <- & _). apply list_elem_of_lookup_2 in Hi.
    simpl. pose proof (length_move_to_front es e Hnd Hi). lia.
  - pose proof (length_without k es). lia.
  - pose proof (length_last_removelast es). lia.
  - lia.
  - simpl. lia.
Qed.

(** X4. With a maximum that is not zero, no sequence of operations takes the
    number of entries above the larger of the maximum and the number the
    cache held at first; a cache made by [New] with a positive maximum, or
    the zero value given one, never holds more entries than its maximum. *)
Theorem Len_never_exceeds_MaxEntries c os :
  wf c → MaxEntries c ≠ 0%Z →
  (∃ c' n, run zero R os c = Some c' ∧ Len c' = Some n ∧
           n = Z.of_nat (length (entries c')) ∧
           (n ≤ Z.max (MaxEntries c) (Z.of_nat (length (entries c))))%Z) ∧
  (entries c = [] → (0 < MaxEntries c)%Z →
   ∃ c' n, run zero R os c = Some c' ∧ Len c' = Some n ∧ (0 ≤ n ≤ MaxEntries c)%Z).
Proof.
  intros Hwf Hn.
  assert (Hbound : ∃ c', run zero R os c = Some c' ∧ wf c' ∧
            (Z.of_nat (length (entries c'))
             ≤ Z.max (MaxEntries c) (Z.of_nat (length (entries c))))%Z).
  { revert c Hwf Hn. induction os as [|o os IH]; intros c Hwf Hn.
    { exists c. split_and!; [done|done|lia]. }
    destruct (step_refines zero R o c Hwf) as (c1 & ev & Hstep & Hwf1 & [Hn1 _] & Hent & _).
    pose proof (spec_entries_length _ o _ Hn (wf_NoDup_keys c Hwf)) as Hlen.
    rewrite <- Hent in Hlen.
    destruct (IH c1 Hwf1) as (c' & Hrun & Hwf' & Hlen'); [by rewrite Hn1|].
    exists c'. simpl. rewrite Hstep. split_and!; [done|done|]. rewrite Hn1 in Hlen'. lia. }
  destruct Hbound as (c' & Hrun & Hwf' & Hlen). split.
  - exists c', (Z.of_nat (length (entries c'))).
    split_and!; [done|by apply Len_refines|done|done].
  - intros Hes Hpos. exists c', (Z.of_nat (length (entries c'))).
    split_and!; [done|by apply Len_refines|lia|]. rewrite Hes in Hlen. simpl in Hlen. lia.
Qed.

(** X5. [Remove(k)] takes out the entry of [k] and no other: afterwards
    [Get(k)] finds nothing, [Get] of any other key returns what it returned
    before, and [Len] is one less if the cache held [k] and the same if it
    did not. *)
Theorem Remove_then_Get c k :
  wf c →
  ∃ c', Remove k c = Some c' ∧
        Get zero k c' = Some (zero, false, c') ∧
        (∀ k', k' ≠ k →
           ∃ r c1 c1', Get zero k' c = Some (r, c1) ∧ Get zero k' c' = Some (r, c1')) ∧
        (k ∈ keys c → length (entries c') + 1 = length (entries c)) ∧
        (k ∉ keys c → c' = c).
Proof.
  intros Hwf. pose proof (wf_NoDup_keys c Hwf) as Hnd.
  destruct (Remove_refines k c Hwf) as (c' & HRemove & Hwf' & _ & Hent & _).
  exists c'. split_and!; [done| | | |].
  - destruct (Get_refines zero k c' Hwf') as (c'' & HGet & _ & _ & _ & _ & Hsame).
    assert (Hk : k ∉ keys c') by (unfold keys; rewrite Hent; apply key_notin_without).
    rewrite (Hsame Hk) in HGet. by rewrite HGet, spec_get_notin.
  - intros k' Hne.
    destruct (Get_refines zero k' c Hwf) as (c1 & HGet & _).
    destruct (Get_refines zero k' c' Hwf') as (c1' & HGet' & _).
    exists (spec_get zero k' (entries c)), c1, c1'. split; [done|].
    by rewrite HGet', Hent, spec_get_without.
  - intros (e & -> & He)%list_elem_of_fmap. rewrite Hent.
    by apply length_move_to_front.
  - intros Hk.
    assert (Hsome : Remove k c = Some c).
    { unfold Remove. rewrite (wf_keys_index c k Hwf) in Hk.
      destruct (cache c) as [m|]; [|done]. simpl in Hk.
      destruct (m !! k); [|done]. exfalso. apply Hk. eauto. }
    congruence.
Qed.

(** X6. [Get] changes the order of the entries only: the cache holds the same
    entries after it, [Len] and the callback's state are as before, every
    key is found with the value it had, and a second [Get] of the same key
    returns the same and leaves the order as it is. *)
Theorem Get_keeps_contents c k :
  wf c →
  ∃ r c', Get zero k c = Some (r, c') ∧
          entries c' ≡ₚ entries c ∧ Len c' = Len c ∧ env c' = env c ∧
          (∀ k', ∃ r' c1 c1', Get zero k' c = Some (r', c1) ∧
                              Get zero k' c' = Some (r', c1')) ∧
          ∃ c'', Get zero k c' = Some (r, c'') ∧ entries c'' = entries c'.
Proof.
  intros Hwf. pose proof (wf_NoDup_keys c Hwf) as Hnd.
  destruct (Get_refines zero k c Hwf) as (c' & HGet & Hwf' & _ & Hent & Henv & _).
  pose proof (wf_NoDup_keys c' Hwf') as Hnd'.
  assert (Hperm : entries c' ≡ₚ entries c).
  { rewrite Hent. simpl. destruct (list_find _ (entries c)) as [[i e]|] eqn:Hfind; [|done].
    apply list_find_Some in Hfind as (Hi & <- & _). apply list_elem_of_lookup_2 in Hi.
    by apply move_to_front_Permutation. }
  exists (spec_get zero k (entries c)), c'. split_and!; try done.
  - rewrite (Len_refines c' Hwf'), (Len_refines c Hwf). by rewrite Hperm.
  - intros k'. destruct (Get_refines zero k' c Hwf) as (c1 & HGet1 & _).
    destruct (Get_refines zero k' c' Hwf') as (c1' & HGet1' & _).
    exists (spec_get zero k' (entries c)), c1, c1'. split; [done|].
    rewrite HGet1'. by rewrite (spec_get_Permutation k' _ _ Hnd' Hperm).
  - destruct (Get_refines zero k c' Hwf') as (c'' & HGet' & _ & _ & Hent' & _).
    exists c''. split.
    + rewrite HGet'. by rewrite (spec_get_Permutation k _ _ Hnd' Hperm).
    + rewrite Hent'. simpl. rewrite Hent. simpl.
      destruct (list_find _ (entries c)) as [[i e]|] eqn:Hfind.
      * apply list_find_Some in Hfind as (Hi & <- & _). simpl.
        rewrite decide_True by done. simpl. f_equal.
        unfold without at 1. rewrite filter_cons, decide_False by auto.
        apply without_notin, key_notin_without.
      * rewrite Hfind. done.
Qed.

Lemma spec_run_drain n k es :
  length es ≤ k →
  spec_run n (replicate k OpRemoveOldest) es = ([], reverse es).
Proof.
  revert k. induction es as [|e es IH] using rev_ind; intros k Hlen.
  - clear Hlen. induction k as [|k IH]; [done|]. simpl. by rewrite IH.
  - rewrite length_app in Hlen. simpl in Hlen. destruct k as [|k]; [lia|].
    simpl. rewrite removelast_last, last_snoc, IH by lia. simpl.
    by rewrite reverse_app.
Qed.

(** X7. [RemoveOldest], called as many times as the cache holds entries or
    more, empties the cache and passes the entries to the callback from the
    least to the most recently used. *)
Theorem RemoveOldest_drains_oldest_first c n :
  wf c → length (entries c) ≤ n →
  ∃ c', run zero R (replicate n OpRemoveOldest) c = Some c' ∧
        entries c' = [] ∧ Len c' = Some 0%Z ∧
        env c' = call_evicted (OnEvicted c) (reverse (entries c)) (env c).
Proof.
  intros Hwf Hlen.
  destruct (run_refines zero R (replicate n OpRemoveOldest) c Hwf)
    as (c' & ev & Hrun & Hwf' & _ & Hent & _ & Heq & Henv).
  rewrite Heq in Henv by (by intros [? _]%elem_of_replicate).
  rewrite spec_run_drain in Hent, Henv by done. simpl in Hent, Henv.
  exists c'. split_and!; try done. by rewrite (Len_refines c' Hwf'), Hent.
Qed.

Lemma model_snoc os o (mp : gmap Key Value) :
  model (os ++ [o]) mp = model_step o (model os mp).
Proof. unfold model. by rewrite foldl_app. Qed.

(** The entries after an operation hold the values of the map after it,
    when those before held the values of the map before. *)
Lemma spec_entries_current n (o : op Key Value) es (mp : gmap Key Value) :
  (∀ e, e ∈ es → mp !! key e = Some (value e)) →
  ∀ e, e ∈ spec_entries n o es → model_step o mp !! key e = Some (value e).
Proof.
  intros Hcur e. destruct o as [k v|k|k| | |]; cbn [spec_entries model_step].
  - case_bool_decide as Hin.
    + intros [->|[Hne He]%elem_of_without]%elem_of_cons; simpl.
      * by rewrite lookup_insert_eq.
      * rewrite lookup_insert_ne by done. by apply Hcur.
    + assert (Hsub : e ∈ Entry k v :: es → <[k:=v]> mp !! key e = Some (value e)).
      { intros [->|He]%elem_of_cons; simpl; [by rewrite lookup_insert_eq|].
        rewrite lookup_insert_ne; [by apply Hcur|].
        intros ->. apply Hin. by apply list_elem_of_fmap_2. }
      destruct (over_capacity _ _); [|done]. intros He%elem_of_removelast. auto.
  - destruct (list_find _ es) as [[i e']|] eqn:Hfind; [|by apply Hcur].
    apply list_find_Some in Hfind as (Hi & _ & _). apply list_elem_of_lookup_2 in Hi.
    intros [->|[_ He]%elem_of_without]%elem_of_cons; by apply Hcur.
  - intros [Hne He]%elem_of_without. rewrite lookup_delete_ne by done. by apply Hcur.
  - intros He%elem_of_removelast. by apply Hcur.
  - apply Hcur.
  - by intros ?%elem_of_nil.
Qed.

(** Without eviction the entries are exactly those of the map. *)
Lemma spec_entries_complete (o : op Key Value) es (mp : gmap Key Value) :
  o ≠ OpRemoveOldest → NoDup (key <$> es) →
  (∀ k v, mp !! k = Some v → Entry k v ∈ es) →
  ∀ k v, model_step o mp !! k = Some v → Entry k v ∈ spec_entries 0 o es.
Proof.
  intros Ho Hnd Hall k v. destruct o as [k0 v0|k0|k0| | |];
    cbn [spec_entries model_step]; try done.
  - intros [[<- <-]|[Hne Hk]]%lookup_insert_Some.
    + case_bool_decide; left.
    + assert (Hin : Entry k v ∈ Entry k0 v0 :: without k0 es).
      { right. apply elem_of_without. split; [done|]. by apply Hall. }
      case_bool_decide; [done|]. right. by apply Hall.
  - intros Hk%Hall. destruct (list_find _ es) as [[i e']|] eqn:Hfind; [|done].
    apply list_find_Some in Hfind as (Hi & Hk0 & _). apply list_elem_of_lookup_2 in Hi.
    destruct (decide (k = k0)) as [->|Hne].
    + apply elem_of_cons. left.
      destruct (list_find_key es e' Hnd Hi) as [j Hj].
      destruct (list_find_key es (Entry k0 v) Hnd Hk) as [j' Hj']. simpl in Hj'.
      rewrite Hk0 in Hj. congruence.
    + right. by apply elem_of_without.
  - intros [Hne Hk]%lookup_delete_Some. apply elem_of_without. split; [done|]. by apply Hall.
  - apply Hall.
Qed.

(** With keys equal to themselves, a [Get] that finds a key returns the
    value last added under it, with no [Remove] of the key and no [Clear]
    since; a cache with maximum 0 on which [RemoveOldest] is not called
    finds exactly the keys added and not removed since. *)
Lemma Get_returns_last_added_value b (w : W) n f os k :
  ∃ c r c', run zero R os (initial b w n f) = Some c ∧
            Get zero k c = Some (r, c') ∧
            (∀ v, r = (v, true) → model os ∅ !! k = Some v) ∧
            (n = 0%Z → OpRemoveOldest ∉ os →
             r = match model os ∅ !! k with
                 | Some v => (v, true)
                 | None => (zero, false)
                 end).
Proof.
  assert (Hrun : ∃ c, run zero R os (initial b w n f) = Some c ∧ wf c ∧ MaxEntries c = n ∧
            (∀ e, e ∈ entries c → model os ∅ !! key e = Some (value e)) ∧
            (n = 0%Z → OpRemoveOldest ∉ os →
             ∀ k v, model os ∅ !! k = Some v → Entry k v ∈ entries c)).
  { induction os as [|o os IH] using rev_ind.
    - exists (initial b w n f). split_and!; [done|apply wf_initial|by destruct b| |].
      + intros e. destruct b; by intros ?%elem_of_nil.
      + intros _ _ k' v Hk. unfold model in Hk. simpl in Hk.
        by rewrite lookup_empty in Hk.
    - destruct IH as (c0 & Hrun0 & Hwf0 & Hn0 & Hcur & Hall).
      destruct (step_refines zero R o c0 Hwf0) as (c1 & ev & Hstep & Hwf1 & [Hn1 _] & Hent & _).
      exists c1. rewrite run_app, Hrun0. simpl. rewrite Hstep. simpl.
      split_and!; [done|done|congruence| |].
      + intros e. rewrite Hent, model_snoc. by apply spec_entries_current.
      + intros Hz Hno k' v. rewrite Hent, model_snoc, Hn0, Hz.
        apply spec_entries_complete.
        * intros ->. apply Hno. apply elem_of_app. right. left.
        * by apply wf_NoDup_keys.
        * apply Hall; [done|]. intros Hin. apply Hno. apply elem_of_app. by left. }
  destruct Hrun as (c & Hrun & Hwf & Hn & Hcur & Hall).
  pose proof (wf_NoDup_keys c Hwf) as Hnd.
  destruct (Get_refines zero k c Hwf) as (c' & HGet & _).
  exists c, (spec_get zero k (entries c)), c'. split_and!; [done|done| |].
  - intros v. unfold spec_get.
    destruct (list_find _ (entries c)) as [[i e]|] eqn:Hfind; [|done].
    apply list_find_Some in Hfind as (Hi & <- & _). apply list_elem_of_lookup_2 in Hi.
    intros [= <-]. by apply Hcur.
  - intros Hz Hno. destruct (model os ∅ !! k) as [v|] eqn:Hk.
    + by rewrite (spec_get_elem k _ (Entry k v) Hnd (Hall Hz Hno k v Hk)).
    + apply spec_get_notin. intros (e & -> & He)%list_elem_of_fmap.
      rewrite (Hcur e He) in Hk. done.
Qed.

End further.

(** ** Concrete caches: string keys, numbers as values, and a callback
    that records what it is called on *)

Definition recorder (k : string) (v : nat) (w : list (string * nat)) : list (string * nat) :=
  w ++ [(k, v)].

(** [NewRec n]: [New(n)] with [OnEvicted] set to the recording callback. *)
Definition NewRec (n : Z) : Cache string nat (list (string * nat)) :=
  initial true [] n (Some recorder).

Lemma add_evicts_least_recently_used_witness :
  ∃ c', run 0 range_default (adds [Entry "A" 1; Entry "B" 2; Entry "C" 3]) (NewRec 2)
        = Some c' ∧
        entries c' = [Entry "C" 3; Entry "B" 2] ∧
        env c' = [("A", 1)] ∧
        Len c' = Some 2%Z.
Proof.
  destruct (add_evicts_least_recently_used 0 range_default (NewRec 2)
              (wf_initial true [] 2 (Some recorder))) as (_ & Hb & _).
  destruct (Hb ltac:(done) eq_refl [Entry "A" 1; Entry "B" 2; Entry "C" 3]
              ltac:(compute_done))
    as (c' & Hrun & Hent & Henv & HLen & _).
  exists c'. split_and!; [exact Hrun|exact Hent|exact Henv|exact HLen].
Defined.

Lemma get_hit_promotes_witness :
  (∃ c c1 c2,
     run 0 range_default [OpAdd "A" 1; OpAdd "B" 2; OpAdd "C" 3] (NewRec 3) = Some c ∧
     Get 0 "A" c = Some (1, true, c1) ∧
     entries c1 = [Entry "A" 1; Entry "C" 3; Entry "B" 2] ∧
     Add "D" 4 c1 = Some c2 ∧
     entries c2 = [Entry "D" 4; Entry "A" 1; Entry "C" 3] ∧
     env c2 = [("B", 2)]) ∧
  (∃ c c1 c2,
     run 0 range_default [OpAdd "A" 1; OpAdd "B" 2; OpAdd "C" 3] (NewRec 2) = Some c ∧
     Get 0 "A" c = Some (0, false, c1) ∧
     Add "D" 4 c1 = Some c2 ∧
     entries c2 = [Entry "D" 4; Entry "C" 3] ∧
     env c2 = [("A", 1); ("B", 2)]).
Proof.
  split.
  - destruct (run_refines 0 range_default [OpAdd "A" 1; OpAdd "B" 2; OpAdd "C" 3]
                (NewRec 3) (wf_initial true [] 3 (Some recorder)))
      as (c & ev & Hrun & Hwf & [Hn Hf] & Hent & _ & Heq & Henv).
    rewrite Heq in Henv
      by apply (adds_no_Clear [Entry "A" 1; Entry "B" 2; Entry "C" 3]).
    change (entries c = [Entry "C" 3; Entry "B" 2; Entry "A" 1]) in Hent.
    change (env c = []) in Henv.
    destruct (Get_refines 0 "A" c Hwf) as (c1 & HGet & _).
    rewrite Hent in HGet. change (Get 0 "A" c = Some (1, true, c1)) in HGet.
    destruct (get_hit_promotes 0 c "A" 1 c1 Hwf HGet) as [Hent1 Hnext].
    assert (Hlen : 2 ≤ length (entries c)) by (rewrite Hent; simpl; lia).
    destruct (Hnext Hlen) as (e & Hlast & _ & _ & _ & HAdd & _).
    rewrite Hent in Hlast. injection Hlast as <-.
    destruct (HAdd "D" 4) as (c2 & HAdd2 & Hent2 & Henv2 & _).
    { unfold keys. rewrite Hent. intros Hin.
      repeat (apply elem_of_cons in Hin as [Hin|Hin]; [discriminate Hin|]).
      by apply elem_of_nil in Hin. }
    { rewrite Hent1, Hent, Hn. reflexivity. }
    exists c, c1, c2. rewrite Hent1, Hent2, Henv2, Hent, Henv, Hf.
    split_and!; [exact Hrun|exact HGet|reflexivity|exact HAdd2|reflexivity|reflexivity].
  - eexists _, _, _. split_and!; vm_compute; reflexivity.
Defined.

(** C5 as the specification states it fails: the entry a Get has just read
    is the next one evicted when it is the only entry. On [New(1)], after
    [Add(A)], [Get(A)] hits, and [Add(B)] then evicts A. *)
Lemma touched_only_entry_is_evicted :
  (∃ c1 c2 c3,
     Add "A" 1 (NewRec 1) = Some c1 ∧
     Get 0 "A" c1 = Some (1, true, c2) ∧
     Add "B" 2 c2 = Some c3 ∧
     keys c3 = ["B"] ∧ env c3 = [("A", 1)]) ∧
  ¬ (∀ (c c1 c2 : Cache string nat (list (string * nat))) k v k' v',
       wf c → Get 0 k c = Some (v, true, c1) → k' ∉ keys c1 →
       Add k' v' c1 = Some c2 → k ∈ keys c2).
Proof.
  assert (Hrun : ∃ c1 c2 c3,
     Add "A" 1 (NewRec 1) = Some c1 ∧
     Get 0 "A" c1 = Some (1, true, c2) ∧
     Add "B" 2 c2 = Some c3 ∧
     keys c3 = ["B"] ∧ env c3 = [("A", 1)]).
  { eexists _, _, _. split_and!; vm_compute; reflexivity. }
  split; [exact Hrun|]. intros Hall.
  destruct Hrun as (c1 & c2 & c3 & HAdd1 & HGet & HAdd2 & Hkeys & _).
  assert (Hwf1 : wf c1).
  { destruct (Add_refines "A" 1 (NewRec 1) (wf_initial true [] 1 (Some recorder)))
      as (c1' & HAdd1' & Hwf1 & _). congruence. }
  assert (Hnotin : "B" ∉ keys c2).
  { vm_compute in HAdd1. injection HAdd1 as <-.
    vm_compute in HGet. injection HGet as <-. vm_compute.
    intros [Heq|Hnil]%elem_of_cons; [done|by apply elem_of_nil in Hnil]. }
  pose proof (Hall c1 c2 c3 "A" 1 "B" 2 Hwf1 HGet Hnotin HAdd2) as Hin.
  rewrite Hkeys in Hin. apply list_elem_of_singleton in Hin. done.
Qed.

Lemma absent_key_no_effect_witness :
  Get 0 "A" (NewRec 2) = Some (0, false, NewRec 2) ∧
  Remove "A" (NewRec 2) = Some (NewRec 2) ∧
  RemoveOldest (NewRec 2) = Some (NewRec 2).
Proof.
  destruct (absent_key_no_effect 0 (NewRec 2) "A"
              (wf_initial true [] 2 (Some recorder))) as [Hmiss Hempty].
  destruct (Hmiss (not_elem_of_nil "A")) as [HGet HRemove].
  split_and!; [exact HGet|exact HRemove|exact (Hempty eq_refl)].
Defined.

Lemma uninitialized_safe_witness :
  Len (zero_Cache [] 2 (Some recorder)) = Some 0%Z ∧
  (∃ c', Add "A" 1 (zero_Cache [] 2 (Some recorder)) = Some c' ∧
         entries c' = [Entry "A" 1]) ∧
  (∃ c1, Clear range_default (NewRec 2) = Some c1 ∧ uninitialized c1).
Proof.
  destruct (uninitialized_safe 0 range_default (zero_Cache [] 2 (Some recorder)) "A" 1)
    as [Hun _].
  destruct (Hun (conj eq_refl eq_refl))
    as (_ & _ & _ & HLen & _ & c' & HAdd & _ & _ & _ & _ & Hpos).
  destruct (Hpos ltac:(done)) as (Hent & _).
  destruct (uninitialized_safe 0 range_default (NewRec 2) "A" 1) as [_ Hclear].
  destruct (Hclear (wf_initial true [] 2 (Some recorder))) as (c1 & HClear & Hun1 & _).
  split_and!; [exact HLen|by exists c'|by exists c1].
Defined.

(** A cache of maximum 2 after [Add("A", 1)] and [Add("B", 2)]. *)
Lemma NewRec_filled :
  ∃ c, run 0 range_default (adds [Entry "A" 1; Entry "B" 2]) (NewRec 2) = Some c ∧
       wf c ∧ entries c = [Entry "B" 2; Entry "A" 1] ∧ env c = [] ∧
       MaxEntries c = 2%Z ∧ OnEvicted c = Some recorder.
Proof.
  destruct (run_refines 0 range_default (adds [Entry "A" 1; Entry "B" 2]) (NewRec 2)
              (wf_initial true [] 2 (Some recorder)))
    as (c & ev & Hrun & Hwf & [Hn Hf] & Hent & _ & Heq & Henv).
  rewrite Heq in Henv by apply adds_no_Clear. exists c. split_and!; done.
Qed.

Lemma Add_held_key_replaces_value_witness :
  ∃ c c', run 0 range_default (adds [Entry "A" 1; Entry "B" 2]) (NewRec 2) = Some c ∧
          Add "A" 7 c = Some c' ∧ entries c' = [Entry "A" 7; Entry "B" 2] ∧ env c' = [].
Proof.
  destruct NewRec_filled as (c & Hrun & Hwf & Hent & Henv0 & _).
  assert (Hk : "A" ∈ keys c).
  { unfold keys. rewrite Hent. right. left. }
  destruct (Add_held_key_replaces_value c "A" 7 Hwf Hk) as (c' & HAdd & Hent' & _ & _ & Henv).
  exists c, c'. split_and!; [exact Hrun|exact HAdd| |].
  - rewrite Hent', Hent. reflexivity.
  - rewrite Henv. exact Henv0.
Defined.

Lemma negative_MaxEntries_holds_nothing_witness :
  ∃ c', Add "A" 1 (NewRec (-1)) = Some c' ∧ entries c' = [] ∧ env c' = [("A", 1)] ∧
        Get 0 "A" c' = Some (0, false, c').
Proof.
  destruct (negative_MaxEntries_holds_nothing 0 range_default (NewRec (-1))
              (wf_initial true [] (-1) (Some recorder)) eq_refl eq_refl) as [HAdd _].
  destruct (HAdd "A" 1) as (c' & Hc' & Hent & Henv & HGet).
  exists c'. split_and!; [exact Hc'|exact Hent|exact Henv|exact HGet].
Defined.

Lemma Len_never_exceeds_MaxEntries_witness :
  ∃ c' n, run 0 range_default (adds [Entry "A" 1; Entry "B" 2; Entry "C" 3]) (NewRec 2)
          = Some c' ∧ Len c' = Some n ∧ (0 ≤ n ≤ 2)%Z.
Proof.
  assert (Hne : MaxEntries (NewRec 2) ≠ 0%Z) by discriminate.
  destruct (Len_never_exceeds_MaxEntries 0 range_default (NewRec 2)
              (adds [Entry "A" 1; Entry "B" 2; Entry "C" 3])
              (wf_initial true [] 2 (Some recorder)) Hne) as [_ Hnew].
  destruct (Hnew eq_refl eq_refl) as (c' & n & Hrun & HLen & Hn).
  exists c', n. split_and!; [exact Hrun|exact HLen|exact (proj1 Hn)|exact (proj2 Hn)].
Defined.

Lemma Remove_then_Get_witness :
  ∃ c c' c1, run 0 range_default (adds [Entry "A" 1; Entry "B" 2]) (NewRec 2) = Some c ∧
             Remove "A" c = Some c' ∧
             Get 0 "A" c' = Some (0, false, c') ∧ Get 0 "B" c' = Some (2, true, c1).
Proof.
  destruct NewRec_filled as (c & Hrun & Hwf & Hent & _).
  destruct (Remove_then_Get 0 c "A" Hwf) as (c' & HRemove & HGet & Hother & _).
  destruct (Hother "B") as (r & c1 & c1' & HGetB & HGetB'); [discriminate|].
  destruct (Get_refines 0 "B" c Hwf) as (c2 & HGet2 & _).
  rewrite HGet2, Hent in HGetB. injection HGetB as <- _.
  exists c, c', c1'. split_and!; [exact Hrun|exact HRemove|exact HGet|exact HGetB'].
Defined.

Lemma Get_keeps_contents_witness :
  ∃ c c', run 0 range_default (adds [Entry "A" 1; Entry "B" 2]) (NewRec 2) = Some c ∧
          Get 0 "A" c = Some (1, true, c') ∧ Len c' = Len c ∧ env c' = env c.
Proof.
  destruct NewRec_filled as (c & Hrun & Hwf & Hent & _).
  destruct (Get_keeps_contents 0 c "A" Hwf) as (r & c' & HGet & _ & HLen & Henv & _).
  destruct (Get_refines 0 "A" c Hwf) as (c2 & HGet2 & _).
  assert (Hr : r = (1, true)).
  { rewrite HGet2, Hent in HGet. by injection HGet as <- _. }
  rewrite Hr in HGet.
  exists c, c'. split_and!; [exact Hrun|exact HGet|exact HLen|exact Henv].
Defined.

Lemma RemoveOldest_drains_oldest_first_witness :
  ∃ c c', run 0 range_default (adds [Entry "A" 1; Entry "B" 2]) (NewRec 2) = Some c ∧
          run 0 range_default [OpRemoveOldest; OpRemoveOldest; OpRemoveOldest] c = Some c' ∧
          entries c' = [] ∧ env c' = [("A", 1); ("B", 2)].
Proof.
  destruct NewRec_filled as (c & Hrun & Hwf & Hent & Henv0 & _ & Hf).
  assert (Hlen : length (entries c) ≤ 3) by (rewrite Hent; simpl; lia).
  destruct (RemoveOldest_drains_oldest_first 0 range_default c 3 Hwf Hlen)
    as (c' & Hrun' & Hent' & _ & Henv).
  exists c, c'. split_and!; [exact Hrun|exact Hrun'|exact Hent'|].
  rewrite Henv, Hf, Hent, Henv0. reflexivity.
Defined.

End lru.

(* ===================================================================== *)
(** * Package lru, for every comparable key *)
(* ===================================================================== *)

(** The embedding of [lru] above compares keys with the equality of their
    type, under which every key is equal to itself. Go's [==] on
    [interface{}] values is not reflexive: a floating-point NaN (and a
    struct or array that holds one) is a comparable value that is not equal
    to itself. A Go map compares keys with [==], so an entry stored under
    such a key is found by no lookup and removed by no [delete], while
    [len] counts it and [range] visits it. This module is the package
    again, over a map with that behaviour. (A key of a type that is not
    comparable makes the map panic; the package excludes it: "A Key may be
    any value that is comparable".) *)

Module lru_any_key.

Section cache.

Context {Key : Type} `{Countable Key}.

(** [reflexive k] tells whether Go's [k == k] holds. Two keys are equal
    for Go when they are the same key and that key is reflexive. *)
Variable reflexive : Key → bool.

Context {Value W : Type}.
Variable zero : Value.

(** A Go [map[interface{}]*list.Element]: [live] holds the entries stored
    under reflexive keys, and [orphans] the entries stored under keys that
    are not equal to themselves, in the order they were stored. *)
Record GoMap := mkGoMap {
  live : gmap Key nat;
  orphans : list (Key * nat)
}.

(** make(map[interface{}]*list.Element) *)
Definition map_make : GoMap := mkGoMap ∅ [].

(** m[k] *)
Definition map_lookup (k : Key) (m : GoMap) : option nat :=
  if reflexive k then live m !! k else None.

(** m[k] = a *)
Definition map_store (k : Key) (a : nat) (m : GoMap) : GoMap :=
  if reflexive k then mkGoMap (<[k := a]> (live m)) (orphans m)
  else mkGoMap (live m) (orphans m ++ [(k, a)]).

(** delete(m, k) *)
Definition map_delete (k : Key) (m : GoMap) : GoMap :=
  if reflexive k then mkGoMap (delete k (live m)) (orphans m) else m.

(** len(m) *)
Definition map_len (m : GoMap) : nat := size (live m) + length (orphans m).

(** The entries of the map, each a key and the element stored under it. *)
Definition map_entries (m : GoMap) : list (Key * nat) :=
  map_to_list (live m) ++ orphans m.

(** The fields of [Cache] and the heap it reaches, as in [lru.Cache]. *)
Record Cache := mkCache {
  MaxEntries : Z;
  OnEvicted : option (Key → Value → W → W);
  ll : option (list nat);
  cache : option GoMap;
  elems : gmap nat (lru.entry Key Value);
  env : W
}.

Definition set_ll (l : option (list nat)) (c : Cache) : Cache :=
  mkCache (MaxEntries c) (OnEvicted c) l (cache c) (elems c) (env c).
Definition set_cache (m : option GoMap) (c : Cache) : Cache :=
  mkCache (MaxEntries c) (OnEvicted c) (ll c) m (elems c) (env c).
Definition set_elems (h : gmap nat (lru.entry Key Value)) (c : Cache) : Cache :=
  mkCache (MaxEntries c) (OnEvicted c) (ll c) (cache c) h (env c).
Definition set_env (w : W) (c : Cache) : Cache :=
  mkCache (MaxEntries c) (OnEvicted c) (ll c) (cache c) (elems c) w.
Definition set_OnEvicted (f : option (Key → Value → W → W)) (c : Cache) : Cache :=
  mkCache (MaxEntries c) f (ll c) (cache c) (elems c) (env c).

(** The order in which a [range] over the map visits its entries: any
    enumeration of them. *)
Record range_order := RangeOrder {
  range : GoMap → list (Key * nat);
  range_perm : ∀ m, range m ≡ₚ map_entries m
}.

Definition range_default : range_order :=
  RangeOrder map_entries (λ m, reflexivity (map_entries m)).

Variable R : range_order.

(** func New(maxEntries int) *Cache *)
Definition New (w : W) (maxEntries : Z) : Cache :=
  mkCache maxEntries None lru.list_New (Some map_make) ∅ w.

(** The zero value [Cache{}], with its two exported fields set by the
    caller. *)
Definition zero_Cache (w : W) (maxEntries : Z)
    (onEvicted : option (Key → Value → W → W)) : Cache :=
  mkCache maxEntries onEvicted None None ∅ w.

(** func (c *Cache) removeElement(e *list.Element) *)
Definition removeElement (e : nat) (c : Cache) : option Cache :=
  l ← lru.list_Remove e (ll c);
  kv ← elems c !! e;
  let c1 := set_cache (map_delete (lru.key kv) <$> cache c) (set_ll (Some l) c) in
  match OnEvicted c1 with
  | Some f => Some (set_env (f (lru.key kv) (lru.value kv) (env c1)) c1)
  | None => Some c1
  end.

(** func (c *Cache) RemoveOldest() *)
Definition RemoveOldest (c : Cache) : option Cache :=
  match cache c with
  | None => Some c
  | Some _ =>
      ele ← lru.list_Back (ll c);
      match ele with
      | Some e => removeElement e c
      | None => Some c
      end
  end.

(** func (c *Cache) Add(key Key, value interface{}) *)
Definition Add (k : Key) (v : Value) (c : Cache) : option Cache :=
  let c0 := match cache c with
            | None => set_ll lru.list_New (set_cache (Some map_make) c)
            | Some _ => c
            end in
  m ← cache c0;
  match map_lookup k m with
  | Some ee =>
      l ← lru.list_MoveToFront ee (ll c0);
      kv ← elems c0 !! ee;
      Some (set_elems (<[ee := lru.Entry (lru.key kv) v]> (elems c0)) (set_ll (Some l) c0))
  | None =>
      let ele := fresh (dom (elems c0)) in
      l ← lru.list_PushFront ele (ll c0);
      let c1 := set_cache (Some (map_store k ele m))
                  (set_ll (Some l)
                     (set_elems (<[ele := lru.Entry k v]> (elems c0)) c0)) in
      n ← lru.list_Len (ll c1);
      if bool_decide (MaxEntries c1 ≠ 0%Z) && bool_decide (n > MaxEntries c1)%Z
      then RemoveOldest c1
      else Some c1
  end.

(** func (c *Cache) Get(key Key) (value interface{}, ok bool) *)
Definition Get (k : Key) (c : Cache) : option (Value * bool * Cache) :=
  match cache c with
  | None => Some (zero, false, c)
  | Some m =>
      match map_lookup k m with
      | Some ele =>
          l ← lru.list_MoveToFront ele (ll c);
          kv ← elems c !! ele;
          Some (lru.value kv, true, set_ll (Some l) c)
      | None => Some (zero, false, c)
      end
  end.

(** func (c *Cache) Remove(key Key) *)
Definition Remove (k : Key) (c : Cache) : option Cache :=
  match cache c with
  | None => Some c
  | Some m =>
      match map_lookup k m with
      | Some ele => removeElement ele c
      | None => Some c
      end
  end.

(** func (c *Cache) Len() int *)
Definition Len (c : Cache) : option Z :=
  match cache c with
  | None => Some 0%Z
  | Some _ => lru.list_Len (ll c)
  end.

(** func (c *Cache) Clear() *)
Definition Clear (c : Cache) : option Cache :=
  w ← match OnEvicted c with
      | Some f =>
          lru.Clear_loop f (elems c)
            (match cache c with Some m => range R m | None => [] end) (env c)
      | None => Some (env c)
      end;
  Some (set_cache None (set_ll None (set_env w c))).

(** One call of a method, and sequences of calls. *)
Definition step (o : lru.op Key Value) (c : Cache) : option Cache :=
  match o with
  | lru.OpAdd k v => Add k v c
  | lru.OpGet k => r ← Get k c; Some r.2
  | lru.OpRemove k => Remove k c
  | lru.OpRemoveOldest => RemoveOldest c
  | lru.OpLen => _ ← Len c; Some c
  | lru.OpClear => Clear c
  end.

Fixpoint run (os : list (lru.op Key Value)) (c : Cache) : option Cache :=
  match os with
  | [] => Some c
  | o :: os' => c' ← step o c; run os' c'
  end.

(** A cache as a program first holds it. *)
Definition initial (b : bool) (w : W) (n : Z)
    (f : option (Key → Value → W → W)) : Cache :=
  if b then set_OnEvicted f (New w n) else zero_Cache w n f.

(** The entries of the cache from most to least recently used, and their
    keys. *)
Definition entries (c : Cache) : list (lru.entry Key Value) :=
  match ll c with
  | Some l => omap (λ a, elems c !! a) l
  | None => []
  end.

Definition keys (c : Cache) : list Key := lru.key <$> entries c.

(** The number of entries an operation puts into the cache: one for an
    [Add] that does not find its key. *)
Definition inserts (o : lru.op Key Value) (es : list (lru.entry Key Value)) : nat :=
  match o with
  | lru.OpAdd k _ =>
      if reflexive k && bool_decide (k ∈ lru.key <$> es) then 0 else 1
  | _ => 0
  end.

Fixpoint inserted (os : list (lru.op Key Value)) (c : Cache) : nat :=
  match os with
  | [] => 0
  | o :: os' =>
      inserts o (entries c)
      + match step o c with Some c' => inserted os' c' | None => 0 end
  end.

(** The operations of a sequence add reflexive keys only. *)
Definition adds_reflexive (os : list (lru.op Key Value)) : Prop :=
  ∀ k v, lru.OpAdd k v ∈ os → reflexive k = true.

(** ** The cache of [lru] inside this one *)

(** A cache of [lru], as a cache over a Go map without orphans. *)
Definition embed (c : lru.Cache Key Value W) : Cache :=
  mkCache (lru.MaxEntries c) (lru.OnEvicted c) (lru.ll c)
    ((λ m, mkGoMap m []) <$> lru.cache c) (lru.elems c) (lru.env c).

(** The order of [range] on a map without orphans. *)
Lemma range_no_orphans (m : gmap Key nat) : range R (mkGoMap m []) ≡ₚ map_to_list m.
Proof. rewrite (range_perm R). unfold map_entries. simpl. by rewrite app_nil_r. Qed.

Definition restrict : lru.range_order Key :=
  lru.RangeOrder (λ m, range R (mkGoMap m [])) range_no_orphans.

(** Every element of the heap carries a reflexive key, and every key of
    the map is reflexive. *)
Definition all_reflexive (c : lru.Cache Key Value W) : Prop :=
  (∀ a kv, lru.elems c !! a = Some kv → reflexive (lru.key kv) = true) ∧
  (∀ m k, lru.cache c = Some m → is_Some (m !! k) → reflexive k = true).

End cache.

Global Arguments GoMap : clear implicits.
Global Arguments GoMap _ {_ _}.
Global Arguments Cache : clear implicits.
Global Arguments Cache _ {_ _} _ _.
Global Arguments range_order : clear implicits.
Global Arguments range_order _ {_ _}.

(** ** Operations on reflexive keys: the two embeddings agree *)

Section simulation.

Context {Key : Type} `{Countable Key} {Value W : Type}.
Variable reflexive : Key → bool.
Variable zero : Value.
Variable R : range_order Key.
Implicit Types (c : lru.Cache Key Value W) (g : Cache Key Value W).
Implicit Types (os : list (lru.op Key Value)) (h : gmap nat (lru.entry Key Value)).
Implicit Types (k : Key) (v : Value).

Lemma lookup_embed k (m : gmap Key nat) :
  (is_Some (m !! k) → reflexive k = true) →
  map_lookup reflexive k (mkGoMap m []) = m !! k.
Proof.
  intros Hk. unfold map_lookup. simpl. destruct (reflexive k); [done|].
  destruct (m !! k); [|done]. by discriminate Hk.
Qed.

Lemma removeElement_embed e c :
  all_reflexive reflexive c →
  removeElement reflexive e (embed c) = embed <$> lru.removeElement e c.
Proof.
  intros [Hel _]. unfold removeElement, lru.removeElement. destruct c as [n f l m h w].
  simpl. destruct (lru.list_Remove e l) as [l'|]; [|done]. simpl.
  destruct (h !! e) as [kv|] eqn:He; [|done]. simpl.
  unfold map_delete. rewrite (Hel e kv He).
  destruct f, m; done.
Qed.

Lemma RemoveOldest_embed c :
  all_reflexive reflexive c →
  RemoveOldest reflexive (embed c) = embed <$> lru.RemoveOldest c.
Proof.
  intros Hr. unfold RemoveOldest, lru.RemoveOldest.
  destruct (lru.cache c) as [m|] eqn:Hm; simpl; rewrite Hm; [|done]. simpl.
  destruct (lru.list_Back (lru.ll c)) as [[e|]|]; simpl; [|done..].
  by apply removeElement_embed.
Qed.

Lemma Remove_embed k c :
  all_reflexive reflexive c →
  Remove reflexive k (embed c) = embed <$> lru.Remove k c.
Proof.
  intros Hr. unfold Remove, lru.Remove.
  destruct (lru.cache c) as [m|] eqn:Hm; simpl; rewrite Hm; [|done]. simpl.
  rewrite lookup_embed by (by apply (proj2 Hr)).
  destruct (m !! k); [|done]. by apply removeElement_embed.
Qed.

Lemma Get_embed k c :
  all_reflexive reflexive c →
  Get reflexive zero k (embed c)
  = (λ r, (r.1, embed r.2)) <$> lru.Get zero k c.
Proof.
  intros Hr. unfold Get, lru.Get.
  destruct (lru.cache c) as [m|] eqn:Hm; simpl; rewrite Hm; [|done]. simpl.
  rewrite lookup_embed by (by apply (proj2 Hr)).
  destruct (m !! k) as [e|]; [|done].
  destruct (lru.list_MoveToFront e (lru.ll c)) as [l|]; [|done]. simpl.
  destruct (lru.elems c !! e); [|done]. simpl. unfold embed. simpl. by rewrite Hm.
Qed.

Lemma Len_embed c : Len (embed c) = lru.Len c.
Proof. unfold Len, lru.Len. simpl. by destruct (lru.cache c). Qed.

Lemma Clear_embed c :
  Clear R (embed c) = embed <$> lru.Clear (restrict R) c.
Proof.
  unfold Clear, lru.Clear. simpl.
  destruct (lru.OnEvicted c) as [f|]; [|done].
  destruct (lru.cache c) as [m|]; simpl.
  - by destruct (lru.Clear_loop f (lru.elems c) (range R (mkGoMap m [])) (lru.env c)).
  - done.
Qed.

Lemma all_reflexive_insert n f l (m : gmap Key nat) h (w : W) k v a :
  reflexive k = true →
  (∀ a' kv, h !! a' = Some kv → reflexive (lru.key kv) = true) →
  (∀ k', is_Some (m !! k') → reflexive k' = true) →
  all_reflexive reflexive
    (lru.mkCache n f l (Some (<[k := a]> m)) (<[a := lru.Entry k v]> h) w).
Proof.
  intros Hk Hel Hm. split; simpl.
  - intros a' kv [[-> <-]|[_ Ha]]%lookup_insert_Some; [done|]. by eapply Hel.
  - intros m' k' [= <-] [Hk'|Hk']%lookup_insert_is_Some'; [by subst|by apply Hm].
Qed.

Lemma Add_embed k v c :
  reflexive k = true → all_reflexive reflexive c →
  Add reflexive k v (embed c) = embed <$> lru.Add k v c.
Proof.
  intros Hk [Hel Hix]. unfold Add, lru.Add. destruct c as [n f l m h w]. simpl in *.
  assert (Hlook : ∀ m0 : gmap Key nat, map_lookup reflexive k (mkGoMap m0 []) = m0 !! k).
  { intros m0. unfold map_lookup. by rewrite Hk. }
  destruct m as [m|]; simpl; unfold map_make; rewrite Hlook.
  - destruct (m !! k) as [ee|] eqn:Hee.
    + destruct (lru.list_MoveToFront ee l); [|done]. simpl. by destruct (h !! ee).
    + destruct (lru.list_PushFront (fresh (dom h)) l) as [l1|]; [|done]. simpl.
      unfold map_store. rewrite Hk. simpl.
      destruct (bool_decide (n ≠ 0%Z) && bool_decide (Z.of_nat (length l1) > n)%Z); [|done].
      apply (RemoveOldest_embed
               (lru.mkCache n f (Some l1) (Some (<[k := fresh (dom h)]> m))
                  (<[fresh (dom h) := lru.Entry k v]> h) w)).
      apply all_reflexive_insert; [done|done|]. intros k'. by apply Hix.
  - rewrite lookup_empty. simpl. unfold map_store. rewrite Hk. simpl.
    destruct (bool_decide (n ≠ 0%Z) && bool_decide (Z.of_nat 1 > n)%Z); [|done].
    apply (RemoveOldest_embed
             (lru.mkCache n f (Some [fresh (dom h)]) (Some (<[k := fresh (dom h)]> ∅))
                (<[fresh (dom h) := lru.Entry k v]> h) w)).
    apply all_reflexive_insert; [done|done|].
    intros k' [? Hk']. by rewrite lookup_empty in Hk'.
Qed.

(** The operations of [lru] on reflexive keys keep the keys reflexive. *)
Lemma all_reflexive_removeElement e c c' :
  all_reflexive reflexive c → lru.removeElement e c = Some c' → all_reflexive reflexive c'.
Proof.
  intros [Hel Hix]. unfold lru.removeElement. destruct c as [n f l m h w]. simpl in *.
  destruct (lru.list_Remove e l) as [l'|]; [|done]. simpl.
  destruct (h !! e) as [kv|]; [|done]. simpl.
  assert (Hsub : ∀ m' k, delete (lru.key kv) <$> m = Some m' → is_Some (m' !! k) →
                         reflexive k = true).
  { intros m' k Hm' [a Ha]. destruct m as [m0|]; [|done]. injection Hm' as <-.
    apply lookup_delete_Some in Ha as [_ Ha]. by apply (Hix m0 k). }
  destruct f; intros [= <-]; by split.
Qed.

Lemma all_reflexive_RemoveOldest c c' :
  all_reflexive reflexive c → lru.RemoveOldest c = Some c' → all_reflexive reflexive c'.
Proof.
  intros Hr. unfold lru.RemoveOldest. destruct (lru.cache c); [|by intros [= <-]].
  destruct (lru.list_Back (lru.ll c)) as [[e|]|]; simpl; [|by intros [= <-]|done].
  by apply all_reflexive_removeElement.
Qed.

Lemma all_reflexive_step o c c' :
  all_reflexive reflexive c → (∀ k v, o = lru.OpAdd k v → reflexive k = true) →
  lru.step zero (restrict R) o c = Some c' → all_reflexive reflexive c'.
Proof.
  intros Hr Ho. destruct o as [k v|k|k| | |]; simpl.
  - pose proof (Ho k v eq_refl) as Hk. destruct Hr as [Hel Hix].
    unfold lru.Add. destruct c as [n f l m h w]. simpl in *.
    assert (Hgo : ∀ (l0 : option (list nat)) (m0 : gmap Key nat),
              (∀ k0, is_Some (m0 !! k0) → reflexive k0 = true) →
              match m0 !! k with
              | Some ee =>
                  l1 ← lru.list_MoveToFront ee l0;
                  kv ← h !! ee;
                  Some (lru.mkCache n f (Some l1) (Some m0)
                          (<[ee := lru.Entry (lru.key kv) v]> h) w)
              | None =>
                  l1 ← lru.list_PushFront (fresh (dom h)) l0;
                  if bool_decide (n ≠ 0%Z) && bool_decide (Z.of_nat (length l1) > n)%Z
                  then lru.RemoveOldest
                         (lru.mkCache n f (Some l1) (Some (<[k := fresh (dom h)]> m0))
                            (<[fresh (dom h) := lru.Entry k v]> h) w)
                  else Some (lru.mkCache n f (Some l1) (Some (<[k := fresh (dom h)]> m0))
                               (<[fresh (dom h) := lru.Entry k v]> h) w)
              end = Some c' → all_reflexive reflexive c').
    { intros l0 m0 Hm0. destruct (m0 !! k) as [ee|].
      - destruct (lru.list_MoveToFront ee l0); [|done]. simpl.
        destruct (h !! ee) as [kv|] eqn:Hee; [|done]. simpl. intros [= <-]. split; simpl.
        + intros a kv' [[-> <-]|[_ Ha]]%lookup_insert_Some; simpl; by eapply Hel.
        + intros m' k' [= <-]. apply Hm0.
      - destruct (lru.list_PushFront (fresh (dom h)) l0) as [l1|]; [|done]. simpl.
        destruct (bool_decide (n ≠ 0%Z) && bool_decide (Z.of_nat (length l1) > n)%Z).
        + apply all_reflexive_RemoveOldest. by apply all_reflexive_insert.
        + intros [= <-]. by apply all_reflexive_insert. }
    destruct m as [m|]; simpl.
    + apply Hgo. intros k0. by apply Hix.
    + apply (Hgo lru.list_New ∅). intros k0 [? Hk0]. by rewrite lookup_empty in Hk0.
  - unfold lru.Get. destruct (lru.cache c) as [m|] eqn:Hm; [|by intros [= <-]].
    destruct (m !! k) as [e|]; [|by intros [= <-]].
    destruct (lru.list_MoveToFront e (lru.ll c)); [|done]. simpl.
    destruct (lru.elems c !! e); [|done]. simpl. intros [= <-].
    destruct Hr as [Hel Hix]. by split.
  - unfold lru.Remove. destruct (lru.cache c) as [m|]; [|by intros [= <-]].
    destruct (m !! k); [|by intros [= <-]]. by apply all_reflexive_removeElement.
  - by apply all_reflexive_RemoveOldest.
  - destruct (lru.Len c); [|done]. by intros [= <-].
  - unfold lru.Clear. destruct (match lru.OnEvicted c with Some _ => _ | None => _ end); [|done].
    simpl. intros [= <-]. destruct Hr as [Hel Hix]. by split.
Qed.

Lemma step_embed o c :
  all_reflexive reflexive c → (∀ k v, o = lru.OpAdd k v → reflexive k = true) →
  step reflexive zero R o (embed c) = embed <$> lru.step zero (restrict R) o c.
Proof.
  intros Hr Ho. destruct o as [k v|k|k| | |]; simpl.
  - apply Add_embed; [by apply (Ho k v)|done].
  - rewrite Get_embed by done. by destruct (lru.Get zero k c).
  - by apply Remove_embed.
  - by apply RemoveOldest_embed.
  - rewrite Len_embed. by destruct (lru.Len c).
  - apply Clear_embed.
Qed.

Lemma adds_reflexive_cons o os :
  adds_reflexive reflexive (o :: os) →
  (∀ k v, o = lru.OpAdd k v → reflexive k = true) ∧ adds_reflexive reflexive os.
Proof.
  intros Hos. split.
  - intros k v ->. apply (Hos k v). left.
  - intros k v Hin. apply (Hos k v). by right.
Qed.

Lemma run_embed os c :
  all_reflexive reflexive c → adds_reflexive reflexive os →
  run reflexive zero R os (embed c) = embed <$> lru.run zero (restrict R) os c ∧
  (∀ c', lru.run zero (restrict R) os c = Some c' → all_reflexive reflexive c').
Proof.
  revert c. induction os as [|o os IH]; intros c Hr Hos; simpl.
  { split; [done|]. by intros c' [= <-]. }
  apply adds_reflexive_cons in Hos as [Ho Hos].
  rewrite step_embed by done.
  destruct (lru.step zero (restrict R) o c) as [c1|] eqn:Hstep; simpl; [|done].
  apply IH; [|done]. by eapply all_reflexive_step.
Qed.

Lemma inserted_embed os c :
  all_reflexive reflexive c → adds_reflexive reflexive os →
  inserted reflexive zero R os (embed c) = lru.inserted zero (restrict R) os c.
Proof.
  revert c. induction os as [|o os IH]; intros c Hr Hos; simpl; [done|].
  apply adds_reflexive_cons in Hos as [Ho Hos].
  rewrite step_embed by done.
  assert (Hins : inserts reflexive o (entries (embed c)) = lru.inserts o (lru.entries c)).
  { destruct o as [k v| | | | |]; try done. simpl. by rewrite (Ho k v eq_refl). }
  rewrite Hins. f_equal.
  destruct (lru.step zero (restrict R) o c) as [c1|] eqn:Hstep; simpl; [|done].
  apply IH; [|done]. by eapply all_reflexive_step.
Qed.

Lemma initial_embed b (w : W) n (f : option (Key → Value → W → W)) :
  embed (lru.initial b w n f) = initial b w n f.
Proof. by destruct b. Qed.

Lemma all_reflexive_initial b (w : W) n (f : option (Key → Value → W → W)) :
  all_reflexive reflexive (lru.initial b w n f).
Proof.
  destruct b; split; simpl; try done.
  intros m k [= <-] [? Hk]. by rewrite lookup_empty in Hk.
Qed.

(** A sequence of operations that adds reflexive keys only does to the
    cache what it does to the cache of [lru]. *)
Lemma run_initial b (w : W) n (f : option (Key → Value → W → W)) os :
  adds_reflexive reflexive os →
  ∃ c, lru.run zero (restrict R) os (lru.initial b w n f) = Some c ∧
       run reflexive zero R os (initial b w n f) = Some (embed c) ∧
       lru.wf c ∧ all_reflexive reflexive c ∧
       lru.MaxEntries c = n ∧ lru.OnEvicted c = f.
Proof.
  intros Hos.
  destruct (lru.run_wf zero (restrict R) os _ (lru.wf_initial b w n f))
    as (c & Hrun & Hwf & [Hn Hf]).
  destruct (run_embed os _ (all_reflexive_initial b w n f) Hos) as [Hsim Hr].
  exists c. rewrite initial_embed, Hrun in Hsim.
  split_and!; [done|done|done|by apply Hr| |].
  - rewrite Hn. by destruct b.
  - rewrite Hf. by destruct b.
Qed.

End simulation.

(** ** The properties of the cache, for keys equal to themselves *)

Section reflexive_keys.

Context {Key : Type} `{Countable Key} {Value W : Type}.
Variable reflexive : Key → bool.
Variable zero : Value.
Variable R : range_order Key.
Implicit Types (c : Cache Key Value W) (os : list (lru.op Key Value)).
Implicit Types (k : Key) (v : Value) (f : Key → Value → W → W).

(** C8, as amended. From a cache made by [New] or from the zero value,
    every sequence of Add, Get, Remove, RemoveOldest, Len and Clear that
    adds no key but keys equal to themselves runs without a fault and
    leaves a cache in which the list and the map are nil together; no key
    occurs twice in the recency sequence; the keys of the recency sequence
    are exactly the keys the lookup index finds; and the list holds no
    element twice, the map holds as many entries as the list has elements,
    none of them out of reach of a lookup, the elements the map holds are
    exactly those of the list, and each is filed under the key it
    carries. *)
Theorem index_agrees_with_sequence b (w : W) n (fo : option (Key → Value → W → W)) os :
  adds_reflexive reflexive os →
  ∃ c, run reflexive zero R os (initial b w n fo) = Some c ∧
       (ll c = None ↔ cache c = None) ∧
       NoDup (keys c) ∧
       (∀ k, k ∈ keys c ↔ is_Some (cache c ≫= map_lookup reflexive k)) ∧
       (∀ l m, ll c = Some l → cache c = Some m →
          NoDup l ∧ orphans m = [] ∧ map_len m = length l ∧
          (∀ a, a ∈ l ↔ ∃ k, (k, a) ∈ map_entries m) ∧
          (∀ k a, (k, a) ∈ map_entries m ↔ map_lookup reflexive k m = Some a) ∧
          (∀ k a, (k, a) ∈ map_entries m →
                  ∃ kv, elems c !! a = Some kv ∧ lru.key kv = k)).
Proof.
  intros Hos. destruct (run_initial reflexive zero R b w n fo os Hos)
    as (c0 & _ & Hrun & Hwf & [Hel Hix] & _).
  exists (embed c0). split; [done|].
  assert (Hlook : ∀ m0 k, lru.cache c0 = Some m0 →
                    map_lookup reflexive k (mkGoMap m0 []) = m0 !! k).
  { intros m0 k Hm0. apply lookup_embed. by apply Hix. }
  split_and!.
  - simpl. unfold lru.wf in Hwf. destruct (lru.ll c0), (lru.cache c0); done.
  - apply (lru.wf_NoDup_keys c0 Hwf).
  - intros k. rewrite (lru.wf_keys_index c0 k Hwf : k ∈ keys (embed c0) ↔ _). simpl.
    destruct (lru.cache c0) as [m0|] eqn:Hm0; [|done]. simpl. by rewrite Hlook.
  - intros l m Hl Hm. simpl in Hl, Hm.
    destruct (lru.cache c0) as [m0|] eqn:Hm0; [|done]. injection Hm as <-.
    unfold lru.wf in Hwf. rewrite Hl, Hm0 in Hwf.
    assert (Hent : ∀ k a, (k, a) ∈ map_entries (mkGoMap m0 []) ↔ m0 !! k = Some a).
    { intros k a. unfold map_entries. simpl. by rewrite app_nil_r, elem_of_map_to_list. }
    split_and!.
    + apply Hwf.
    + done.
    + unfold map_len. simpl. rewrite Nat.add_0_r.
      rewrite <- (lru.wf_store_range lru.range_default l m0 _ Hwf).
      by rewrite length_fmap, <- length_map_to_list.
    + intros a. split.
      * intros Ha. destruct (lru.wf_list_map _ _ _ Hwf a Ha) as (e & _ & He).
        exists (lru.key e). by apply Hent.
      * intros [k Hk%Hent]. by apply (lru.wf_map_list _ _ _ Hwf k).
    + intros k a. by rewrite Hent, Hlook.
    + intros k a Hk%Hent. by apply (lru.wf_map_list _ _ _ Hwf k).
Qed.

(** C6, as amended. In a cache with a callback [f], made by [New] or from
    the zero value and used with keys equal to themselves: the callback has
    been called once for every entry that has left the cache (the calls and
    the entries held are as many as the entries put in); Remove of a held
    key, RemoveOldest on a cache that holds an entry, and an Add that
    evicts each take one entry out of the cache and call [f] once, on the
    key and value that entry held; Clear empties the cache and calls [f]
    once on every entry it held, in some order; and over any further
    sequence of operations the callback is called once per removed
    entry. *)
Theorem callback_once_per_entry b (w : W) n f os :
  adds_reflexive reflexive os →
  ∃ c, run reflexive zero R os (initial b w n (Some f)) = Some c ∧
    (∃ ev, env c = foldl (λ w' e, f (lru.key e) (lru.value e) w') w ev ∧
           length ev + length (entries c)
           = inserted reflexive zero R os (initial b w n (Some f))) ∧
    (∀ e, e ∈ entries c →
       ∃ c', Remove reflexive (lru.key e) c = Some c' ∧
             entries c' = lru.without (lru.key e) (entries c) ∧
             (lru.key e ∉ keys c') ∧
             env c' = f (lru.key e) (lru.value e) (env c)) ∧
    (∀ e, last (entries c) = Some e →
       ∃ c', RemoveOldest reflexive c = Some c' ∧
             entries c' = removelast (entries c) ∧ (lru.key e ∉ keys c') ∧
             env c' = f (lru.key e) (lru.value e) (env c)) ∧
    (∀ k v e, reflexive k = true → k ∉ keys c →
       lru.over_capacity n (lru.Entry k v :: entries c) = true →
       last (lru.Entry k v :: entries c) = Some e →
       ∃ c', Add reflexive k v c = Some c' ∧
             entries c' = removelast (lru.Entry k v :: entries c) ∧
             (lru.key e ∉ keys c') ∧
             env c' = f (lru.key e) (lru.value e) (env c)) ∧
    (∃ c' ev, Clear R c = Some c' ∧ entries c' = [] ∧ ev ≡ₚ entries c ∧
              env c' = foldl (λ w' e, f (lru.key e) (lru.value e) w') (env c) ev) ∧
    (∀ os', adds_reflexive reflexive os' →
       ∃ c' ev, run reflexive zero R os' c = Some c' ∧
                env c' = foldl (λ w' e, f (lru.key e) (lru.value e) w') (env c) ev ∧
                length ev + length (entries c')
                = length (entries c) + inserted reflexive zero R os' c).
Proof.
  intros Hos. destruct (run_initial reflexive zero R b w n (Some f) os Hos)
    as (c0 & Hrun0 & Hrun & Hwf & Hr & Hn & Hf).
  exists (embed c0). split; [done|].
  destruct (lru.callback_once_per_removed_entry zero (restrict R) c0 f Hwf Hf)
    as (HRemove & HOldest & HAdd & HClear & Hruns).
  split_and!.
  - destruct (lru.callback_once_per_removed_entry zero (restrict R)
                (lru.initial b w n (Some f)) f (lru.wf_initial b w n (Some f)))
      as (_ & _ & _ & _ & Hfirst); [by destruct b|].
    destruct (Hfirst os) as (c1 & ev & Hrun1 & Henv & Hlen).
    rewrite Hrun0 in Hrun1. injection Hrun1 as <-. exists ev. split.
    + simpl. rewrite Henv. by destruct b.
    + rewrite <- initial_embed,
        (inserted_embed reflexive zero R os _ (all_reflexive_initial reflexive b w n (Some f)) Hos).
      change (entries (embed c0)) with (lru.entries c0). rewrite Hlen. by destruct b.
  - intros e He. destruct (HRemove e He) as (c' & HR & Hent & Hk & Henv).
    exists (embed c'). rewrite Remove_embed, HR by done. done.
  - intros e He. destruct (HOldest e He) as (c' & HR & Hent & Hk & Henv).
    exists (embed c'). rewrite RemoveOldest_embed, HR by done. done.
  - intros k v e Hk Hnotin Hcap He. rewrite <- Hn in Hcap.
    destruct (HAdd k v e Hnotin Hcap He) as (c' & HA & Hent & Hke & Henv).
    exists (embed c'). rewrite Add_embed, HA by done. done.
  - destruct HClear as (c' & ev & HC & Hent & Hperm & Henv).
    exists (embed c'), ev. rewrite Clear_embed, HC. done.
  - intros os' Hos'. destruct (Hruns os') as (c' & ev & Hrun' & Henv & Hlen).
    exists (embed c'), ev.
    rewrite (proj1 (run_embed reflexive zero R os' c0 Hr Hos')), Hrun'.
    split_and!; [done|done|]. by rewrite inserted_embed.
Qed.

(** X1. After [Add(k, v)] of a key equal to itself, on a cache whose
    maximum is not negative, the cache holds [k] with [v] as its most
    recently used entry, the other entries it holds are entries it held
    before, and [Get(k)] returns [v]. *)
Theorem Add_then_Get_reflexive b (w : W) n (fo : option (Key → Value → W → W)) os k v :
  adds_reflexive reflexive os → reflexive k = true → (0 ≤ n)%Z →
  ∃ c c' c'' es,
    run reflexive zero R os (initial b w n fo) = Some c ∧
    Add reflexive k v c = Some c' ∧ entries c' = lru.Entry k v :: es ∧
    (∀ e, e ∈ es → e ∈ entries c ∧ lru.key e ≠ k) ∧
    Get reflexive zero k c' = Some (v, true, c'') ∧ entries c'' = entries c'.
Proof.
  intros Hos Hk Hn0. destruct (run_initial reflexive zero R b w n fo os Hos)
    as (c0 & _ & Hrun & Hwf & Hr & Hn & _).
  destruct (lru.Add_then_Get zero c0 k v Hwf) as (c' & c'' & es & HA & Hent & Hold & HG & Hent'');
    [by rewrite Hn|].
  assert (Hr' : all_reflexive reflexive c').
  { apply (all_reflexive_step reflexive zero R (lru.OpAdd k v) c0 c' Hr); [|done].
    by intros k0 v0 [= <- <-]. }
  exists (embed c0), (embed c'), (embed c''), es.
  rewrite Add_embed, HA, Get_embed, HG by done. done.
Qed.

(** X8. After any sequence of operations that adds keys equal to
    themselves, a [Get] that finds a key returns the value last added under
    it, with no [Remove] of the key and no [Clear] since: the cache never
    returns a value that was replaced or removed. A cache with maximum 0 on
    which [RemoveOldest] is not called finds exactly the keys added and not
    removed since. *)
Theorem Get_returns_last_added b (w : W) n (fo : option (Key → Value → W → W)) os k :
  adds_reflexive reflexive os →
  ∃ c r c', run reflexive zero R os (initial b w n fo) = Some c ∧
            Get reflexive zero k c = Some (r, c') ∧
            (∀ v, r = (v, true) → lru.model os ∅ !! k = Some v) ∧
            (n = 0%Z → lru.OpRemoveOldest ∉ os →
             r = match lru.model os ∅ !! k with
                 | Some v => (v, true)
                 | None => (zero, false)
                 end).
Proof.
  intros Hos. destruct (run_initial reflexive zero R b w n fo os Hos)
    as (c0 & Hrun0 & Hrun & Hwf & Hr & _).
  destruct (lru.Get_returns_last_added_value zero (restrict R) b w n fo os k)
    as (c1 & r & c' & Hrun1 & HG & Hfound & Hall).
  rewrite Hrun0 in Hrun1. injection Hrun1 as <-.
  exists (embed c0), r, (embed c'). rewrite Get_embed, HG by done. done.
Qed.

End reflexive_keys.

(** ** Concrete caches: strings and a NaN as keys *)

(** Keys for examples: strings, which are equal to themselves, and a
    floating-point NaN, which is not. *)
Inductive gokey := KString (s : string) | KNaN.

Global Instance gokey_eq_dec : EqDecision gokey.
Proof. solve_decision. Defined.

Global Instance gokey_countable : Countable gokey.
Proof.
  apply (inj_countable' (λ k, match k with KString s => Some s | KNaN => None end)
                        (λ o, match o with Some s => KString s | None => KNaN end)).
  by intros [].
Defined.

Definition gokey_reflexive (k : gokey) : bool :=
  match k with KString _ => true | KNaN => false end.

Definition recorder (k : gokey) (v : nat) (w : list (gokey * nat)) : list (gokey * nat) :=
  w ++ [(k, v)].

(** [NewRec n]: [New(n)] with [OnEvicted] set to the recording callback. *)
Definition NewRec (n : Z) : Cache gokey nat (list (gokey * nat)) :=
  initial true [] n (Some recorder).

Definition runRec (os : list (lru.op gokey nat)) (n : Z) :
    option (Cache gokey nat (list (gokey * nat))) :=
  run gokey_reflexive 0 range_default os (NewRec n).

Ltac adds_are_reflexive :=
  let k := fresh "k" in
  let v := fresh "v" in
  let Hin := fresh "Hin" in
  intros k v Hin;
  repeat (apply elem_of_cons in Hin as [Hin|Hin];
          [first [discriminate Hin|by injection Hin as -> _]|]);
  exact (False_ind _ (proj1 (elem_of_nil _) Hin)).

(** C6 as the specification states it fails for a key that is not equal to
    itself. In [New(1)] with the recording callback, the second [Add] under
    a NaN evicts the entry of the first and calls the callback on it, but
    [delete] leaves the map entry of the evicted element where it is;
    [Clear] then visits the map and calls the callback on the evicted entry
    again: three calls for two entries put in, two of them for one
    entry. *)
Lemma NaN_entry_called_back_twice :
  ∃ c1 c2,
    runRec [lru.OpAdd KNaN 1; lru.OpAdd KNaN 2] 1 = Some c1 ∧
    entries c1 = [lru.Entry KNaN 2] ∧ env c1 = [(KNaN, 1)] ∧
    Clear range_default c1 = Some c2 ∧
    entries c2 = [] ∧ env c2 = [(KNaN, 1); (KNaN, 1); (KNaN, 2)] ∧
    inserted gokey_reflexive 0 range_default
      [lru.OpAdd KNaN 1; lru.OpAdd KNaN 2; lru.OpClear] (NewRec 1) = 2 ∧
    length (env c2) + length (entries c2) ≠ 2 ∧
    ¬ (∃ ev, ev ≡ₚ entries c1 ∧
             env c2 = foldl (λ w e, recorder (lru.key e) (lru.value e) w) (env c1) ev).
Proof.
  eexists _, _. split; [vm_compute; reflexivity|].
  split; [reflexivity|]. split; [reflexivity|].
  split; [vm_compute; reflexivity|].
  split; [reflexivity|]. split; [reflexivity|].
  split; [vm_compute; reflexivity|].
  split; [simpl; lia|].
  intros (ev & Hperm & Henv). apply Permutation_singleton_r in Hperm. subst ev.
  discriminate Henv.
Qed.

(** C8 as the specification states it fails for a key that is not equal to
    itself. After two [Add]s under a NaN in [New(1)] the list holds one
    element and the map two entries: the entry of the evicted element is
    still in the map, and no element of the list stands for it. In [New(0)]
    the two entries are both held, under one key. *)
Lemma NaN_key_leaves_orphan_in_index :
  (∃ c l m,
     runRec [lru.OpAdd KNaN 1; lru.OpAdd KNaN 2] 1 = Some c ∧
     ll c = Some l ∧ cache c = Some m ∧
     l = [1] ∧ map_entries m = [(KNaN, 0); (KNaN, 1)] ∧
     Len c = Some 1%Z ∧ map_len m = 2 ∧
     ¬ (∀ a, a ∈ l ↔ ∃ k, (k, a) ∈ map_entries m)) ∧
  (∃ c, runRec [lru.OpAdd KNaN 1; lru.OpAdd KNaN 2] 0 = Some c ∧
        keys c = [KNaN; KNaN] ∧ ¬ NoDup (keys c)).
Proof.
  split.
  - eexists _, _, _. split; [vm_compute; reflexivity|].
    split; [reflexivity|]. split; [reflexivity|].
    split; [reflexivity|]. split; [reflexivity|].
    split; [reflexivity|]. split; [reflexivity|].
    intros Hiff. assert (Hin : 0 ∈ [1]).
    { apply Hiff. exists KNaN. left. }
    apply list_elem_of_singleton in Hin. discriminate Hin.
  - eexists. split; [vm_compute; reflexivity|]. split; [reflexivity|].
    intros Hnd. apply NoDup_cons in Hnd as [Hnotin _]. apply Hnotin. left.
Qed.

Definition A : gokey := KString "A".
Definition B : gokey := KString "B".
Definition C : gokey := KString "C".
Definition D : gokey := KString "D".

Lemma index_agrees_with_sequence_witness :
  ∃ c, runRec [lru.OpAdd A 1; lru.OpAdd B 2; lru.OpGet A; lru.OpAdd C 3;
               lru.OpRemove C; lru.OpAdd D 4; lru.OpGet KNaN] 2 = Some c ∧
       keys c = [D; A] ∧ NoDup (keys c) ∧
       ∀ l m, ll c = Some l → cache c = Some m →
              orphans m = [] ∧ map_len m = length l ∧
              ∀ a, a ∈ l ↔ ∃ k, (k, a) ∈ map_entries m.
Proof.
  destruct (index_agrees_with_sequence gokey_reflexive 0 range_default true []
              2 (Some recorder)
              [lru.OpAdd A 1; lru.OpAdd B 2; lru.OpGet A; lru.OpAdd C 3;
               lru.OpRemove C; lru.OpAdd D 4; lru.OpGet KNaN])
    as (c & Hrun & _ & Hnd & _ & Hix); [adds_are_reflexive|].
  exists c. split; [exact Hrun|]. split.
  { vm_compute in Hrun. injection Hrun as <-. reflexivity. }
  split; [exact Hnd|]. intros l m Hl Hm.
  destruct (Hix l m Hl Hm) as (_ & Ho & Hlen & Hsame & _).
  split; [exact Ho|]. split; [exact Hlen|exact Hsame].
Defined.

(** A sequence with every way out of the cache: an eviction by [Add], a
    replaced value, a [Remove], a [Get] of a NaN, and a [Clear]. *)
Definition every_way_out : list (lru.op gokey nat) :=
  [lru.OpAdd A 1; lru.OpAdd B 2; lru.OpAdd C 3; lru.OpAdd C 4; lru.OpRemove B;
   lru.OpGet KNaN; lru.OpAdd D 5; lru.OpClear].

Lemma inserted_every_way_out :
  inserted gokey_reflexive 0 range_default every_way_out (NewRec 2) = 4.
Proof. vm_compute. reflexivity. Qed.

Lemma callback_once_per_entry_witness :
  ∃ c, runRec every_way_out 2 = Some c ∧
       entries c = [] ∧
       env c = [(A, 1); (B, 2); (D, 5); (C, 4)] ∧
       (∃ ev, env c = foldl (λ w e, recorder (lru.key e) (lru.value e) w) [] ev ∧
              length ev + length (entries c) = 4) ∧
       (∃ c', Add gokey_reflexive A 6 c = Some c' ∧ entries c' = [lru.Entry A 6] ∧
              ∃ c'', Remove gokey_reflexive A c' = Some c'' ∧ entries c'' = []).
Proof.
  destruct (callback_once_per_entry gokey_reflexive 0 range_default true [] 2 recorder
              every_way_out)
    as (c & Hrun & (ev & Henv & Hlen) & _ & _ & _ & _ & Hnext); [adds_are_reflexive|].
  exists c. split; [exact Hrun|].
  assert (Hc : entries c = [] ∧ env c = [(A, 1); (B, 2); (D, 5); (C, 4)] ∧
               ∃ c', Add gokey_reflexive A 6 c = Some c' ∧ entries c' = [lru.Entry A 6] ∧
                     ∃ c'', Remove gokey_reflexive A c' = Some c'' ∧ entries c'' = []).
  { vm_compute in Hrun. injection Hrun as <-.
    split; [reflexivity|]. split; [reflexivity|].
    eexists. split; [vm_compute; reflexivity|]. split; [reflexivity|].
    eexists. split; [vm_compute; reflexivity|reflexivity]. }
  destruct Hc as (Hent & Henv' & HAdd).
  split; [exact Hent|]. split; [exact Henv'|]. split; [|exact HAdd].
  exists ev. split; [exact Henv|]. rewrite Hlen. exact inserted_every_way_out.
Defined.

Lemma Add_then_Get_reflexive_witness :
  ∃ c c' c'' es,
    runRec [lru.OpAdd A 1; lru.OpAdd B 2] 2 = Some c ∧
    Add gokey_reflexive C 3 c = Some c' ∧ entries c' = lru.Entry C 3 :: es ∧
    Get gokey_reflexive 0 C c' = Some (3, true, c'').
Proof.
  destruct (Add_then_Get_reflexive gokey_reflexive 0 range_default true [] 2
              (Some recorder) [lru.OpAdd A 1; lru.OpAdd B 2] C 3)
    as (c & c' & c'' & es & Hrun & HAdd & Hent & _ & HGet & _);
    [adds_are_reflexive|reflexivity|lia|].
  exists c, c', c'', es. split; [exact Hrun|]. split; [exact HAdd|].
  split; [exact Hent|exact HGet].
Defined.

Lemma model_A :
  lru.model [lru.OpAdd A 1; lru.OpAdd A 5; lru.OpAdd B 2] (∅ : gmap gokey nat) !! A = Some 5.
Proof. vm_compute. reflexivity. Qed.

Lemma Get_returns_last_added_witness :
  ∃ c c', runRec [lru.OpAdd A 1; lru.OpAdd A 5; lru.OpAdd B 2] 0 = Some c ∧
          Get gokey_reflexive 0 A c = Some (5, true, c').
Proof.
  destruct (Get_returns_last_added gokey_reflexive 0 range_default true [] 0
              (Some recorder) [lru.OpAdd A 1; lru.OpAdd A 5; lru.OpAdd B 2] A)
    as (c & r & c' & Hrun & HGet & _ & Hr); [adds_are_reflexive|].
  exists c, c'. split; [exact Hrun|]. rewrite HGet. f_equal. f_equal.
  rewrite Hr; [rewrite model_A; reflexivity|reflexivity|].
  intros Hin. repeat (apply elem_of_cons in Hin as [Hin|Hin]; [discriminate Hin|]).
  exact (proj1 (elem_of_nil _) Hin).
Defined.

End lru_any_key.

(* ===================================================================== *)
(** * Package singleflight *)
(* ===================================================================== *)

(** Calls of [Do] by several goroutines, as an interleaving of steps. Each
    goroutine makes one call; a step is one statement of [Do], except that
    the statements a goroutine runs between [g.mu.Lock()] and
    [g.mu.Unlock()] are one step: [g.m] is only touched with the mutex
    held. The two writes and later reads of [c.val] and [c.err] are ordered
    by the WaitGroup, so the program has no data race and interleaving is
    its semantics. *)

Module singleflight.

Section group.

(** [Value] is the [interface{}] result and [Err] the [error] result of the
    operation, [nilv] and [nile] their nil values; [W] is the state of the
    program the operation acts on. *)
Context {Value Err W : Type}.
Variable nilv : Value.
Variable nile : Err.

(** The operation [fn func() (interface{}, error)]: from the state it
    finds, its two results and the state it leaves. *)
Definition Fn := W → Value * Err * W.

(** type call struct: [wg] is the counter of the WaitGroup. *)
Record call := mkCall { wg : nat; val : Value; err : Err }.

(** Where a goroutine is in [Do(key, fn)]; [c] is the address of its
    [*call]. *)
Inductive pc :=
  | NotCalled                (* has not called Do *)
  | AtLock                   (* g.mu.Lock() *)
  | AtLookup                 (* if g.m == nil {...}; c, ok := g.m[key];
                                on a miss: c := new(call); c.wg.Add(1); g.m[key] = c *)
  | WaiterUnlock (c : nat)   (* g.mu.Unlock() *)
  | WaiterWait (c : nat)     (* c.wg.Wait() *)
  | WaiterReturn (c : nat)   (* return c.val, c.err *)
  | ExecUnlock (c : nat)     (* g.mu.Unlock() *)
  | ExecCall (c : nat)       (* c.val, c.err = fn() *)
  | ExecDone (c : nat)       (* c.wg.Done() *)
  | ExecLock (c : nat)       (* g.mu.Lock() *)
  | ExecDelete (c : nat)     (* delete(g.m, key) *)
  | ExecUnlock2 (c : nat)    (* g.mu.Unlock() *)
  | ExecReturn (c : nat)     (* return c.val, c.err *)
  | Returned (v : Value) (e : Err).

(** A goroutine: the arguments of its call and where it is. *)
Record thread := Thread { t_key : string; t_fn : Fn; t_pc : pc }.

(** What an observer of a run sees, by goroutine [t] and call record [c]. *)
Inductive event :=
  | EvBegin (t : nat)                               (* Do is called *)
  | EvAttach (t c : nat)                            (* the key is in flight: wait for c *)
  | EvRegister (t c : nat)                          (* the key is free: c is registered *)
  | EvInvoke (t c : nat) (v : Value) (e : Err)      (* fn was called and returned *)
  | EvUnregister (t c : nat)                        (* the key is deleted *)
  | EvEnd (t c : nat) (v : Value) (e : Err).        (* Do returns *)

(** The [Group] ([mu], by the goroutine that holds it, and [m], nil or a
    map), the [call] objects by address, the goroutines, the state the
    operations act on, and the events so far. *)
Record State := mkState {
  mu : option nat;
  m : option (gmap string nat);
  calls : gmap nat call;
  threads : list thread;
  world : W;
  log : list event
}.

Definition set_pc (t : nat) (p : pc) (ts : list thread) : list thread :=
  match ts !! t with
  | Some th => <[t := Thread (t_key th) (t_fn th) p]> ts
  | None => ts
  end.

(** One step of goroutine [t]; [None] when [t] is not a goroutine, has
    returned, or is blocked (on the mutex or on the WaitGroup), and on a
    fault. *)
Definition step (t : nat) (s : State) : option State :=
  th ← threads s !! t;
  let goto p := set_pc t p (threads s) in
  match t_pc th with
  | NotCalled =>
      Some (mkState (mu s) (m s) (calls s) (goto AtLock) (world s)
              (log s ++ [EvBegin t]))
  | AtLock =>
      match mu s with
      | None => Some (mkState (Some t) (m s) (calls s) (goto AtLookup) (world s) (log s))
      | Some _ => None
      end
  | AtLookup =>
      let m0 := default ∅ (m s) in
      match m0 !! t_key th with
      | Some c =>
          Some (mkState (mu s) (Some m0) (calls s) (goto (WaiterUnlock c)) (world s)
                  (log s ++ [EvAttach t c]))
      | None =>
          let c := fresh (dom (calls s)) in
          Some (mkState (mu s) (Some (<[t_key th := c]> m0))
                  (<[c := mkCall 1 nilv nile]> (calls s))
                  (goto (ExecUnlock c)) (world s)
                  (log s ++ [EvRegister t c]))
      end
  | WaiterUnlock c =>
      Some (mkState None (m s) (calls s) (goto (WaiterWait c)) (world s) (log s))
  | WaiterWait c =>
      cl ← calls s !! c;
      if bool_decide (wg cl = 0) then
        Some (mkState (mu s) (m s) (calls s) (goto (WaiterReturn c)) (world s) (log s))
      else None
  | WaiterReturn c =>
      cl ← calls s !! c;
      Some (mkState (mu s) (m s) (calls s) (goto (Returned (val cl) (err cl))) (world s)
              (log s ++ [EvEnd t c (val cl) (err cl)]))
  | ExecUnlock c =>
      Some (mkState None (m s) (calls s) (goto (ExecCall c)) (world s) (log s))
  | ExecCall c =>
      cl ← calls s !! c;
      let '(v, e, w) := t_fn th (world s) in
      Some (mkState (mu s) (m s) (<[c := mkCall (wg cl) v e]> (calls s))
              (goto (ExecDone c)) w
              (log s ++ [EvInvoke t c v e]))
  | ExecDone c =>
      cl ← calls s !! c;
      match wg cl with
      | O => None
      | S n =>
          Some (mkState (mu s) (m s) (<[c := mkCall n (val cl) (err cl)]> (calls s))
                  (goto (ExecLock c)) (world s) (log s))
      end
  | ExecLock c =>
      match mu s with
      | None => Some (mkState (Some t) (m s) (calls s) (goto (ExecDelete c)) (world s) (log s))
      | Some _ => None
      end
  | ExecDelete c =>
      Some (mkState (mu s) (delete (t_key th) <$> m s) (calls s)
              (goto (ExecUnlock2 c)) (world s)
              (log s ++ [EvUnregister t c]))
  | ExecUnlock2 c =>
      Some (mkState None (m s) (calls s) (goto (ExecReturn c)) (world s) (log s))
  | ExecReturn c =>
      cl ← calls s !! c;
      Some (mkState (mu s) (m s) (calls s) (goto (Returned (val cl) (err cl))) (world s)
              (log s ++ [EvEnd t c (val cl) (err cl)]))
  | Returned _ _ => None
  end.

(** A schedule names the goroutine of each step. *)
Fixpoint run (sched : list nat) (s : State) : option State :=
  match sched with
  | [] => Some s
  | t :: sched' => s' ← step t s; run sched' s'
  end.

(** The zero [Group] with goroutines about to call [Do] with the given
    arguments. *)
Definition init (args : list (string * Fn)) (w : W) : State :=
  mkState None None ∅ ((λ a, Thread a.1 a.2 NotCalled) <$> args) w [].

Definition reachable (args : list (string * Fn)) (w : W) (s : State) : Prop :=
  ∃ sched, run sched (init args w) = Some s.

(** The ten steps of a call that finds its key free. *)
Definition solo (t : nat) : list nat := replicate 10 t.

(** ** The invariant of the reachable states *)

(** The call registered under a key, if any. *)
Definition registry (s : State) (k : string) : option nat :=
  m s ≫= λ mm, mm !! k.

(** A goroutine whose call record is registered under its key: from the
    registration to the deletion. *)
Definition in_window (p : pc) (c : nat) : Prop :=
  p = ExecUnlock c ∨ p = ExecCall c ∨ p = ExecDone c ∨ p = ExecLock c ∨ p = ExecDelete c.

Definition is_invoke_of (c : nat) (ev : event) : Prop :=
  match ev with EvInvoke _ c' _ _ => c' = c | _ => False end.

(** The goroutine of an event. *)
Definition event_thread (ev : event) : nat :=
  match ev with
  | EvBegin t | EvAttach t _ | EvRegister t _ | EvInvoke t _ _ _
  | EvUnregister t _ | EvEnd t _ _ _ => t
  end.

Definition is_invoke (ev : event) : Prop :=
  match ev with EvInvoke _ _ _ _ => True | _ => False end.

Global Instance is_invoke_of_dec c ev : Decision (is_invoke_of c ev).
Proof. destruct ev; simpl; apply _. Defined.

Global Instance is_invoke_dec ev : Decision (is_invoke ev).
Proof. destruct ev; simpl; apply _. Defined.

(** What holds of a goroutine at each place of [Do]. *)
Definition thread_inv (s : State) (t : nat) (th : thread) : Prop :=
  match t_pc th with
  | NotCalled =>
      ∀ ev, ev ∈ log s → event_thread ev ≠ t
  | AtLock | AtLookup =>
      ∀ c, (EvAttach t c ∉ log s) ∧ (EvRegister t c ∉ log s)
  | WaiterUnlock c | WaiterWait c =>
      EvAttach t c ∈ log s ∧ is_Some (calls s !! c)
  | WaiterReturn c =>
      EvAttach t c ∈ log s ∧ ∃ cl, calls s !! c = Some cl ∧ wg cl = 0
  | ExecUnlock c | ExecCall c =>
      EvRegister t c ∈ log s ∧ registry s (t_key th) = Some c ∧
      (∃ cl, calls s !! c = Some cl ∧ wg cl = 1) ∧
      (∀ u v e, EvInvoke u c v e ∉ log s)
  | ExecDone c =>
      EvRegister t c ∈ log s ∧ registry s (t_key th) = Some c ∧
      ∃ cl, calls s !! c = Some cl ∧ wg cl = 1 ∧
            EvInvoke t c (val cl) (err cl) ∈ log s
  | ExecLock c | ExecDelete c =>
      EvRegister t c ∈ log s ∧ registry s (t_key th) = Some c ∧
      ∃ cl, calls s !! c = Some cl ∧ wg cl = 0
  | ExecUnlock2 c | ExecReturn c =>
      EvRegister t c ∈ log s ∧ EvUnregister t c ∈ log s ∧
      ∃ cl, calls s !! c = Some cl ∧ wg cl = 0
  | Returned _ _ => True
  end.

Record inv (args : list (string * Fn)) (s : State) : Prop := {
  inv_args : (λ th, (t_key th, t_fn th)) <$> threads s = args;
  inv_threads : ∀ t th, threads s !! t = Some th → thread_inv s t th;
  inv_registry : ∀ k c, registry s k = Some c → ∃ u, EvRegister u c ∈ log s;
  inv_registry_inj : ∀ k k' c, registry s k = Some c → registry s k' = Some c → k = k';
  inv_reg_alloc : ∀ t c, EvRegister t c ∈ log s →
      is_Some (calls s !! c) ∧ is_Some (args !! t);
  inv_reg_fun : ∀ t u c, EvRegister t c ∈ log s → EvRegister u c ∈ log s → t = u;
  inv_reg_once : ∀ t c c', EvRegister t c ∈ log s → EvRegister t c' ∈ log s → c = c';
  inv_attach_once : ∀ t c c', EvAttach t c ∈ log s → EvAttach t c' ∈ log s → c = c';
  inv_role : ∀ t c c', EvAttach t c ∈ log s → EvRegister t c' ∈ log s → False;
  inv_attach_reg : ∀ t c, EvAttach t c ∈ log s → ∃ u, EvRegister u c ∈ log s;
  inv_invoke : ∀ t c v e, EvInvoke t c v e ∈ log s →
      EvRegister t c ∈ log s ∧
      (∃ cl, calls s !! c = Some cl ∧ val cl = v ∧ err cl = e) ∧
      (∃ a w0 w1, args !! t = Some a ∧ a.2 w0 = (v, e, w1));
  inv_invoke_once : ∀ c, length (filter (is_invoke_of c) (log s)) ≤ 1;
  inv_done : ∀ c cl, calls s !! c = Some cl → wg cl = 0 →
      ∃ t, EvInvoke t c (val cl) (err cl) ∈ log s;
  inv_end : ∀ t c v e, EvEnd t c v e ∈ log s →
      (∃ u, EvInvoke u c v e ∈ log s) ∧
      (EvAttach t c ∈ log s ∨ (EvRegister t c ∈ log s ∧ EvUnregister t c ∈ log s));
  inv_unreg : ∀ t c, EvUnregister t c ∈ log s →
      EvRegister t c ∈ log s ∧ ∀ k, registry s k ≠ Some c;
  inv_order : ∀ l1 l2 t u c, log s = l1 ++ EvUnregister t c :: l2 → EvAttach u c ∉ l2;
  inv_live : (∀ t c, EvUnregister t c ∉ log s) →
      ∀ u c a, EvRegister u c ∈ log s → args !! u = Some a → registry s a.1 = Some c;
  inv_single : ∀ l1 l2, log s = l1 ++ l2 → (∀ t c, EvUnregister t c ∉ l1) →
      ∀ t u c c' a b, EvRegister t c ∈ l1 → EvRegister u c' ∈ l1 →
                      args !! t = Some a → args !! u = Some b → a.1 = b.1 → c = c';
  inv_begin : ∀ l1 l2 u, log s = l1 ++ EvBegin u :: l2 →
      ∀ ev, ev ∈ l1 → event_thread ev ≠ u;
  inv_end_unreg : ∀ l1 l2 t c v e, log s = l1 ++ EvEnd t c v e :: l2 →
      EvRegister t c ∈ log s → EvUnregister t c ∈ l1
}.

End group.

Global Arguments call : clear implicits.
Global Arguments pc : clear implicits.
Global Arguments thread : clear implicits.
Global Arguments event : clear implicits.
Global Arguments State : clear implicits.

(** ** The invariant holds of every reachable state *)

Section invariant.

Context {Value Err W : Type}.
Variable nilv : Value.
Variable nile : Err.
Variable args : list (string * @Fn Value Err W).
Implicit Types (s : State Value Err W) (th : thread Value Err W).
Implicit Types (ev : event Value Err) (p : pc Value Err).

Lemma lookup_set_pc_eq t p (ts : list (thread Value Err W)) th :
  ts !! t = Some th → set_pc t p ts !! t = Some (Thread (t_key th) (t_fn th) p).
Proof.
  intros Hth. unfold set_pc. rewrite Hth. apply list_lookup_insert_eq.
  by eapply lookup_lt_Some.
Qed.

Lemma lookup_set_pc_ne t u p (ts : list (thread Value Err W)) :
  t ≠ u → set_pc t p ts !! u = ts !! u.
Proof.
  intros Hne. unfold set_pc. destruct (ts !! t); [|done].
  by apply list_lookup_insert_ne.
Qed.

Lemma fmap_set_pc t p (ts : list (thread Value Err W)) :
  (λ th, (t_key th, t_fn th)) <$> set_pc t p ts = (λ th, (t_key th, t_fn th)) <$> ts.
Proof.
  unfold set_pc. destruct (ts !! t) as [th|] eqn:Hth; [|done].
  rewrite list_fmap_insert. simpl. apply list_insert_id.
  by rewrite list_lookup_fmap, Hth.
Qed.

Lemma elem_of_snoc (l : list (event Value Err)) ev ev' :
  ev' ∈ l ++ [ev] ↔ ev' ∈ l ∨ ev' = ev.
Proof. by rewrite elem_of_app, list_elem_of_singleton. Qed.

Lemma registry_hit s mu' (cs : gmap nat (call Value Err)) (ts : list (thread Value Err W))
    (w : W) (lg : list (event Value Err)) k :
  registry (mkState mu' (Some (default ∅ (m s))) cs ts w lg) k = registry s k.
Proof. unfold registry. simpl. by destruct (m s). Qed.

Lemma registry_insert s mu' (cs : gmap nat (call Value Err)) (ts : list (thread Value Err W))
    (w : W) (lg : list (event Value Err)) k c k' :
  registry (mkState mu' (Some (<[k := c]> (default ∅ (m s)))) cs ts w lg) k'
  = if decide (k = k') then Some c else registry s k'.
Proof.
  unfold registry. simpl. rewrite lookup_insert. destruct (decide (k = k')); [done|].
  by destruct (m s).
Qed.

Lemma registry_delete s mu' (cs : gmap nat (call Value Err)) (ts : list (thread Value Err W))
    (w : W) (lg : list (event Value Err)) k k' :
  registry (mkState mu' (delete k <$> m s) cs ts w lg) k'
  = if decide (k = k') then None else registry s k'.
Proof.
  unfold registry. simpl. destruct (m s) as [mm|]; simpl.
  - rewrite lookup_delete. by destruct (decide (k = k')).
  - by destruct (decide (k = k')).
Qed.

Lemma registry_same s mu' (cs : gmap nat (call Value Err)) (ts : list (thread Value Err W))
    (w : W) (lg : list (event Value Err)) k :
  registry (mkState mu' (m s) cs ts w lg) k = registry s k.
Proof. done. Qed.

Local Arguments registry : simpl never.

Lemma inv_init w : inv args (init args w).
Proof.
  split; simpl;
    try (intros; match goal with H : _ ∈ [] |- _ => by apply elem_of_nil in H end).
  - rewrite <- list_fmap_compose. clear.
    induction args as [|[k f] l IH]; [done|]. csimpl. by f_equal.
  - intros t th [a [-> Ha]]%list_lookup_fmap_Some. unfold thread_inv. simpl.
    intros ev Hev. by apply elem_of_nil in Hev.
  - intros k c Hk. done.
  - intros k k' c Hk. done.
  - intros c. lia.
  - intros c cl Hc. by rewrite lookup_empty in Hc.
  - intros l1 l2 t u c Hl. by destruct l1.
  - intros l1 l2 Hl. symmetry in Hl. apply app_eq_nil in Hl as [-> ->].
    intros _ t u c c' a b Hin. by apply elem_of_nil in Hin.
  - intros l1 l2 u Hl. by destruct l1.
Qed.

(** A step that only moves the goroutine on, as [Lock], [Unlock] and
    [Wait] do: the invariant holds after it when it holds of the goroutine
    at its new place. *)
Lemma inv_move s t th p mu' :
  inv args s → threads s !! t = Some th →
  thread_inv s t (Thread (t_key th) (t_fn th) p) →
  inv args (mkState mu' (m s) (calls s) (set_pc t p (threads s)) (world s) (log s)).
Proof.
  intros Hinv Hth Hp. split; try apply Hinv.
  - simpl. rewrite fmap_set_pc. apply Hinv.
  - intros u thu. simpl. destruct (decide (t = u)) as [<-|Hne].
    + rewrite (lookup_set_pc_eq _ _ _ _ Hth). intros [= <-]. exact Hp.
    + rewrite lookup_set_pc_ne by done. apply (inv_threads _ _ Hinv).
Qed.

(** What a step of another goroutine must leave alone for [thread_inv]
    to keep holding of a goroutine [u]. *)
Lemma thread_inv_frame s s' u thu :
  thread_inv s u thu →
  (∀ ev, ev ∈ log s → ev ∈ log s') →
  (t_pc thu = NotCalled → ∀ ev, ev ∈ log s' → ev ∈ log s ∨ event_thread ev ≠ u) →
  (∀ c, EvAttach u c ∈ log s' → EvAttach u c ∈ log s) →
  (∀ c, EvRegister u c ∈ log s' → EvRegister u c ∈ log s) →
  (∀ c, EvRegister u c ∈ log s → registry s (t_key thu) = Some c →
        registry s' (t_key thu) = Some c) →
  (∀ c cl, calls s !! c = Some cl →
           is_Some (calls s' !! c) ∧
           (EvRegister u c ∈ log s ∨ wg cl = 0 → calls s' !! c = Some cl)) →
  (∀ c u' v e, EvRegister u c ∈ log s →
               EvInvoke u' c v e ∈ log s' → EvInvoke u' c v e ∈ log s) →
  thread_inv s' u thu.
Proof.
  intros Hu Hmono Hnew Hatt Hreg Hregistry Hcalls Hinvoke. unfold thread_inv in *.
  destruct (t_pc thu) as [| | |c|c|c|c|c|c|c|c|c|c|v e]; try done.
  - intros ev Hev. destruct (Hnew eq_refl ev Hev) as [Hold|Hne]; [by apply Hu|done].
  - intros c. destruct (Hu c). split; [intros ?%Hatt|intros ?%Hreg]; done.
  - intros c. destruct (Hu c). split; [intros ?%Hatt|intros ?%Hreg]; done.
  - destruct Hu as [Ha [cl Hcl]]. split; [by apply Hmono|]. by apply (Hcalls c cl).
  - destruct Hu as [Ha [cl Hcl]]. split; [by apply Hmono|]. by apply (Hcalls c cl).
  - destruct Hu as (Ha & cl & Hcl & Hwg). split; [by apply Hmono|].
    exists cl. split; [|done]. apply (Hcalls c cl Hcl). by right.
  - destruct Hu as (Hr & Hk & (cl & Hcl & Hwg) & Hni). split_and!; [by apply Hmono|by apply Hregistry| |].
    + exists cl. split; [|done]. apply (Hcalls c cl Hcl). by left.
    + intros u' v e Hin. apply (Hni u' v e). by eapply Hinvoke.
  - destruct Hu as (Hr & Hk & (cl & Hcl & Hwg) & Hni). split_and!; [by apply Hmono|by apply Hregistry| |].
    + exists cl. split; [|done]. apply (Hcalls c cl Hcl). by left.
    + intros u' v e Hin. apply (Hni u' v e). by eapply Hinvoke.
  - destruct Hu as (Hr & Hk & cl & Hcl & Hwg & Hi). split_and!; [by apply Hmono|by apply Hregistry|].
    exists cl. split_and!; [|done|by apply Hmono]. apply (Hcalls c cl Hcl). by left.
  - destruct Hu as (Hr & Hk & cl & Hcl & Hwg). split_and!; [by apply Hmono|by apply Hregistry|].
    exists cl. split; [|done]. apply (Hcalls c cl Hcl). by left.
  - destruct Hu as (Hr & Hk & cl & Hcl & Hwg). split_and!; [by apply Hmono|by apply Hregistry|].
    exists cl. split; [|done]. apply (Hcalls c cl Hcl). by left.
  - destruct Hu as (Hr & Hun & cl & Hcl & Hwg). split_and!; [by apply Hmono|by apply Hmono|].
    exists cl. split; [|done]. apply (Hcalls c cl Hcl). by left.
  - destruct Hu as (Hr & Hun & cl & Hcl & Hwg). split_and!; [by apply Hmono|by apply Hmono|].
    exists cl. split; [|done]. apply (Hcalls c cl Hcl). by left.
Qed.

Lemma snoc_eq_app (l l1 l2 : list (event Value Err)) ev :
  l ++ [ev] = l1 ++ l2 →
  (l2 = [] ∧ l1 = l ++ [ev]) ∨ ∃ l2', l2 = l2' ++ [ev] ∧ l = l1 ++ l2'.
Proof.
  intros Heq. destruct l2 as [|x l2 _] using rev_ind.
  - left. by rewrite app_nil_r in Heq.
  - right. exists l2. rewrite app_assoc in Heq. apply app_inj_tail in Heq as [-> ->]. done.
Qed.

Lemma snoc_eq_middle (l l1 l2 : list (event Value Err)) ev ev' :
  l ++ [ev] = l1 ++ ev' :: l2 →
  (l2 = [] ∧ ev' = ev ∧ l1 = l) ∨ ∃ l2', l2 = l2' ++ [ev] ∧ l = l1 ++ ev' :: l2'.
Proof.
  intros Heq. destruct l2 as [|x l2 _] using rev_ind.
  - left. apply app_inj_tail in Heq as [-> ->]. done.
  - right. exists l2.
    change (l ++ [ev] = l1 ++ (ev' :: l2) ++ [x]) in Heq.
    rewrite app_assoc in Heq. apply app_inj_tail in Heq as [-> ->]. done.
Qed.

Lemma length_filter_snoc (P : event Value Err → Prop) `{∀ x, Decision (P x)} l ev :
  length (filter P (l ++ [ev]))
  = length (filter P l) + (if decide (P ev) then 1 else 0).
Proof.
  rewrite filter_app, length_app, filter_cons, filter_nil.
  by destruct (decide (P ev)).
Qed.

(** In a hypothesis, an event of the log extended by one is an event of
    the log, or the new one. *)
Ltac old_event H :=
  apply elem_of_snoc in H as [H|H]; [|try discriminate H].

Ltac old_events :=
  repeat match goal with
         | H : _ ∈ _ ++ [_] |- _ => old_event H
         end.

Ltac in_old_log := apply elem_of_snoc; by left.

(** A step that moves the goroutine on and tells the observer that [Do] is
    called, or that it returns what a finished call holds. *)
Definition quiet (s : State Value Err W) (t : nat) ev : Prop :=
  match ev with
  | EvBegin t' => t' = t ∧ ∀ ev', ev' ∈ log s → event_thread ev' ≠ t
  | EvEnd t' c v e =>
      t' = t ∧ (∃ u, EvInvoke u c v e ∈ log s) ∧
      (EvAttach t c ∈ log s ∨ (EvRegister t c ∈ log s ∧ EvUnregister t c ∈ log s))
  | _ => False
  end.

Lemma quiet_thread s t ev : quiet s t ev → event_thread ev = t.
Proof. destruct ev; simpl; try done; by intros [-> _]. Qed.

Lemma inv_quiet s t th p ev :
  inv args s → threads s !! t = Some th → quiet s t ev → p ≠ NotCalled →
  thread_inv s t (Thread (t_key th) (t_fn th) p) →
  inv args (mkState (mu s) (m s) (calls s) (set_pc t p (threads s)) (world s)
              (log s ++ [ev])).
Proof.
  intros Hinv Hth Hev Hpc Hp.
  assert (Hframe : ∀ u thu, (u = t → t_pc thu ≠ NotCalled) → thread_inv s u thu →
            thread_inv (mkState (mu s) (m s) (calls s) (set_pc t p (threads s)) (world s)
                          (log s ++ [ev])) u thu).
  { intros u thu Hut Hu. apply (thread_inv_frame s); simpl; try done.
    - intros ev' Hev'. in_old_log.
    - intros Hnc ev' Hev'. apply elem_of_snoc in Hev' as [?| ->]; [by left|right].
      rewrite (quiet_thread _ _ _ Hev). intros ->. by apply Hut.
    - intros c Hin. old_event Hin; [done|subst ev; by destruct Hev].
    - intros c Hin. old_event Hin; [done|subst ev; by destruct Hev].
    - intros c u' v e _ Hin. old_event Hin; [done|subst ev; by destruct Hev]. }
  split; simpl.
  - rewrite fmap_set_pc. apply Hinv.
  - intros u thu. destruct (decide (t = u)) as [<-|Hne].
    + rewrite (lookup_set_pc_eq _ _ _ _ Hth). intros [= <-]. by apply Hframe.
    + rewrite lookup_set_pc_ne by done. intros Hu.
      apply Hframe; [congruence|]. by apply (inv_threads _ _ Hinv).
  - intros k c Hk. destruct (inv_registry _ _ Hinv k c Hk) as [u Hu].
    exists u. in_old_log.
  - apply Hinv.
  - intros u c Hin. old_event Hin; [by eapply inv_reg_alloc|subst ev; by destruct Hev].
  - intros u u' c H1 H2. old_event H1; [|subst ev; by destruct Hev]. old_event H2; [|subst ev; by destruct Hev].
    by eapply inv_reg_fun.
  - intros u c c' H1 H2. old_event H1; [|subst ev; by destruct Hev]. old_event H2; [|subst ev; by destruct Hev].
    by eapply inv_reg_once.
  - intros u c c' H1 H2. old_event H1; [|subst ev; by destruct Hev]. old_event H2; [|subst ev; by destruct Hev].
    by eapply inv_attach_once.
  - intros u c c' H1 H2. old_event H1; [|subst ev; by destruct Hev]. old_event H2; [|subst ev; by destruct Hev].
    by eapply inv_role.
  - intros u c H1. old_event H1; [|subst ev; by destruct Hev].
    destruct (inv_attach_reg _ _ Hinv u c H1) as [u' Hu']. exists u'. in_old_log.
  - intros u c v e H1. old_event H1; [|subst ev; by destruct Hev].
    destruct (inv_invoke _ _ Hinv u c v e H1) as (Hr & Hc & Ha).
    split_and!; [in_old_log|done|done].
  - intros c. rewrite length_filter_snoc.
    pose proof (inv_invoke_once _ _ Hinv c).
    destruct (decide (is_invoke_of c ev)) as [Hi|_]; [by destruct ev|lia].
  - intros c cl Hc Hwg. destruct (inv_done _ _ Hinv c cl Hc Hwg) as [u Hu].
    exists u. in_old_log.
  - intros u c v e H1.
    assert (Hold : (∃ u', EvInvoke u' c v e ∈ log s) ∧
                   (EvAttach u c ∈ log s ∨ (EvRegister u c ∈ log s ∧ EvUnregister u c ∈ log s))).
    { old_event H1; [by apply (inv_end _ _ Hinv)|]. subst ev. simpl in Hev.
      by destruct Hev as (-> & ? & ?). }
    destruct Hold as ([u' Hu'] & Hor). split; [exists u'; in_old_log|].
    destruct Hor as [?|[? ?]]; [left|right; split]; in_old_log.
  - intros u c H1. old_event H1; [|subst ev; by destruct Hev].
    destruct (inv_unreg _ _ Hinv u c H1) as [Hr Hk]. split; [in_old_log|done].
  - intros l1 l2 u u' c [(_ & Heq & _)|(l2' & -> & Hl)]%snoc_eq_middle; [subst ev; by destruct Hev|].
    intros Hin. old_event Hin; [|subst ev; by destruct Hev].
    exact (inv_order _ _ Hinv l1 l2' u u' c Hl Hin).
  - intros Hno u c a H1 Ha. old_event H1; [|subst ev; by destruct Hev].
    eapply (inv_live _ _ Hinv); [|exact H1|exact Ha].
    intros u' c' Hin. apply (Hno u' c'). in_old_log.
  - intros l1 l2 [[-> ->]|(l2' & -> & Hl)]%snoc_eq_app Hno u u' c c' a b H1 H2.
    + old_event H1; [|subst ev; by destruct Hev]. old_event H2; [|subst ev; by destruct Hev].
      eapply (inv_single _ _ Hinv (log s) []); [by rewrite app_nil_r| |exact H1|exact H2].
      intros u'' c'' Hin. apply (Hno u'' c''). in_old_log.
    + by eapply (inv_single _ _ Hinv l1 l2').
  - intros l1 l2 u [(_ & <- & ->)|(l2' & -> & Hl)]%snoc_eq_middle.
    + simpl in Hev. destruct Hev as [-> Hev]. exact Hev.
    + by apply (inv_begin _ _ Hinv l1 l2' u).
  - intros l1 l2 u c v e [(_ & <- & ->)|(l2' & -> & Hl)]%snoc_eq_middle Hr.
    + simpl in Hev. destruct Hev as (-> & _ & Hrole). old_event Hr.
      destruct Hrole as [Ha|[_ Hun]]; [|done]. by destruct (inv_role _ _ Hinv t c c Ha Hr).
    + old_event Hr; [|subst ev; by destruct Hev].
      by apply (inv_end_unreg _ _ Hinv l1 l2' u c v e).
Qed.

(** When a log holds no call of the operation for a record, the count of
    such calls is zero. *)
Lemma no_invoke_count (l : list (event Value Err)) c :
  (∀ u v e, EvInvoke u c v e ∉ l) → length (filter (is_invoke_of c) l) = 0.
Proof.
  intros Hno. induction l as [|ev l IH]; [done|]. rewrite filter_cons.
  destruct (decide (is_invoke_of c ev)) as [Hi|_].
  - destruct ev as [| | |u c' v e| |]; try done. simpl in Hi. subst c'.
    exfalso. apply (Hno u v e). left.
  - apply IH. intros u v e Hin. apply (Hno u v e). by right.
Qed.

(** [c.wg.Done()] *)
Lemma inv_wg_done s t th c cl :
  inv args s → threads s !! t = Some th → t_pc th = ExecDone c →
  calls s !! c = Some cl →
  inv args (mkState (mu s) (m s) (<[c := mkCall (pred (wg cl)) (val cl) (err cl)]> (calls s))
              (set_pc t (ExecLock c) (threads s)) (world s) (log s)).
Proof.
  intros Hinv Hth Hpc Hcl.
  pose proof (inv_threads _ _ Hinv t th Hth) as Ht. unfold thread_inv in Ht.
  rewrite Hpc in Ht. destruct Ht as (Hreg & Hk & cl' & Hcl' & Hwg & Hinvk).
  rewrite Hcl in Hcl'. injection Hcl' as <-.
  split; simpl; try apply Hinv.
  - rewrite fmap_set_pc. apply Hinv.
  - intros u thu. destruct (decide (t = u)) as [<-|Hne].
    + rewrite (lookup_set_pc_eq _ _ _ _ Hth). intros [= <-]. unfold thread_inv. simpl.
      split_and!; [done|done|]. eexists. rewrite lookup_insert_eq. split; [done|].
      simpl. by rewrite Hwg.
    + rewrite lookup_set_pc_ne by done. intros Hu.
      apply (thread_inv_frame s); simpl; try done.
      * by apply (inv_threads _ _ Hinv).
      * intros _ ev Hev. by left.
      * intros c' cl' Hc'. destruct (decide (c = c')) as [<-|Hc].
        -- rewrite lookup_insert_eq. split; [done|]. rewrite Hcl in Hc'. injection Hc' as <-.
           intros [Hru|Hw0]; [|lia]. destruct Hne. by eapply inv_reg_fun.
        -- rewrite lookup_insert_ne by done. rewrite Hc'. split; [done|done].
  - intros u c' Hin. destruct (inv_reg_alloc _ _ Hinv u c' Hin) as [Hal Hth']. split; [|done].
    destruct (decide (c = c')) as [<-|Hc].
    + by rewrite lookup_insert_eq.
    + by rewrite lookup_insert_ne.
  - intros u c' v e Hin. destruct (inv_invoke _ _ Hinv u c' v e Hin) as (Hr & (cl' & Hc' & Hv & He) & Ha).
    split_and!; [done| |done]. destruct (decide (c = c')) as [<-|Hc].
    + rewrite lookup_insert_eq. rewrite Hcl in Hc'. injection Hc' as <-. eauto.
    + rewrite lookup_insert_ne by done. eauto.
  - intros c' cl' Hc' Hw. destruct (decide (c = c')) as [<-|Hc].
    + rewrite lookup_insert_eq in Hc'. injection Hc' as <-. simpl. eauto.
    + rewrite lookup_insert_ne in Hc' by done. by eapply inv_done.
Qed.

(** [c.val, c.err = fn()] *)
Lemma inv_call s t th c cl v e w :
  inv args s → threads s !! t = Some th → t_pc th = ExecCall c →
  calls s !! c = Some cl → t_fn th (world s) = (v, e, w) →
  inv args (mkState (mu s) (m s) (<[c := mkCall (wg cl) v e]> (calls s))
              (set_pc t (ExecDone c) (threads s)) w (log s ++ [EvInvoke t c v e])).
Proof.
  intros Hinv Hth Hpc Hcl Hfn.
  pose proof (inv_threads _ _ Hinv t th Hth) as Ht. unfold thread_inv in Ht.
  rewrite Hpc in Ht. destruct Ht as (Hreg & Hk & (cl' & Hcl' & Hwg) & Hnone).
  rewrite Hcl in Hcl'. injection Hcl' as <-.
  assert (Hother : ∀ u c', EvRegister u c' ∈ log s → u ≠ t → c' ≠ c).
  { intros u c' Hu Hne ->. apply Hne. by eapply inv_reg_fun. }
  split; simpl.
  - rewrite fmap_set_pc. apply Hinv.
  - intros u thu. destruct (decide (t = u)) as [<-|Hne].
    + rewrite (lookup_set_pc_eq _ _ _ _ Hth). intros [= <-]. unfold thread_inv. simpl.
      split_and!; [in_old_log|done|]. eexists. rewrite lookup_insert_eq.
      split_and!; [done|done|]. simpl. apply elem_of_snoc. by right.
    + rewrite lookup_set_pc_ne by done. intros Hu.
      apply (thread_inv_frame s); simpl; try done.
      * by apply (inv_threads _ _ Hinv).
      * intros ev Hev. in_old_log.
      * intros _ ev Hev. apply elem_of_snoc in Hev as [?| ->]; [by left|by right].
      * intros c' Hin. by old_event Hin.
      * intros c' Hin. by old_event Hin.
      * intros c' cl' Hc'. destruct (decide (c = c')) as [<-|Hc].
        -- rewrite lookup_insert_eq. split; [done|]. rewrite Hcl in Hc'. injection Hc' as <-.
           intros [Hru|Hw0]; [|lia]. destruct Hne. by eapply inv_reg_fun.
        -- rewrite lookup_insert_ne by done. rewrite Hc'. split; [done|done].
      * intros c' u' v' e' Hru Hin. apply elem_of_snoc in Hin as [Hin|Hin]; [done|].
        injection Hin as -> -> -> ->. destruct Hne. by eapply inv_reg_fun.
  - intros k c' Hk'. destruct (inv_registry _ _ Hinv k c' Hk') as [u Hu].
    exists u. in_old_log.
  - apply Hinv.
  - intros u c' Hin. old_event Hin.
    destruct (inv_reg_alloc _ _ Hinv u c' Hin) as [Hal Hth']. split; [|done].
    destruct (decide (c = c')) as [<-|Hc].
    + by rewrite lookup_insert_eq.
    + by rewrite lookup_insert_ne.
  - intros u u' c' H1 H2. old_events. by eapply inv_reg_fun.
  - intros u c1 c2 H1 H2. old_events. by eapply inv_reg_once.
  - intros u c1 c2 H1 H2. old_events. by eapply inv_attach_once.
  - intros u c1 c2 H1 H2. old_events. by eapply inv_role.
  - intros u c' H1. old_events. destruct (inv_attach_reg _ _ Hinv u c' H1) as [u' Hu'].
    exists u'. in_old_log.
  - intros u c' v' e' Hin. apply elem_of_snoc in Hin as [Hin|Hin].
    + destruct (inv_invoke _ _ Hinv u c' v' e' Hin) as (Hr & (cl' & Hc' & Hv & He) & Ha).
      split_and!; [in_old_log| |done].
      assert (c ≠ c') by (intros <-; by apply (Hnone u v' e')).
      rewrite lookup_insert_ne by done. eauto.
    + injection Hin as -> -> -> ->. split_and!; [in_old_log| |].
      * rewrite lookup_insert_eq. eauto.
      * exists (t_key th, t_fn th), (world s), w. split; [|done].
        rewrite <- (inv_args _ _ Hinv), list_lookup_fmap, Hth. done.
  - intros c'. rewrite length_filter_snoc.
    destruct (decide (is_invoke_of c' (EvInvoke t c v e))) as [Hi|_].
    + simpl in Hi. subst c'. rewrite no_invoke_count by done. lia.
    + pose proof (inv_invoke_once _ _ Hinv c'). lia.
  - intros c' cl' Hc' Hw. destruct (decide (c = c')) as [<-|Hc].
    + rewrite lookup_insert_eq in Hc'. injection Hc' as <-. simpl in Hw. lia.
    + rewrite lookup_insert_ne in Hc' by done.
      destruct (inv_done _ _ Hinv c' cl' Hc' Hw) as [u Hu]. exists u. in_old_log.
  - intros u c' v' e' H1. old_events.
    destruct (inv_end _ _ Hinv u c' v' e' H1) as ([u' Hu'] & Hor).
    split; [exists u'; in_old_log|].
    destruct Hor as [?|[? ?]]; [left|right; split]; in_old_log.
  - intros u c' H1. old_events.
    destruct (inv_unreg _ _ Hinv u c' H1) as [Hr Hk']. split; [in_old_log|done].
  - intros l1 l2 u u' c' [(_ & Heq & _)|(l2' & -> & Hl)]%snoc_eq_middle; [done|].
    intros Hin. old_event Hin. exact (inv_order _ _ Hinv l1 l2' u u' c' Hl Hin).
  - intros Hno u c' a H1 Ha. old_events.
    eapply (inv_live _ _ Hinv); [|exact H1|exact Ha].
    intros u' c'' Hin. apply (Hno u' c''). in_old_log.
  - intros l1 l2 [[-> ->]|(l2' & -> & Hl)]%snoc_eq_app Hno u u' c1 c2 a b H1 H2.
    + old_events.
      eapply (inv_single _ _ Hinv (log s) []); [by rewrite app_nil_r| |exact H1|exact H2].
      intros u'' c'' Hin. apply (Hno u'' c''). in_old_log.
    + by eapply (inv_single _ _ Hinv l1 l2').
  - intros l1 l2 u [(_ & Heq & _)|(l2' & -> & Hl)]%snoc_eq_middle; [done|].
    by apply (inv_begin _ _ Hinv l1 l2' u).
  - intros l1 l2 u c' v' e' [(_ & Heq & _)|(l2' & -> & Hl)]%snoc_eq_middle; [done|].
    intros Hr. old_event Hr. by apply (inv_end_unreg _ _ Hinv l1 l2' u c' v' e').
Qed.

(** The lookup finds the key in flight. *)
Lemma inv_hit s t th c :
  inv args s → threads s !! t = Some th → t_pc th = AtLookup →
  registry s (t_key th) = Some c →
  inv args (mkState (mu s) (Some (default ∅ (m s))) (calls s)
              (set_pc t (WaiterUnlock c) (threads s)) (world s)
              (log s ++ [EvAttach t c])).
Proof.
  intros Hinv Hth Hpc Hc.
  pose proof (inv_threads _ _ Hinv t th Hth) as Ht. unfold thread_inv in Ht.
  rewrite Hpc in Ht.
  destruct (inv_registry _ _ Hinv _ _ Hc) as [uc Huc].
  split; simpl; try setoid_rewrite registry_hit.
  - rewrite fmap_set_pc. apply Hinv.
  - intros u thu. destruct (decide (t = u)) as [<-|Hne].
    + rewrite (lookup_set_pc_eq _ _ _ _ Hth). intros [= <-]. unfold thread_inv. simpl.
      split; [apply elem_of_snoc; by right|]. by apply (inv_reg_alloc _ _ Hinv uc c).
    + rewrite lookup_set_pc_ne by done. intros Hu.
      apply (thread_inv_frame s); simpl; try done.
      * by apply (inv_threads _ _ Hinv).
      * intros ev Hev. in_old_log.
      * intros _ ev Hev. apply elem_of_snoc in Hev as [?| ->]; [by left|by right].
      * intros c' Hin. apply elem_of_snoc in Hin as [Hin|Hin]; [done|]. congruence.
      * intros c' Hin. by old_event Hin.
      * intros c' Hr. by rewrite registry_hit.
      * intros c' u' v' e' _ Hin. by old_event Hin.
  - intros k c' Hk'. destruct (inv_registry _ _ Hinv k c' Hk') as [u Hu].
    exists u. in_old_log.
  - apply Hinv.
  - intros u c' Hin. old_event Hin. by eapply inv_reg_alloc.
  - intros u u' c' H1 H2. old_events. by eapply inv_reg_fun.
  - intros u c1 c2 H1 H2. old_events. by eapply inv_reg_once.
  - intros u c1 c2 H1 H2.
    apply elem_of_snoc in H1 as [H1|H1]; apply elem_of_snoc in H2 as [H2|H2].
    + by eapply inv_attach_once.
    + injection H2 as -> ->. by destruct (proj1 (Ht c1)).
    + injection H1 as -> ->. by destruct (proj1 (Ht c2)).
    + congruence.
  - intros u c1 c2 H1 H2. old_event H2.
    apply elem_of_snoc in H1 as [H1|H1]; [by eapply inv_role|].
    injection H1 as -> ->. by destruct (proj2 (Ht c2)).
  - intros u c' H1. apply elem_of_snoc in H1 as [H1|H1].
    + destruct (inv_attach_reg _ _ Hinv u c' H1) as [u' Hu']. exists u'. in_old_log.
    + injection H1 as -> ->. exists uc. in_old_log.
  - intros u c' v e H1. old_events.
    destruct (inv_invoke _ _ Hinv u c' v e H1) as (Hr & Hcl & Ha).
    split_and!; [in_old_log|done|done].
  - intros c'. rewrite length_filter_snoc.
    pose proof (inv_invoke_once _ _ Hinv c').
    destruct (decide (is_invoke_of c' (EvAttach t c))) as [[]|_]. lia.
  - intros c' cl Hcl Hwg. destruct (inv_done _ _ Hinv c' cl Hcl Hwg) as [u Hu].
    exists u. in_old_log.
  - intros u c' v e H1. old_events.
    destruct (inv_end _ _ Hinv u c' v e H1) as ([u' Hu'] & Hor).
    split; [exists u'; in_old_log|].
    destruct Hor as [?|[? ?]]; [left|right; split]; in_old_log.
  - intros u c' H1. old_events.
    destruct (inv_unreg _ _ Hinv u c' H1) as [Hr Hk']. split; [in_old_log|done].
  - intros l1 l2 u u' c' [(_ & Heq & _)|(l2' & -> & Hl)]%snoc_eq_middle; [done|].
    intros Hin. apply elem_of_snoc in Hin as [Hin|Hin].
    + exact (inv_order _ _ Hinv l1 l2' u u' c' Hl Hin).
    + injection Hin as -> ->.
      assert (Hun : EvUnregister u c ∈ log s).
      { rewrite Hl. apply elem_of_app. right. left. }
      by apply (proj2 (inv_unreg _ _ Hinv u c Hun) (t_key th)).
  - intros Hno u c' a H1 Ha. old_events.
    eapply (inv_live _ _ Hinv); [|exact H1|exact Ha].
    intros u' c'' Hin. apply (Hno u' c''). in_old_log.
  - intros l1 l2 [[-> ->]|(l2' & -> & Hl)]%snoc_eq_app Hno u u' c1 c2 a b H1 H2.
    + old_events.
      eapply (inv_single _ _ Hinv (log s) []); [by rewrite app_nil_r| |exact H1|exact H2].
      intros u'' c'' Hin. apply (Hno u'' c''). in_old_log.
    + by eapply (inv_single _ _ Hinv l1 l2').
  - intros l1 l2 u [(_ & Heq & _)|(l2' & -> & Hl)]%snoc_eq_middle; [done|].
    by apply (inv_begin _ _ Hinv l1 l2' u).
  - intros l1 l2 u c' v' e' [(_ & Heq & _)|(l2' & -> & Hl)]%snoc_eq_middle; [done|].
    intros Hr. old_event Hr. by apply (inv_end_unreg _ _ Hinv l1 l2' u c' v' e').
Qed.

(** The lookup finds the key free: a new call is registered. *)
Lemma inv_miss s t th :
  inv args s → threads s !! t = Some th → t_pc th = AtLookup →
  registry s (t_key th) = None →
  inv args (mkState (mu s)
              (Some (<[t_key th := fresh (dom (calls s))]> (default ∅ (m s))))
              (<[fresh (dom (calls s)) := mkCall 1 nilv nile]> (calls s))
              (set_pc t (ExecUnlock (fresh (dom (calls s)))) (threads s)) (world s)
              (log s ++ [EvRegister t (fresh (dom (calls s)))])).
Proof.
  intros Hinv Hth Hpc Hfree.
  pose proof (inv_threads _ _ Hinv t th Hth) as Ht. unfold thread_inv in Ht.
  rewrite Hpc in Ht.
  set (c := fresh (dom (calls s))).
  assert (Hc : calls s !! c = None).
  { apply not_elem_of_dom. apply is_fresh. }
  assert (Hnew : ∀ u, EvRegister u c ∉ log s).
  { intros u Hu. apply (inv_reg_alloc _ _ Hinv) in Hu as [[cl Hcl] _]. congruence. }
  assert (Hkey : args !! t = Some (t_key th, t_fn th)).
  { rewrite <- (inv_args _ _ Hinv), list_lookup_fmap, Hth. done. }
  split; simpl; try setoid_rewrite registry_insert.
  - rewrite fmap_set_pc. apply Hinv.
  - intros u thu. destruct (decide (t = u)) as [<-|Hne].
    + rewrite (lookup_set_pc_eq _ _ _ _ Hth). intros [= <-]. unfold thread_inv. simpl.
      rewrite registry_insert, decide_True by done.
      split_and!; [apply elem_of_snoc; by right|done| |].
      * eexists. by rewrite lookup_insert_eq.
      * intros u v e Hin. old_event Hin.
        apply (Hnew u). by apply (inv_invoke _ _ Hinv u c v e).
    + rewrite lookup_set_pc_ne by done. intros Hu.
      apply (thread_inv_frame s); simpl; try done.
      * by apply (inv_threads _ _ Hinv).
      * intros ev Hev. in_old_log.
      * intros _ ev Hev. apply elem_of_snoc in Hev as [?| ->]; [by left|by right].
      * intros c' Hin. by old_event Hin.
      * intros c' Hin. apply elem_of_snoc in Hin as [Hin|Hin]; [done|]. congruence.
      * intros c' Hr Hk'. rewrite registry_insert.
        destruct (decide (t_key th = t_key thu)) as [Heq|_]; [|done]. congruence.
      * intros c' cl' Hc'. assert (c ≠ c') by congruence.
        rewrite lookup_insert_ne by done. rewrite Hc'. done.
      * intros c' u' v' e' _ Hin. by old_event Hin.
  - intros k c'. destruct (decide (t_key th = k)) as [<-|Hk].
    + intros [= <-]. exists t. apply elem_of_snoc. by right.
    + intros Hk'. destruct (inv_registry _ _ Hinv k c' Hk') as [u Hu]. exists u. in_old_log.
  - intros k k' c'. destruct (decide (t_key th = k)) as [<-|Hk],
      (decide (t_key th = k')) as [<-|Hk']; try done.
    + intros [= <-] Hk2. destruct (inv_registry _ _ Hinv _ _ Hk2) as [u Hu]. by destruct (Hnew u).
    + intros Hk2 [= <-]. destruct (inv_registry _ _ Hinv _ _ Hk2) as [u Hu]. by destruct (Hnew u).
    + apply Hinv.
  - intros u c' Hin. apply elem_of_snoc in Hin as [Hin|Hin].
    + apply (inv_reg_alloc _ _ Hinv) in Hin as [[cl Hcl] Hth']. assert (c ≠ c') by congruence.
      rewrite lookup_insert_ne by done. eauto.
    + injection Hin as -> ->. rewrite lookup_insert_eq, Hkey. eauto.
  - intros u u' c' H1 H2.
    apply elem_of_snoc in H1 as [H1|H1]; apply elem_of_snoc in H2 as [H2|H2].
    + by eapply inv_reg_fun.
    + injection H2 as -> ->. by destruct (Hnew u).
    + injection H1 as -> ->. by destruct (Hnew u').
    + congruence.
  - intros u c1 c2 H1 H2.
    apply elem_of_snoc in H1 as [H1|H1]; apply elem_of_snoc in H2 as [H2|H2].
    + by eapply inv_reg_once.
    + injection H2 as -> ->. by destruct (proj2 (Ht c1)).
    + injection H1 as -> ->. by destruct (proj2 (Ht c2)).
    + congruence.
  - intros u c1 c2 H1 H2. old_events. by eapply inv_attach_once.
  - intros u c1 c2 H1 H2. old_event H1.
    apply elem_of_snoc in H2 as [H2|H2]; [by eapply inv_role|].
    injection H2 as -> ->. by destruct (proj1 (Ht c1)).
  - intros u c' H1. old_events. destruct (inv_attach_reg _ _ Hinv u c' H1) as [u' Hu'].
    exists u'. in_old_log.
  - intros u c' v e H1. old_events.
    destruct (inv_invoke _ _ Hinv u c' v e H1) as (Hr & (cl & Hcl & Hv) & Ha).
    split_and!; [in_old_log| |done]. assert (c ≠ c') by congruence.
    rewrite lookup_insert_ne by done. eauto.
  - intros c'. rewrite length_filter_snoc.
    pose proof (inv_invoke_once _ _ Hinv c').
    destruct (decide (is_invoke_of c' (EvRegister t c))) as [[]|_]. lia.
  - intros c' cl Hcl Hwg. destruct (decide (c = c')) as [<-|Hne].
    + rewrite lookup_insert_eq in Hcl. injection Hcl as <-. done.
    + rewrite lookup_insert_ne in Hcl by done.
      destruct (inv_done _ _ Hinv c' cl Hcl Hwg) as [u Hu]. exists u. in_old_log.
  - intros u c' v e H1. old_events.
    destruct (inv_end _ _ Hinv u c' v e H1) as ([u' Hu'] & Hor).
    split; [exists u'; in_old_log|].
    destruct Hor as [?|[? ?]]; [left|right; split]; in_old_log.
  - intros u c' H1. old_events.
    destruct (inv_unreg _ _ Hinv u c' H1) as [Hr Hk']. split; [in_old_log|].
    intros k. destruct (decide (t_key th = k)) as [<-|Hk]; [|done].
    intros [= <-]. by destruct (Hnew u).
  - intros l1 l2 u u' c' [(_ & Heq & _)|(l2' & -> & Hl)]%snoc_eq_middle; [done|].
    intros Hin. old_event Hin. exact (inv_order _ _ Hinv l1 l2' u u' c' Hl Hin).
  - intros Hno u c' a H1 Ha.
    assert (Hno' : ∀ u' c'', EvUnregister u' c'' ∉ log s).
    { intros u' c'' Hin. apply (Hno u' c''). in_old_log. }
    apply elem_of_snoc in H1 as [H1|H1].
    + pose proof (inv_live _ _ Hinv Hno' u c' a H1 Ha) as Hlive.
      destruct (decide (t_key th = a.1)) as [Heq|_]; [congruence|done].
    + injection H1 as -> ->. rewrite Hkey in Ha. injection Ha as <-. simpl.
      by rewrite decide_True.
  - intros l1 l2 [[-> ->]|(l2' & -> & Hl)]%snoc_eq_app Hno u u' c1 c2 a b H1 H2 Ha Hb Hab.
    + assert (Hno' : ∀ u' c'', EvUnregister u' c'' ∉ log s).
      { intros u'' c'' Hin. apply (Hno u'' c''). in_old_log. }
      apply elem_of_snoc in H1 as [H1|H1]; apply elem_of_snoc in H2 as [H2|H2].
      * eapply (inv_single _ _ Hinv (log s) []); [by rewrite app_nil_r|done|
          exact H1|exact H2|exact Ha|exact Hb|exact Hab].
      * injection H2 as -> ->. rewrite Hkey in Hb. injection Hb as <-. simpl in Hab.
        pose proof (inv_live _ _ Hinv Hno' u c1 a H1 Ha) as Hlive. congruence.
      * injection H1 as -> ->. rewrite Hkey in Ha. injection Ha as <-. simpl in Hab.
        pose proof (inv_live _ _ Hinv Hno' u' c2 b H2 Hb) as Hlive. congruence.
      * congruence.
    + by eapply (inv_single _ _ Hinv l1 l2').
  - intros l1 l2 u [(_ & Heq & _)|(l2' & -> & Hl)]%snoc_eq_middle; [done|].
    by apply (inv_begin _ _ Hinv l1 l2' u).
  - intros l1 l2 u c' v' e' [(_ & Heq & _)|(l2' & -> & Hl)]%snoc_eq_middle; [done|].
    intros Hr. apply elem_of_snoc in Hr as [Hr|Hr].
    + by apply (inv_end_unreg _ _ Hinv l1 l2' u c' v' e').
    + injection Hr as -> ->.
      assert (Hend : EvEnd t c v' e' ∈ log s).
      { rewrite Hl. apply elem_of_app. right. left. }
      destruct (inv_end _ _ Hinv t c v' e' Hend) as (_ & [Ha|[Hr _]]).
      * by destruct (proj1 (Ht c)).
      * by destruct (proj2 (Ht c)).
Qed.

(** [delete(g.m, key)] *)
Lemma inv_delete s t th c :
  inv args s → threads s !! t = Some th → t_pc th = ExecDelete c →
  inv args (mkState (mu s) (delete (t_key th) <$> m s) (calls s)
              (set_pc t (ExecUnlock2 c) (threads s)) (world s)
              (log s ++ [EvUnregister t c])).
Proof.
  intros Hinv Hth Hpc.
  pose proof (inv_threads _ _ Hinv t th Hth) as Ht. unfold thread_inv in Ht.
  rewrite Hpc in Ht. destruct Ht as (Hreg & Hk & cl & Hcl & Hwg).
  split; simpl; try setoid_rewrite registry_delete.
  - rewrite fmap_set_pc. apply Hinv.
  - intros u thu. destruct (decide (t = u)) as [<-|Hne].
    + rewrite (lookup_set_pc_eq _ _ _ _ Hth). intros [= <-]. unfold thread_inv. simpl.
      split_and!; [in_old_log|apply elem_of_snoc; by right|eauto].
    + rewrite lookup_set_pc_ne by done. intros Hu.
      apply (thread_inv_frame s); simpl; try done.
      * by apply (inv_threads _ _ Hinv).
      * intros ev Hev. in_old_log.
      * intros _ ev Hev. apply elem_of_snoc in Hev as [?| ->]; [by left|by right].
      * intros c' Hin. by old_event Hin.
      * intros c' Hin. by old_event Hin.
      * intros c' Hr Hk'. rewrite registry_delete.
        destruct (decide (t_key th = t_key thu)) as [Heq|_]; [|done].
        rewrite <- Heq, Hk in Hk'. injection Hk' as <-. destruct Hne. by eapply inv_reg_fun.
      * intros c' u' v' e' _ Hin. by old_event Hin.
  - intros k c'. destruct (decide (t_key th = k)) as [<-|Hne]; [done|].
    intros Hk'. destruct (inv_registry _ _ Hinv k c' Hk') as [u Hu]. exists u. in_old_log.
  - intros k k' c'. destruct (decide (t_key th = k)) as [<-|Hne]; [done|].
    destruct (decide (t_key th = k')) as [<-|Hne']; [done|]. apply Hinv.
  - intros u c' Hin. old_event Hin. by eapply inv_reg_alloc.
  - intros u u' c' H1 H2. old_events. by eapply inv_reg_fun.
  - intros u c1 c2 H1 H2. old_events. by eapply inv_reg_once.
  - intros u c1 c2 H1 H2. old_events. by eapply inv_attach_once.
  - intros u c1 c2 H1 H2. old_events. by eapply inv_role.
  - intros u c' H1. old_events. destruct (inv_attach_reg _ _ Hinv u c' H1) as [u' Hu'].
    exists u'. in_old_log.
  - intros u c' v e H1. old_events.
    destruct (inv_invoke _ _ Hinv u c' v e H1) as (Hr & Hc' & Ha).
    split_and!; [in_old_log|done|done].
  - intros c'. rewrite length_filter_snoc.
    pose proof (inv_invoke_once _ _ Hinv c').
    destruct (decide (is_invoke_of c' (EvUnregister t c))) as [[]|_]. lia.
  - intros c' cl' Hcl' Hwg'. destruct (inv_done _ _ Hinv c' cl' Hcl' Hwg') as [u Hu].
    exists u. in_old_log.
  - intros u c' v e H1. old_events.
    destruct (inv_end _ _ Hinv u c' v e H1) as ([u' Hu'] & Hor).
    split; [exists u'; in_old_log|].
    destruct Hor as [?|[? ?]]; [left|right; split]; in_old_log.
  - intros u c' H1. apply elem_of_snoc in H1 as [H1|H1].
    + destruct (inv_unreg _ _ Hinv u c' H1) as [Hr Hk']. split; [in_old_log|].
      intros k. destruct (decide (t_key th = k)); [done|apply Hk'].
    + injection H1 as -> ->. split; [in_old_log|].
      intros k. destruct (decide (t_key th = k)) as [|Hne]; [done|].
      intros Hk'. apply Hne. by eapply inv_registry_inj.
  - intros l1 l2 u u' c' [(-> & _ & _)|(l2' & -> & Hl)]%snoc_eq_middle.
    + apply not_elem_of_nil.
    + intros Hin. old_event Hin. exact (inv_order _ _ Hinv l1 l2' u u' c' Hl Hin).
  - intros Hno. destruct (Hno t c). apply elem_of_snoc. by right.
  - intros l1 l2 [[-> ->]|(l2' & -> & Hl)]%snoc_eq_app Hno.
    + destruct (Hno t c). apply elem_of_snoc. by right.
    + by eapply (inv_single _ _ Hinv l1 l2').
  - intros l1 l2 u [(_ & Heq & _)|(l2' & -> & Hl)]%snoc_eq_middle; [done|].
    by apply (inv_begin _ _ Hinv l1 l2' u).
  - intros l1 l2 u c' v' e' [(_ & Heq & _)|(l2' & -> & Hl)]%snoc_eq_middle; [done|].
    intros Hr. old_event Hr. by apply (inv_end_unreg _ _ Hinv l1 l2' u c' v' e').
Qed.

(** Every step keeps the invariant. *)
Lemma inv_step s t s' :
  inv args s → step nilv nile t s = Some s' → inv args s'.
Proof.
  intros Hinv Hstep. unfold step in Hstep.
  destruct (threads s !! t) as [th|] eqn:Hth; [|done]. simpl in Hstep.
  pose proof (inv_threads _ _ Hinv t th Hth) as Ht. unfold thread_inv in Ht.
  destruct (t_pc th) as [| | |c|c|c|c|c|c|c|c|c|c|v e] eqn:Hpc.
  - injection Hstep as <-. apply (inv_quiet s t th); [done|done|done|done|].
    unfold thread_inv. simpl. intros c. split; intros Hin; by apply (Ht _ Hin).
  - destruct (mu s); [done|]. injection Hstep as <-. apply (inv_move s t th); [done|done|].
    unfold thread_inv. simpl. exact Ht.
  - destruct (default ∅ (m s) !! t_key th) as [c|] eqn:Hk; injection Hstep as <-.
    + apply (inv_hit s t th); [done|done|done|]. unfold registry. by destruct (m s).
    + apply (inv_miss s t th); [done|done|done|]. unfold registry. by destruct (m s).
  - injection Hstep as <-. apply (inv_move s t th); [done|done|]. unfold thread_inv. simpl. exact Ht.
  - destruct (calls s !! c) as [cl|] eqn:Hcl; [|done]. simpl in Hstep.
    case_bool_decide as Hwg; [|done]. injection Hstep as <-. apply (inv_move s t th); [done|done|].
    unfold thread_inv. simpl. destruct Ht as [Ha _]. eauto.
  - destruct (calls s !! c) as [cl|] eqn:Hcl; [|done]. simpl in Hstep.
    injection Hstep as <-. apply (inv_quiet s t th); [done|done| |done|done].
    destruct Ht as (Ha & cl' & Hcl' & Hwg). assert (cl' = cl) as -> by congruence.
    simpl. split_and!; [done| |by left]. by eapply inv_done.
  - injection Hstep as <-. apply (inv_move s t th); [done|done|]. unfold thread_inv. simpl. exact Ht.
  - destruct (calls s !! c) as [cl|] eqn:Hcl; [|done]. simpl in Hstep.
    destruct (t_fn th (world s)) as [[v e] w] eqn:Hfn. injection Hstep as <-.
    by apply (inv_call s t th).
  - destruct (calls s !! c) as [cl|] eqn:Hcl; [|done]. simpl in Hstep.
    destruct (wg cl) as [|n] eqn:Hwg; [done|]. injection Hstep as <-.
    pose proof (inv_wg_done s t th c cl Hinv Hth Hpc Hcl) as Hnew.
    by rewrite Hwg in Hnew.
  - destruct (mu s); [done|]. injection Hstep as <-. apply (inv_move s t th); [done|done|].
    unfold thread_inv. simpl. exact Ht.
  - injection Hstep as <-. by apply (inv_delete s t th).
  - injection Hstep as <-. apply (inv_move s t th); [done|done|]. unfold thread_inv. simpl. exact Ht.
  - destruct (calls s !! c) as [cl|] eqn:Hcl; [|done]. simpl in Hstep.
    injection Hstep as <-. apply (inv_quiet s t th); [done|done| |done|done].
    destruct Ht as (Hr & Hu & cl' & Hcl' & Hwg). assert (cl' = cl) as -> by congruence.
    simpl. split_and!; [done| |by right]. by eapply inv_done.
  - done.
Qed.

Lemma inv_run sched s s' :
  inv args s → run nilv nile sched s = Some s' → inv args s'.
Proof.
  revert s. induction sched as [|t sched IH]; intros s Hinv Hrun; simpl in Hrun.
  - by injection Hrun as <-.
  - destruct (step nilv nile t s) as [s1|] eqn:Hstep; [|done].
    eapply IH; [|exact Hrun]. by eapply inv_step.
Qed.

Lemma inv_reachable w s : reachable nilv nile args w s → inv args s.
Proof. intros [sched Hrun]. eapply inv_run; [apply inv_init|exact Hrun]. Qed.

Lemma filter_length_pos (P : event Value Err → Prop) `{∀ x, Decision (P x)} l ev :
  ev ∈ l → P ev → 1 ≤ length (filter P l).
Proof.
  intros Hin HP. assert (Hf : ev ∈ filter P l) by (by apply list_elem_of_filter).
  destruct (filter P l); [by apply elem_of_nil in Hf|simpl; lia].
Qed.

Lemma invoke_count_one args' s c u v e :
  inv args' s → EvInvoke u c v e ∈ log s → length (filter (is_invoke_of c) (log s)) = 1.
Proof.
  intros Hinv Hin. pose proof (inv_invoke_once _ _ Hinv c).
  pose proof (filter_length_pos (is_invoke_of c) _ _ Hin eq_refl). lia.
Qed.


Lemma filter_invoke_of (l : list (event Value Err)) c :
  (∀ u c' v e, EvInvoke u c' v e ∈ l → c' = c) →
  filter is_invoke l = filter (is_invoke_of c) l.
Proof.
  intros Hall. induction l as [|ev l IH]; [done|]. rewrite !filter_cons.
  rewrite IH by (intros u c' v e Hin; apply (Hall u c' v e); by right).
  destruct ev as [| | |u c' v e| |]; try done. simpl.
  rewrite (Hall u c' v e) by left.
  destruct (decide True), (decide (c = c)); done.
Qed.

End invariant.

(** ** The mutex and the WaitGroup *)

Section progress.

Context {Value Err W : Type}.
Variable nilv : Value.
Variable nile : Err.
Implicit Types (s : State Value Err W) (th : thread Value Err W) (p : pc Value Err).

(** Between [g.mu.Lock()] and the [g.mu.Unlock()] that follows it. *)
Definition holds_mutex p : Prop :=
  match p with
  | AtLookup | WaiterUnlock _ | ExecUnlock _ | ExecDelete _ | ExecUnlock2 _ => True
  | _ => False
  end.

(** Between [c.wg.Add(1)] and [c.wg.Done()]. *)
Definition executing p (c : nat) : Prop :=
  p = ExecUnlock c ∨ p = ExecCall c ∨ p = ExecDone c.

(** The call record a goroutine holds a pointer to. *)
Definition pc_call p : option nat :=
  match p with
  | WaiterUnlock c | WaiterWait c | WaiterReturn c
  | ExecUnlock c | ExecCall c | ExecDone c | ExecLock c | ExecDelete c
  | ExecUnlock2 c | ExecReturn c => Some c
  | NotCalled | AtLock | AtLookup | Returned _ _ => None
  end.

Definition has_returned p : Prop :=
  match p with Returned _ _ => True | _ => False end.

(** A bound on the steps a goroutine has left. *)
Definition steps_left p : nat :=
  match p with
  | NotCalled => 10
  | AtLock => 9
  | AtLookup => 8
  | ExecUnlock _ => 7
  | ExecCall _ => 6
  | ExecDone _ => 5
  | ExecLock _ => 4
  | ExecDelete _ | WaiterUnlock _ => 3
  | ExecUnlock2 _ | WaiterWait _ => 2
  | ExecReturn _ | WaiterReturn _ => 1
  | Returned _ _ => 0
  end.

Definition all_steps_left s : nat := sum_list ((λ th, steps_left (t_pc th)) <$> threads s).

(** The state of the mutex and of the WaitGroups in a reachable state: the
    mutex is held by the goroutine inside a critical section and by no
    other; call records are allocated before they are pointed to; the
    counter of a WaitGroup is 1 while the goroutine that made the record is
    between [Add(1)] and [Done()], and 0 afterwards. *)
Record sync_inv s : Prop := {
  sync_holder : ∀ t, mu s = Some t →
      ∃ th, threads s !! t = Some th ∧ holds_mutex (t_pc th);
  sync_held : ∀ t th, threads s !! t = Some th → holds_mutex (t_pc th) → mu s = Some t;
  sync_alloc : ∀ t th c, threads s !! t = Some th → pc_call (t_pc th) = Some c →
      is_Some (calls s !! c);
  sync_reg_alloc : ∀ k c, registry s k = Some c → is_Some (calls s !! c);
  sync_wg : ∀ c cl, calls s !! c = Some cl →
      wg cl = 0 ∨
      (wg cl = 1 ∧ ∃ t th, threads s !! t = Some th ∧ executing (t_pc th) c);
  sync_exec : ∀ t th c cl, threads s !! t = Some th → executing (t_pc th) c →
      calls s !! c = Some cl → wg cl = 1;
  sync_exec_inj : ∀ t u tht thu c,
      threads s !! t = Some tht → threads s !! u = Some thu →
      executing (t_pc tht) c → executing (t_pc thu) c → t = u
}.

Local Arguments registry : simpl never.

Lemma executing_pc_call p c : executing p c → pc_call p = Some c.
Proof. by intros [->|[->| ->]]. Qed.

Lemma lookup_set_pc_Some t p (ts : list (thread Value Err W)) th u thu :
  ts !! t = Some th → set_pc t p ts !! u = Some thu →
  (u = t ∧ thu = Thread (t_key th) (t_fn th) p) ∨ (u ≠ t ∧ ts !! u = Some thu).
Proof.
  intros Hth Hu. destruct (decide (u = t)) as [->|Hne].
  - left. rewrite (lookup_set_pc_eq _ _ _ _ Hth) in Hu. by injection Hu as <-.
  - right. by rewrite lookup_set_pc_ne in Hu.
Qed.

Lemma sync_init (args : list (string * @Fn Value Err W)) w : sync_inv (init args w).
Proof.
  assert (Hpc : ∀ t th, threads (init args w) !! t = Some th → t_pc th = NotCalled).
  { intros t th [a [-> Ha]]%list_lookup_fmap_Some. done. }
  split; simpl.
  - done.
  - intros t th Hth Hm. by rewrite (Hpc t th Hth) in Hm.
  - intros t th c Hth Hc. by rewrite (Hpc t th Hth) in Hc.
  - done.
  - intros c cl Hc. by rewrite lookup_empty in Hc.
  - intros t th c cl _ _ Hc. by rewrite lookup_empty in Hc.
  - intros t u tht thu c Hth _ Hex. apply executing_pc_call in Hex.
    by rewrite (Hpc t tht Hth) in Hex.
Qed.

(** A step of goroutine [t] to the place [p'] that allocates no record,
    keeps the counters and registers nothing keeps the invariant, when the
    mutex is held after the step as [p'] says. *)
Lemma sync_move s s' t th p' :
  sync_inv s → threads s !! t = Some th →
  threads s' = set_pc t p' (threads s) →
  (holds_mutex p' ↔ mu s' = Some t) →
  (∀ u, u ≠ t → mu s' = Some u ↔ mu s = Some u) →
  (∀ c, is_Some (calls s !! c) → is_Some (calls s' !! c)) →
  (∀ c cl', calls s' !! c = Some cl' → ∃ cl, calls s !! c = Some cl ∧ wg cl' = wg cl) →
  (∀ k c, registry s' k = Some c → registry s k = Some c) →
  (∀ c, pc_call p' = Some c → is_Some (calls s !! c)) →
  (∀ c, executing p' c ↔ executing (t_pc th) c) →
  sync_inv s'.
Proof.
  intros Hinv Hth Hts Hmu Hother Hmono Hwg Hreg Hcall Hex.
  assert (Hlook : ∀ u thu, threads s' !! u = Some thu →
            (u = t ∧ t_pc thu = p') ∨ (u ≠ t ∧ threads s !! u = Some thu)).
  { intros u thu Hu. rewrite Hts in Hu.
    destruct (lookup_set_pc_Some _ _ _ _ _ _ Hth Hu) as [[-> ->]|[? ?]]; [by left|by right]. }
  assert (Ht' : threads s' !! t = Some (Thread (t_key th) (t_fn th) p')).
  { rewrite Hts. by apply lookup_set_pc_eq. }
  assert (Hkeep : ∀ u thu, u ≠ t → threads s !! u = Some thu → threads s' !! u = Some thu).
  { intros u thu Hne Hu. rewrite Hts. by rewrite lookup_set_pc_ne. }
  assert (Hexec : ∀ u thu c, threads s' !! u = Some thu → executing (t_pc thu) c →
            ∃ thu0, threads s !! u = Some thu0 ∧ executing (t_pc thu0) c).
  { intros u thu c Hu Hc. destruct (Hlook u thu Hu) as [[-> Hp]|[Hne Hold]].
    - exists th. split; [done|]. apply Hex. by rewrite <- Hp.
    - by exists thu. }
  split.
  - intros u Hu. destruct (decide (u = t)) as [->|Hne].
    + eexists. split; [exact Ht'|]. simpl. by apply Hmu.
    + apply Hother in Hu; [|done].
      destruct (sync_holder _ Hinv u Hu) as (thu & Hthu & Hh). exists thu. eauto.
  - intros u thu Hu Hh. destruct (Hlook u thu Hu) as [[-> Hp]|[Hne Hold]].
    + apply Hmu. by rewrite <- Hp.
    + apply Hother; [done|]. by apply (sync_held _ Hinv u thu).
  - intros u thu c Hu Hc. apply Hmono. destruct (Hlook u thu Hu) as [[-> Hp]|[Hne Hold]].
    + apply Hcall. by rewrite <- Hp.
    + by apply (sync_alloc _ Hinv u thu).
  - intros k c Hk. apply Hmono, (sync_reg_alloc _ Hinv k), Hreg, Hk.
  - intros c cl' Hc. destruct (Hwg c cl' Hc) as (cl & Hcl & ->).
    destruct (sync_wg _ Hinv c cl Hcl) as [?|[? (u & thu & Hu & Hc')]]; [by left|].
    right. split; [done|]. destruct (decide (u = t)) as [->|Hne].
    + eexists t, _. split; [exact Ht'|]. simpl. apply Hex. congruence.
    + exists u, thu. eauto.
  - intros u thu c cl' Hu Hc Hcl'. destruct (Hwg c cl' Hcl') as (cl & Hcl & ->).
    destruct (Hexec u thu c Hu Hc) as (thu0 & Hu0 & Hc0).
    by apply (sync_exec _ Hinv u thu0 c cl).
  - intros u1 u2 th1 th2 c Hu1 Hu2 Hc1 Hc2.
    destruct (Hexec u1 th1 c Hu1 Hc1) as (th1' & ? & ?).
    destruct (Hexec u2 th2 c Hu2 Hc2) as (th2' & ? & ?).
    by apply (sync_exec_inj _ Hinv u1 u2 th1' th2' c).
Qed.

Ltac exec_iff := split; intros [?|[?|?]]; simplify_eq; unfold executing; auto.

(** Every step keeps the invariant. *)
Lemma sync_step s t s' : sync_inv s → step nilv nile t s = Some s' → sync_inv s'.
Proof.
  intros Hinv Hstep. unfold step in Hstep.
  destruct (threads s !! t) as [th|] eqn:Hth; [|done]. simpl in Hstep.
  assert (Hmu : mu s = Some t ↔ holds_mutex (t_pc th)).
  { split; [|by apply (sync_held _ Hinv)]. intros Hmu.
    destruct (sync_holder _ Hinv t Hmu) as (th' & Hth' & Hh). congruence. }
  assert (Hcall : ∀ c, pc_call (t_pc th) = Some c → is_Some (calls s !! c)).
  { intros c. by apply (sync_alloc _ Hinv t th). }
  assert (Hown : ∀ c c', executing (t_pc th) c → executing (t_pc th) c' → c = c').
  { intros c c' H1%executing_pc_call H2%executing_pc_call. congruence. }
  remember (t_pc th) as p eqn:Hpc. simpl in Hmu.
  destruct p as [| | |c|c|c|c|c|c|c|c|c|c|v e]; simpl in Hmu.
  - (* NotCalled *)
    injection Hstep as <-.
    apply (sync_move s _ t th AtLock Hinv Hth); simpl; rewrite <- ?Hpc;
      [done|by rewrite Hmu|done|done|eauto|done|done|exec_iff].
  - (* AtLock *)
    destruct (mu s) as [u|] eqn:Hmus; [done|]. injection Hstep as <-.
    apply (sync_move s _ t th AtLookup Hinv Hth); simpl; rewrite <- ?Hpc;
      [done|done| |done|eauto|done|done|exec_iff].
    intros u Hne. split; [by intros [= ->]|by rewrite Hmus].
  - (* AtLookup *)
    assert (Hmus : mu s = Some t) by (by apply Hmu).
    destruct (default ∅ (m s) !! t_key th) as [c|] eqn:Hk.
    + (* the key is in flight *)
      injection Hstep as <-.
      assert (Hreg : registry s (t_key th) = Some c).
      { unfold registry. destruct (m s); simpl in Hk; [done|].
        by rewrite lookup_empty in Hk. }
      apply (sync_move s _ t th (WaiterUnlock c) Hinv Hth); simpl; rewrite <- ?Hpc;
        [done|done|done|done|eauto| | |exec_iff].
      * intros k c'. by rewrite registry_hit.
      * intros c' [= <-]. by apply (sync_reg_alloc _ Hinv (t_key th)).
    + (* the key is free *)
      injection Hstep as <-. set (c := fresh (dom (calls s))).
      assert (Hfresh : calls s !! c = None).
      { apply not_elem_of_dom. apply is_fresh. }
      assert (Hlook : ∀ u thu, set_pc t (ExecUnlock c) (threads s) !! u = Some thu →
                (u = t ∧ t_pc thu = ExecUnlock c) ∨ (u ≠ t ∧ threads s !! u = Some thu)).
      { intros u thu Hu.
        destruct (lookup_set_pc_Some _ _ _ _ _ _ Hth Hu) as [[-> ->]|[? ?]];
          [by left|by right]. }
      assert (Ht' : set_pc t (ExecUnlock c) (threads s) !! t
                    = Some (Thread (t_key th) (t_fn th) (ExecUnlock c))).
      { by apply lookup_set_pc_eq. }
      assert (Hold : ∀ u thu c', threads s !! u = Some thu → executing (t_pc thu) c' →
                c' ≠ c ∧ u ≠ t).
      { intros u thu c' Hu Hex. split.
        - intros ->. apply executing_pc_call in Hex.
          destruct (sync_alloc _ Hinv u thu c Hu Hex) as [? ?]. congruence.
        - intros ->. rewrite Hth in Hu. injection Hu as <-. rewrite <- Hpc in Hex.
          by destruct Hex as [?|[?|?]]. }
      split; simpl.
      * intros u Hu. rewrite Hmus in Hu. injection Hu as <-.
        eexists. split; [exact Ht'|done].
      * intros u thu Hu Hh. destruct (Hlook u thu Hu) as [[-> _]|[Hne Hu0]]; [done|].
        by apply (sync_held _ Hinv u thu).
      * intros u thu c' Hu Hc'. destruct (Hlook u thu Hu) as [[-> Hp]|[Hne Hu0]].
        -- rewrite Hp in Hc'. injection Hc' as <-. by rewrite lookup_insert_eq.
        -- apply lookup_insert_is_Some'. right. by apply (sync_alloc _ Hinv u thu).
      * intros k c'. rewrite registry_insert. destruct (decide (t_key th = k)).
        -- intros [= <-]. by rewrite lookup_insert_eq.
        -- intros Hk'. apply lookup_insert_is_Some'. right.
           by apply (sync_reg_alloc _ Hinv k).
      * intros c' cl' [[<- <-]|[Hne Hcl]]%lookup_insert_Some.
        -- right. split; [done|]. eexists t, _. split; [exact Ht'|]. by left.
        -- destruct (sync_wg _ Hinv c' cl' Hcl) as [?|[? (u & thu & Hu & Hex)]]; [by left|].
           right. split; [done|]. exists u, thu. split; [|done].
           rewrite lookup_set_pc_ne; [done|]. intros ->.
           by destruct (Hold u thu c' Hu Hex).
      * intros u thu c' cl' Hu Hex Hcl'. destruct (Hlook u thu Hu) as [[-> Hp]|[Hne Hu0]].
        -- rewrite Hp in Hex. destruct Hex as [[= <-]|[?|?]]; [|done..].
           rewrite lookup_insert_eq in Hcl'. by injection Hcl' as <-.
        -- destruct (Hold u thu c' Hu0 Hex) as [Hc' _].
           rewrite lookup_insert_ne in Hcl' by done.
           by apply (sync_exec _ Hinv u thu c' cl').
      * intros u1 u2 th1 th2 c' Hu1 Hu2 Hex1 Hex2.
        destruct (Hlook u1 th1 Hu1) as [[-> Hp1]|[Hne1 Hu1']],
                 (Hlook u2 th2 Hu2) as [[-> Hp2]|[Hne2 Hu2']]; [done| | |].
        -- rewrite Hp1 in Hex1. destruct Hex1 as [[= <-]|[?|?]]; [|done..].
           by destruct (Hold u2 th2 c Hu2' Hex2).
        -- rewrite Hp2 in Hex2. destruct Hex2 as [[= <-]|[?|?]]; [|done..].
           by destruct (Hold u1 th1 c Hu1' Hex1).
        -- by apply (sync_exec_inj _ Hinv u1 u2 th1 th2 c').
  - (* WaiterUnlock *)
    assert (Hmus : mu s = Some t) by (by apply Hmu).
    injection Hstep as <-.
    apply (sync_move s _ t th (WaiterWait c) Hinv Hth); simpl; rewrite <- ?Hpc;
      [done|done| |done|eauto|done|done|exec_iff].
    intros u Hne. rewrite Hmus. split; [done|by intros [= ->]].
  - (* WaiterWait *)
    destruct (calls s !! c) as [cl|] eqn:Hcl; [|done]. simpl in Hstep.
    case_bool_decide; [|done]. injection Hstep as <-.
    apply (sync_move s _ t th (WaiterReturn c) Hinv Hth); simpl; rewrite <- ?Hpc;
      [done|by rewrite Hmu|done|done|eauto|done| |exec_iff].
    intros c' [= <-]. eauto.
  - (* WaiterReturn *)
    destruct (calls s !! c) as [cl|] eqn:Hcl; [|done]. injection Hstep as <-.
    apply (sync_move s _ t th (Returned (val cl) (err cl)) Hinv Hth); simpl; rewrite <- ?Hpc;
      [done|by rewrite Hmu|done|done|eauto|done|done|exec_iff].
  - (* ExecUnlock *)
    assert (Hmus : mu s = Some t) by (by apply Hmu).
    injection Hstep as <-.
    apply (sync_move s _ t th (ExecCall c) Hinv Hth); simpl; rewrite <- ?Hpc;
      [done|done| |done|eauto|done| |exec_iff].
    + intros u Hne. rewrite Hmus. split; [done|by intros [= ->]].
    + intros c' [= <-]. by apply Hcall.
  - (* ExecCall *)
    destruct (calls s !! c) as [cl|] eqn:Hcl; [|done]. simpl in Hstep.
    destruct (t_fn th (world s)) as [[v e] w']. injection Hstep as <-.
    apply (sync_move s _ t th (ExecDone c) Hinv Hth); simpl; rewrite <- ?Hpc;
      [done|by rewrite Hmu|done| | |done| |exec_iff].
    + intros c' Hc'. apply lookup_insert_is_Some'. by right.
    + intros c' cl' [[<- <-]|[Hne Hc']]%lookup_insert_Some; eauto.
    + intros c' [= <-]. eauto.
  - (* ExecDone *)
    destruct (calls s !! c) as [cl|] eqn:Hcl; [|done]. simpl in Hstep.
    assert (Hwg : wg cl = 1).
    { apply (sync_exec _ Hinv t th c cl Hth); [|done]. rewrite <- Hpc. unfold executing. auto. }
    rewrite Hwg in Hstep. injection Hstep as <-.
    assert (Hlook : ∀ u thu, set_pc t (ExecLock c) (threads s) !! u = Some thu →
              (u = t ∧ t_pc thu = ExecLock c) ∨ (u ≠ t ∧ threads s !! u = Some thu)).
    { intros u thu Hu.
      destruct (lookup_set_pc_Some _ _ _ _ _ _ Hth Hu) as [[-> ->]|[? ?]];
        [by left|by right]. }
    assert (Hex_t : executing (t_pc th) c) by (rewrite <- Hpc; unfold executing; auto).
    assert (Hold : ∀ u thu c', u ≠ t → threads s !! u = Some thu →
              executing (t_pc thu) c' → c' ≠ c).
    { intros u thu c' Hne Hu Hex ->. apply Hne.
      by apply (sync_exec_inj _ Hinv u t thu th c). }
    split; simpl.
    + intros u Hu. destruct (sync_holder _ Hinv u Hu) as (thu & Hthu & Hh).
      exists thu. split; [|done]. rewrite lookup_set_pc_ne; [done|]. intros ->.
      apply Hmu in Hu. done.
    + intros u thu Hu Hh. destruct (Hlook u thu Hu) as [[-> Hp]|[Hne Hu0]].
      * by rewrite Hp in Hh.
      * by apply (sync_held _ Hinv u thu).
    + intros u thu c' Hu Hc'. apply lookup_insert_is_Some'. right.
      destruct (Hlook u thu Hu) as [[-> Hp]|[Hne Hu0]].
      * rewrite Hp in Hc'. injection Hc' as <-. eauto.
      * by apply (sync_alloc _ Hinv u thu).
    + intros k c' Hk. apply lookup_insert_is_Some'. right.
      by apply (sync_reg_alloc _ Hinv k).
    + intros c' cl' [[<- <-]|[Hne Hcl']]%lookup_insert_Some; [by left|].
      destruct (sync_wg _ Hinv c' cl' Hcl') as [?|[? (u & thu & Hu & Hex)]]; [by left|].
      right. split; [done|]. exists u, thu. split; [|done].
      rewrite lookup_set_pc_ne; [done|]. intros ->. rewrite Hth in Hu. injection Hu as <-.
      rewrite <- Hpc in Hex. apply Hne, Hown; [unfold executing; auto|done].
    + intros u thu c' cl' Hu Hex Hcl'. destruct (Hlook u thu Hu) as [[-> Hp]|[Hne Hu0]].
      * rewrite Hp in Hex. by destruct Hex as [?|[?|?]].
      * pose proof (Hold u thu c' Hne Hu0 Hex) as Hc'.
        rewrite lookup_insert_ne in Hcl' by done.
        by apply (sync_exec _ Hinv u thu c' cl').
    + intros u1 u2 th1 th2 c' Hu1 Hu2 Hex1 Hex2.
      destruct (Hlook u1 th1 Hu1) as [[-> Hp1]|[Hne1 Hu1']].
      { rewrite Hp1 in Hex1. by destruct Hex1 as [?|[?|?]]. }
      destruct (Hlook u2 th2 Hu2) as [[-> Hp2]|[Hne2 Hu2']].
      { rewrite Hp2 in Hex2. by destruct Hex2 as [?|[?|?]]. }
      by apply (sync_exec_inj _ Hinv u1 u2 th1 th2 c').
  - (* ExecLock *)
    destruct (mu s) as [u|] eqn:Hmus; [done|]. injection Hstep as <-.
    apply (sync_move s _ t th (ExecDelete c) Hinv Hth); simpl; rewrite <- ?Hpc;
      [done|done| |done|eauto|done| |exec_iff].
    + intros u Hne. split; [by intros [= ->]|by rewrite Hmus].
    + intros c' [= <-]. by apply Hcall.
  - (* ExecDelete *)
    assert (Hmus : mu s = Some t) by (by apply Hmu).
    injection Hstep as <-.
    apply (sync_move s _ t th (ExecUnlock2 c) Hinv Hth); simpl; rewrite <- ?Hpc;
      [done|done|done|done|eauto| | |exec_iff].
    + intros k c'. rewrite registry_delete. by destruct (decide (t_key th = k)).
    + intros c' [= <-]. by apply Hcall.
  - (* ExecUnlock2 *)
    assert (Hmus : mu s = Some t) by (by apply Hmu).
    injection Hstep as <-.
    apply (sync_move s _ t th (ExecReturn c) Hinv Hth); simpl; rewrite <- ?Hpc;
      [done|done| |done|eauto|done| |exec_iff].
    + intros u Hne. rewrite Hmus. split; [done|by intros [= ->]].
    + intros c' [= <-]. by apply Hcall.
  - (* ExecReturn *)
    destruct (calls s !! c) as [cl|] eqn:Hcl; [|done]. injection Hstep as <-.
    apply (sync_move s _ t th (Returned (val cl) (err cl)) Hinv Hth); simpl; rewrite <- ?Hpc;
      [done|by rewrite Hmu|done|done|eauto|done|done|exec_iff].
  - done.
Qed.

Lemma sync_run sched s s' :
  sync_inv s → run nilv nile sched s = Some s' → sync_inv s'.
Proof.
  revert s. induction sched as [|t sched IH]; intros s Hinv Hrun; simpl in Hrun.
  - by injection Hrun as <-.
  - destruct (step nilv nile t s) as [s1|] eqn:Hstep; [|done]. simpl in Hrun.
    eapply IH; [|done]. by eapply sync_step.
Qed.

Lemma sync_reachable args w s : reachable nilv nile args w s → sync_inv s.
Proof. intros [sched Hrun]. eapply sync_run; [apply sync_init|done]. Qed.

Lemma run_snoc sched t s :
  run nilv nile (sched ++ [t]) s = run nilv nile sched s ≫= step nilv nile t.
Proof.
  revert s. induction sched as [|u sched IH]; intros s; simpl.
  - by destruct (step nilv nile t s).
  - destruct (step nilv nile u s); [apply IH|done].
Qed.

Lemma reachable_step args w s t s' :
  reachable nilv nile args w s → step nilv nile t s = Some s' →
  reachable nilv nile args w s'.
Proof. intros [sched Hrun] Hstep. exists (sched ++ [t]). by rewrite run_snoc, Hrun. Qed.

(** The goroutine that holds the mutex is not blocked. *)
Lemma holder_steps s t th :
  threads s !! t = Some th → holds_mutex (t_pc th) → is_Some (step nilv nile t s).
Proof.
  intros Hth Hh. unfold step. rewrite Hth. simpl.
  destruct (t_pc th); try done; eauto.
  destruct (default ∅ (m s) !! t_key th); eauto.
Qed.

(** Neither is a goroutine between [Add(1)] and [Done()]. *)
Lemma executor_steps s t th c :
  sync_inv s → threads s !! t = Some th → executing (t_pc th) c →
  is_Some (step nilv nile t s).
Proof.
  intros Hinv Hth Hex.
  destruct (sync_alloc _ Hinv t th c Hth (executing_pc_call _ _ Hex)) as [cl Hcl].
  pose proof (sync_exec _ Hinv t th c cl Hth Hex Hcl) as Hwg.
  unfold step. rewrite Hth. simpl. destruct Hex as [->|[->| ->]]; simpl.
  - eauto.
  - rewrite Hcl. simpl. destruct (t_fn th (world s)) as [[v e] w']. eauto.
  - rewrite Hcl. simpl. rewrite Hwg. eauto.
Qed.

(** What a goroutine that has not returned and cannot take a step is
    waiting for: the mutex, held by a goroutine that can take a step, or
    the WaitGroup of a record whose maker can take a step. *)
Definition waits_for s (t u : nat) : Prop :=
  ∃ th thu,
    threads s !! t = Some th ∧ threads s !! u = Some thu ∧ u ≠ t ∧
    is_Some (step nilv nile u s) ∧
    (((t_pc th = AtLock ∨ ∃ c, t_pc th = ExecLock c) ∧
      mu s = Some u ∧ holds_mutex (t_pc thu)) ∨
     (∃ c cl, t_pc th = WaiterWait c ∧ calls s !! c = Some cl ∧ wg cl = 1 ∧
              executing (t_pc thu) c)).

Lemma sync_progress s t th :
  sync_inv s → threads s !! t = Some th → ¬ has_returned (t_pc th) →
  is_Some (step nilv nile t s) ∨ ∃ u, waits_for s t u.
Proof.
  intros Hinv Hth Hnr.
  assert (Hlock : t_pc th = AtLock ∨ (∃ c, t_pc th = ExecLock c) →
            is_Some (step nilv nile t s) ∨ ∃ u, waits_for s t u).
  { intros Hpc. destruct (mu s) as [u|] eqn:Hmu.
    - right. destruct (sync_holder _ Hinv u Hmu) as (thu & Hu & Hh). exists u, th, thu.
      split_and!; [done|done| |by eapply holder_steps|left; done].
      intros ->. rewrite Hth in Hu. injection Hu as <-.
      destruct Hpc as [Hpc|[c Hpc]]; by rewrite Hpc in Hh.
    - left. unfold step. rewrite Hth. simpl.
      destruct Hpc as [->|[c ->]]; rewrite Hmu; eauto. }
  assert (Hrec : ∀ c, pc_call (t_pc th) = Some c → is_Some (calls s !! c)).
  { intros c. by apply (sync_alloc _ Hinv t th). }
  destruct (t_pc th) as [| | |c|c|c|c|c|c|c|c|c|c|v e] eqn:Hpc;
    try (by apply Hlock; eauto);
    try (left; by apply (holder_steps s t th Hth); rewrite Hpc);
    try (left; by apply (executor_steps s t th c Hinv Hth); rewrite Hpc; unfold executing; auto).
  - left. unfold step. rewrite Hth. simpl. rewrite Hpc. eauto.
  - destruct (Hrec c eq_refl) as [cl Hcl].
    destruct (sync_wg _ Hinv c cl Hcl) as [Hwg|[Hwg (u & thu & Hu & Hex)]].
    + left. unfold step. rewrite Hth. simpl. rewrite Hpc, Hcl. simpl.
      rewrite bool_decide_eq_true_2 by done. eauto.
    + right. exists u, th, thu.
      split_and!; [done|done| |by eapply executor_steps|right; eauto 10].
      intros ->. rewrite Hth in Hu. injection Hu as <-. rewrite Hpc in Hex.
      by destruct Hex as [?|[?|?]].
  - destruct (Hrec c eq_refl) as [cl Hcl]. left. unfold step. rewrite Hth. simpl.
    rewrite Hpc, Hcl. simpl. eauto.
  - destruct (Hrec c eq_refl) as [cl Hcl]. left. unfold step. rewrite Hth. simpl.
    rewrite Hpc, Hcl. simpl. eauto.
Qed.

(** ** Termination *)

Lemma sum_list_insert (l : list nat) i x y :
  l !! i = Some x → sum_list (<[i := y]> l) + x = sum_list l + y.
Proof.
  revert i. induction l as [|z l IH]; intros [|i] Hi; simplify_eq/=; [lia|].
  pose proof (IH i Hi). lia.
Qed.

Lemma steps_left_set_pc (ts : list (thread Value Err W)) t th p :
  ts !! t = Some th → steps_left p < steps_left (t_pc th) →
  sum_list ((λ th, steps_left (t_pc th)) <$> set_pc t p ts)
  < sum_list ((λ th, steps_left (t_pc th)) <$> ts).
Proof.
  intros Hth Hlt. unfold set_pc. rewrite Hth, list_fmap_insert. simpl.
  pose proof (sum_list_insert ((λ th, steps_left (t_pc th)) <$> ts) t
                (steps_left (t_pc th)) (steps_left p)) as Hsum.
  rewrite list_lookup_fmap, Hth in Hsum. specialize (Hsum eq_refl). lia.
Qed.

(** Every step takes the goroutine nearer to its return. *)
Lemma step_steps_left s t s' :
  step nilv nile t s = Some s' → all_steps_left s' < all_steps_left s.
Proof.
  unfold step, all_steps_left. destruct (threads s !! t) as [th|] eqn:Hth; [|done]. simpl.
  intros Hstep.
  destruct (t_pc th) as [| | |c|c|c|c|c|c|c|c|c|c|v e] eqn:Hpc;
    repeat (case_match; try done); simplify_option_eq;
    repeat (case_match; try done); simplify_eq/=;
    apply (steps_left_set_pc _ _ _ _ Hth); rewrite Hpc; simpl; lia.
Qed.

Lemma run_steps_left sched s s' :
  run nilv nile sched s = Some s' → length sched + all_steps_left s' ≤ all_steps_left s.
Proof.
  revert s. induction sched as [|t sched IH]; intros s Hrun; simpl in *.
  - injection Hrun as <-. lia.
  - destruct (step nilv nile t s) as [s1|] eqn:Hstep; [|done]. simpl in Hrun.
    pose proof (step_steps_left _ _ _ Hstep). pose proof (IH _ Hrun). lia.
Qed.

Lemma all_steps_left_init (args : list (string * @Fn Value Err W)) w :
  all_steps_left (init args w) = 10 * length args.
Proof.
  unfold all_steps_left. simpl. induction args as [|a l IH]; [done|].
  csimpl. rewrite IH. lia.
Qed.

Global Instance has_returned_dec p : Decision (has_returned p).
Proof. destruct p; simpl; apply _. Defined.

(** Unless every goroutine has returned, one of them can take a step. *)
Lemma sync_some_step s :
  sync_inv s →
  (∀ th, th ∈ threads s → has_returned (t_pc th)) ∨
  ∃ u s1, step nilv nile u s = Some s1.
Proof.
  intros Hinv.
  destruct (decide (Forall (λ th, has_returned (t_pc th)) (threads s))) as [Hall|Hsome].
  { left. by apply Forall_forall. }
  right. apply not_Forall_Exists in Hsome; [|apply _].
  apply Exists_exists in Hsome as (th & [t Hth]%list_elem_of_lookup_1 & Hnr).
  destruct (sync_progress s t th Hinv Hth Hnr)
    as [[s1 Hs1]|(u & thx & thu & _ & _ & _ & [s1 Hs1] & _)]; eauto.
Qed.

Lemma sync_terminates n s :
  sync_inv s → all_steps_left s ≤ n →
  ∃ sched s', run nilv nile sched s = Some s' ∧
              ∀ th, th ∈ threads s' → has_returned (t_pc th).
Proof.
  revert s. induction n as [|n IH]; intros s Hinv Hn;
    (destruct (sync_some_step s Hinv) as [Hall|(u & s1 & Hs1)];
     [by exists [], s|]);
    pose proof (step_steps_left _ _ _ Hs1) as Hlt; [lia|].
  destruct (IH s1) as (sched & s' & Hrun & Hall); [by eapply sync_step|lia|].
  exists (u :: sched), s'. simpl. rewrite Hs1. done.
Qed.

(** X9. The mutex is held by the goroutine that is between [g.mu.Lock()] and
    [g.mu.Unlock()], and by no other: two goroutines are never both there,
    and the lookup, the registration and the deletion in [g.m] are done by
    the holder of the mutex. *)
Theorem mutex_guards_registry args w s :
  reachable nilv nile args w s →
  (∀ t th, threads s !! t = Some th → holds_mutex (t_pc th) ↔ mu s = Some t) ∧
  (∀ t u tht thu, threads s !! t = Some tht → threads s !! u = Some thu →
     holds_mutex (t_pc tht) → holds_mutex (t_pc thu) → t = u) ∧
  (∀ t th, threads s !! t = Some th →
     t_pc th = AtLookup ∨ (∃ c, t_pc th = ExecDelete c) → mu s = Some t) ∧
  (mu s = None → ∀ th, th ∈ threads s → ¬ holds_mutex (t_pc th)).
Proof.
  intros Hinv%sync_reachable.
  assert (Hiff : ∀ t th, threads s !! t = Some th →
            holds_mutex (t_pc th) ↔ mu s = Some t).
  { intros t th Hth. split; [by apply (sync_held _ Hinv)|]. intros Hmu.
    destruct (sync_holder _ Hinv t Hmu) as (th' & Hth' & Hh). congruence. }
  split_and!.
  - exact Hiff.
  - intros t u tht thu Ht Hu Hht Hhu.
    apply (Hiff t tht Ht) in Hht. apply (Hiff u thu Hu) in Hhu. congruence.
  - intros t th Hth Hpc. apply (Hiff t th Hth).
    destruct Hpc as [->|[c ->]]; done.
  - intros Hmu th [t Hth]%list_elem_of_lookup_1 Hh.
    apply (Hiff t th Hth) in Hh. congruence.
Qed.

(** X10. The counter of the WaitGroup of a call record is 0 or 1; it is 1
    exactly while the goroutine that made the record is between
    [c.wg.Add(1)] and [c.wg.Done()], and there is one such goroutine at
    most; so [Done] is never called on a counter of 0. *)
Theorem WaitGroup_counter args w s :
  reachable nilv nile args w s →
  (∀ c cl, calls s !! c = Some cl →
     (wg cl = 0 ∨ wg cl = 1) ∧
     (wg cl = 1 ↔ ∃ t th, threads s !! t = Some th ∧ executing (t_pc th) c)) ∧
  (∀ t u tht thu c, threads s !! t = Some tht → threads s !! u = Some thu →
     executing (t_pc tht) c → executing (t_pc thu) c → t = u) ∧
  (∀ t th c, threads s !! t = Some th → t_pc th = ExecDone c →
     ∃ cl s', calls s !! c = Some cl ∧ wg cl = 1 ∧
              step nilv nile t s = Some s' ∧
              ∃ cl', calls s' !! c = Some cl' ∧ wg cl' = 0 ∧
                     val cl' = val cl ∧ err cl' = err cl).
Proof.
  intros Hinv%sync_reachable. split_and!.
  - intros c cl Hcl. split.
    + destruct (sync_wg _ Hinv c cl Hcl) as [?|[? _]]; auto.
    + split.
      * intros Hwg. destruct (sync_wg _ Hinv c cl Hcl) as [?|[_ ?]]; [lia|done].
      * intros (t & th & Hth & Hex). by apply (sync_exec _ Hinv t th c cl).
  - apply (sync_exec_inj _ Hinv).
  - intros t th c Hth Hpc.
    assert (Hex : executing (t_pc th) c) by (rewrite Hpc; unfold executing; auto).
    destruct (sync_alloc _ Hinv t th c Hth (executing_pc_call _ _ Hex)) as [cl Hcl].
    pose proof (sync_exec _ Hinv t th c cl Hth Hex Hcl) as Hwg.
    unfold step. rewrite Hth. simpl. rewrite Hpc, Hcl. simpl. rewrite Hwg.
    eexists cl, _. split_and!; [done|done|done|]. simpl.
    eexists. rewrite lookup_insert_eq. done.
Qed.

(** X11. With operations that return when they are called (an operation
    is a function here: it does not panic, run for ever or call [Do]
    itself): a goroutine that has not returned can take a step, or waits
    for the mutex or a WaitGroup on a goroutine that can take a step, and
    not both; a goroutine that has returned takes no step. So no statement
    of [Do] itself faults, and the calls never block each other for
    good. *)
Theorem Do_blocks_only_on_running_goroutine args w s t th :
  reachable nilv nile args w s →
  threads s !! t = Some th →
  (has_returned (t_pc th) → step nilv nile t s = None) ∧
  (¬ has_returned (t_pc th) → is_Some (step nilv nile t s) ∨ ∃ u, waits_for s t u) ∧
  (∀ u, waits_for s t u → step nilv nile t s = None ∧ is_Some (step nilv nile u s)).
Proof.
  intros Hinv%sync_reachable Hth. split_and!.
  - intros Hr. unfold step. rewrite Hth. simpl. by destruct (t_pc th).
  - by apply sync_progress.
  - intros u (th' & thu & Hth' & Hu & Hne & Hstep & Hwhy). split; [|done].
    rewrite Hth in Hth'. injection Hth' as <-. unfold step. rewrite Hth. simpl.
    destruct Hwhy as [(Hpc & Hmu & _)|(c & cl & Hpc & Hcl & Hwg & _)].
    + destruct Hpc as [->|[c ->]]; by rewrite Hmu.
    + rewrite Hpc, Hcl. simpl. rewrite bool_decide_eq_false_2; [done|]. lia.
Qed.

(** X12. From every state the calls can reach, the calls can all return; no run
    has more than ten steps for each call; and a state in which no
    goroutine can take a step is one in which every call has returned. *)
Theorem Do_terminates args w s :
  reachable nilv nile args w s →
  (∃ sched s', run nilv nile sched s = Some s' ∧
               ∀ th, th ∈ threads s' → has_returned (t_pc th)) ∧
  (∀ sched s', run nilv nile sched s = Some s' →
               length sched ≤ all_steps_left s ∧ all_steps_left s ≤ 10 * length args) ∧
  ((∀ t, step nilv nile t s = None) →
   ∀ th, th ∈ threads s → has_returned (t_pc th)).
Proof.
  intros Hreach. pose proof (sync_reachable _ _ _ Hreach) as Hinv. split_and!.
  - by apply (sync_terminates (all_steps_left s)).
  - intros sched s' Hrun. destruct Hreach as [sched0 Hrun0].
    pose proof (run_steps_left _ _ _ Hrun). pose proof (run_steps_left _ _ _ Hrun0) as H0.
    rewrite all_steps_left_init in H0. lia.
  - intros Hstuck. destruct (sync_some_step s Hinv) as [Hall|(u & s1 & Hs1)]; [done|].
    by rewrite Hstuck in Hs1.
Qed.

End progress.

(** ** Calls with different keys *)

Section keys.

Context {Value Err W : Type}.
Variable nilv : Value.
Variable nile : Err.
Implicit Types (s : State Value Err W) (th : thread Value Err W).

Definition key_of s (t : nat) : option string := t_key <$> threads s !! t.

(** A call record in the registry is filed under the key of the call that
    registered it, and a call that waits for a record has the key of the
    call that registered it. *)
Record key_inv s : Prop := {
  key_registry : ∀ k c, registry s k = Some c →
      ∃ t, EvRegister t c ∈ log s ∧ key_of s t = Some k;
  key_attach : ∀ u c, EvAttach u c ∈ log s →
      ∃ t k, EvRegister t c ∈ log s ∧ key_of s u = Some k ∧ key_of s t = Some k
}.

Local Arguments registry : simpl never.

Lemma key_of_set_pc s s' t p :
  threads s' = set_pc t p (threads s) → ∀ u, key_of s' u = key_of s u.
Proof.
  intros Hts u. unfold key_of. rewrite Hts. unfold set_pc.
  destruct (threads s !! t) as [th|] eqn:Hth; [|done].
  destruct (decide (t = u)) as [<-|Hne].
  - rewrite list_lookup_insert_eq by (by eapply lookup_lt_Some). by rewrite Hth.
  - by rewrite list_lookup_insert_ne.
Qed.

(** What a step does to the log and to the registry. *)
Lemma step_log_registry s t s' :
  step nilv nile t s = Some s' →
  (∀ u, key_of s' u = key_of s u) ∧
  (((log s' = log s ∨
     ∃ ev, log s' = log s ++ [ev] ∧
           (∀ u c, ev ≠ EvAttach u c) ∧ (∀ u c, ev ≠ EvRegister u c)) ∧
    (∀ k c, registry s' k = Some c → registry s k = Some c)) ∨
   (∃ c k, key_of s t = Some k ∧ registry s k = Some c ∧
           log s' = log s ++ [EvAttach t c] ∧
           ∀ k', registry s' k' = registry s k') ∨
   (∃ c k, key_of s t = Some k ∧
           log s' = log s ++ [EvRegister t c] ∧
           ∀ k', registry s' k' = if decide (k = k') then Some c else registry s k')).
Proof.
  unfold step. destruct (threads s !! t) as [th|] eqn:Hth; [|done]. simpl.
  assert (Hkey : key_of s t = Some (t_key th)) by (unfold key_of; by rewrite Hth).
  intros Hstep.
  destruct (t_pc th) as [| | |c|c|c|c|c|c|c|c|c|c|v e] eqn:Hpc;
    repeat (case_match; try done); simplify_option_eq;
    repeat (case_match; try done); simplify_eq/=;
    (split; [by eapply key_of_set_pc|]); simpl.
  - left. split; [right; eexists; split; [done|]; by split|done].
  - left. split; [by left|done].
  - right. left. eexists _, (t_key th). split_and!; [done| |done|].
    + unfold registry. destruct (m s); simpl in *; [done|].
      match goal with H : ∅ !! _ = Some _ |- _ => by rewrite lookup_empty in H end.
    + intros k'. by rewrite registry_hit.
  - right. right. exists (fresh (dom (calls s))), (t_key th). split_and!; [done|done|].
    intros k'. by rewrite registry_insert.
  - left. split; [by left|done].
  - left. split; [by left|done].
  - left. split; [right; eexists; split; [done|]; by split|done].
  - left. split; [by left|done].
  - left. split; [right; eexists; split; [done|]; by split|done].
  - left. split; [by left|done].
  - left. split; [by left|done].
  - left. split; [right; eexists; split; [done|]; by split|].
    intros k c'. rewrite registry_delete. by destruct (decide (t_key th = k)).
  - left. split; [by left|done].
  - left. split; [right; eexists; split; [done|]; by split|done].
Qed.

Lemma key_init (args : list (string * @Fn Value Err W)) w : key_inv (init args w).
Proof.
  split; simpl.
  - intros k c Hk. done.
  - intros u c Hin. by apply elem_of_nil in Hin.
Qed.

Lemma key_step s t s' : key_inv s → step nilv nile t s = Some s' → key_inv s'.
Proof.
  intros [Hreg Hatt] Hstep.
  destruct (step_log_registry s t s' Hstep) as [Hkey Hcases].
  assert (Hmono : ∀ ev, ev ∈ log s → ev ∈ log s').
  { intros ev Hev.
    destruct Hcases as [[[->|(ev' & -> & _)] _]|[(c & k & _ & _ & -> & _)|(c & k & _ & -> & _)]];
      try done; apply elem_of_app; by left. }
  destruct Hcases as [[Hlog Hsub]|[(c & k & Hk & Hin & Hlog & Hsame)|(c & k & Hk & Hlog & Hins)]].
  - split.
    + intros k c [t0 [Hr Ht0]]%Hsub%Hreg. exists t0. rewrite Hkey. auto.
    + intros u c Hin.
      assert (Hold : EvAttach u c ∈ log s).
      { destruct Hlog as [Hlog|(ev & Hlog & Hna & _)]; rewrite Hlog in Hin; [done|].
        apply elem_of_app in Hin as [?|Hin]; [done|].
        apply list_elem_of_singleton in Hin. by destruct (Hna u c). }
      destruct (Hatt u c Hold) as (t0 & k & ? & ? & ?). exists t0, k. rewrite !Hkey. auto.
  - split.
    + intros k' c'. rewrite Hsame. intros [t0 [Hr Ht0]]%Hreg. exists t0. rewrite Hkey. auto.
    + intros u c' Hin'. rewrite Hlog in Hin'. apply elem_of_app in Hin' as [Hold|Hnew].
      * destruct (Hatt u c' Hold) as (t0 & k0 & ? & ? & ?). exists t0, k0. rewrite !Hkey. auto.
      * apply list_elem_of_singleton in Hnew. injection Hnew as -> ->.
        destruct (Hreg k c Hin) as (t0 & Hr & Ht0). exists t0, k. rewrite !Hkey. auto.
  - split.
    + intros k' c'. rewrite Hins. destruct (decide (k = k')) as [<-|Hne].
      * intros [= <-]. exists t. rewrite Hkey, Hlog. split; [|done].
        apply elem_of_app. right. left.
      * intros [t0 [Hr Ht0]]%Hreg. exists t0. rewrite Hkey. auto.
    + intros u c' Hin'. rewrite Hlog in Hin'. apply elem_of_app in Hin' as [Hold|Hnew].
      * destruct (Hatt u c' Hold) as (t0 & k0 & ? & ? & ?). exists t0, k0. rewrite !Hkey. auto.
      * by apply list_elem_of_singleton in Hnew.
Qed.

Lemma key_reachable args w s : reachable nilv nile args w s → key_inv s.
Proof.
  intros [sched Hrun]. revert Hrun. generalize (key_init args w).
  generalize (init args w). induction sched as [|t sched IH]; intros s0 Hinv Hrun; simpl in Hrun.
  - by injection Hrun as <-.
  - destruct (step nilv nile t s0) as [s1|] eqn:Hstep; [|done]. simpl in Hrun.
    eapply IH; [|done]. by eapply key_step.
Qed.


End keys.

(** ** What the registry holds *)

Section registry.

Context {Value Err W : Type}.
Variable nilv : Value.
Variable nile : Err.
Implicit Types (s : State Value Err W) (th : thread Value Err W) (p : pc Value Err).

(** Every record in the registry is that of a call in progress, filed under
    the key of the call. *)
Definition owned s : Prop :=
  ∀ k c, registry s k = Some c →
         ∃ t th, threads s !! t = Some th ∧ t_key th = k ∧ in_window (t_pc th) c.

Local Arguments registry : simpl never.

Lemma owned_move s s' t th p' :
  owned s → threads s !! t = Some th →
  threads s' = set_pc t p' (threads s) →
  (∀ k c, registry s' k = Some c →
          registry s k = Some c ∧
          (k = t_key th → in_window (t_pc th) c → in_window p' c)) →
  owned s'.
Proof.
  intros Hown Hth Hts Hreg k c Hk. destruct (Hreg k c Hk) as [Hold Hwin].
  destruct (Hown k c Hold) as (u & thu & Hu & Hkey & Hw).
  destruct (decide (u = t)) as [->|Hne].
  - rewrite Hth in Hu. injection Hu as <-.
    exists t, (Thread (t_key th) (t_fn th) p'). rewrite Hts.
    split_and!; [by apply lookup_set_pc_eq|done|by apply Hwin].
  - exists u, thu. split; [|done]. rewrite Hts.
    rewrite lookup_set_pc_ne; [done|]. by intros ->.
Qed.

Ltac window_iff :=
  intros _; unfold in_window; intros [?|[?|[?|[?|?]]]]; simplify_eq; auto 10.

Lemma owned_step s t s' : owned s → step nilv nile t s = Some s' → owned s'.
Proof.
  intros Hown. unfold step. destruct (threads s !! t) as [th|] eqn:Hth; [|done]. simpl.
  intros Hstep.
  destruct (t_pc th) as [| | |c|c|c|c|c|c|c|c|c|c|v e] eqn:Hpc;
    repeat (case_match; try done); simplify_option_eq;
    repeat (case_match; try done); simplify_eq/=.
  - apply (owned_move s _ t th AtLock Hown Hth); [done|]. intros k c Hk.
    split; [done|]. rewrite Hpc. window_iff.
  - apply (owned_move s _ t th AtLookup Hown Hth); [done|]. intros k c Hk.
    split; [done|]. rewrite Hpc. window_iff.
  - eapply (owned_move s _ t th (WaiterUnlock _) Hown Hth); [done|]. intros k c Hk.
    rewrite registry_hit in Hk. split; [done|]. rewrite Hpc. window_iff.
  - (* the key is free: the call registers its record *)
    intros k c. rewrite registry_insert. destruct (decide (t_key th = k)) as [<-|Hne].
    + intros [= <-]. eexists t, _. split; [by apply lookup_set_pc_eq|].
      split; [done|]. by left.
    + intros Hk. destruct (Hown k c Hk) as (u & thu & Hu & Hkey & Hw).
      exists u, thu. split; [|done]. simpl. rewrite lookup_set_pc_ne; [done|].
      intros ->. rewrite Hth in Hu. injection Hu as <-.
      rewrite Hpc in Hw. by destruct Hw as [?|[?|[?|[?|?]]]].
  - apply (owned_move s _ t th (WaiterWait c) Hown Hth); [done|]. intros k c' Hk.
    split; [done|]. rewrite Hpc. window_iff.
  - apply (owned_move s _ t th (WaiterReturn c) Hown Hth); [done|]. intros k c' Hk.
    split; [done|]. rewrite Hpc. window_iff.
  - eapply (owned_move s _ t th (Returned _ _) Hown Hth); [done|]. intros k c' Hk.
    split; [done|]. rewrite Hpc. window_iff.
  - apply (owned_move s _ t th (ExecCall c) Hown Hth); [done|]. intros k c' Hk.
    split; [done|]. rewrite Hpc. window_iff.
  - apply (owned_move s _ t th (ExecDone c) Hown Hth); [done|]. intros k c' Hk.
    split; [done|]. rewrite Hpc. window_iff.
  - apply (owned_move s _ t th (ExecLock c) Hown Hth); [done|]. intros k c' Hk.
    split; [done|]. rewrite Hpc. window_iff.
  - apply (owned_move s _ t th (ExecDelete c) Hown Hth); [done|]. intros k c' Hk.
    split; [done|]. rewrite Hpc. window_iff.
  - apply (owned_move s _ t th (ExecUnlock2 c) Hown Hth); [done|]. intros k c'.
    rewrite registry_delete. destruct (decide (t_key th = k)); [done|].
    intros Hk. split; [done|]. intros ->. done.
  - apply (owned_move s _ t th (ExecReturn c) Hown Hth); [done|]. intros k c' Hk.
    split; [done|]. rewrite Hpc. window_iff.
  - eapply (owned_move s _ t th (Returned _ _) Hown Hth); [done|]. intros k c' Hk.
    split; [done|]. rewrite Hpc. window_iff.
Qed.

Lemma owned_reachable args w s : reachable nilv nile args w s → owned s.
Proof.
  intros [sched Hrun]. revert Hrun.
  assert (Hinit : owned (init args w)) by (intros k c Hk; done).
  revert Hinit. generalize (init args w).
  induction sched as [|t sched IH]; intros s0 Hown Hrun; simpl in Hrun.
  - by injection Hrun as <-.
  - destruct (step nilv nile t s0) as [s1|] eqn:Hstep; [|done]. simpl in Hrun.
    eapply IH; [|done]. by eapply owned_step.
Qed.

(** X14. The registry holds a record under a key exactly while a call with that
    key is between the registration of the record and its deletion; so
    once every call has returned, the registry holds nothing, and the mutex
    is free. *)
Theorem registry_holds_calls_in_progress args w s :
  reachable nilv nile args w s →
  (∀ k c, registry s k = Some c ↔
          ∃ t th, threads s !! t = Some th ∧ t_key th = k ∧ in_window (t_pc th) c) ∧
  ((∀ th, th ∈ threads s → has_returned (t_pc th)) →
   mu s = None ∧ ∀ k, registry s k = None).
Proof.
  intros Hreach. pose proof (owned_reachable _ _ _ Hreach) as Hown.
  pose proof (inv_reachable nilv nile args w s Hreach) as Hinv.
  pose proof (sync_reachable nilv nile _ _ _ Hreach) as Hsync.
  split.
  - intros k c. split; [apply Hown|]. intros (t & th & Hth & <- & Hw).
    pose proof (inv_threads _ _ Hinv t th Hth) as Ht. unfold thread_inv in Ht.
    destruct Hw as [Hp|[Hp|[Hp|[Hp|Hp]]]]; rewrite Hp in Ht; by destruct Ht as (_ & ? & _).
  - intros Hall. split.
    + destruct (mu s) as [t|] eqn:Hmu; [|done].
      destruct (sync_holder _ Hsync t Hmu) as (th & Hth & Hh).
      apply list_elem_of_lookup_2 in Hth. apply Hall in Hth.
      by destruct (t_pc th).
    + intros k. destruct (registry s k) as [c|] eqn:Hk; [|done].
      destruct (Hown k c Hk) as (t & th & Hth & _ & Hw).
      apply list_elem_of_lookup_2 in Hth. apply Hall in Hth.
      destruct Hw as [Hp|[Hp|[Hp|[Hp|Hp]]]]; by rewrite Hp in Hth.
Qed.

End registry.

(** ** Calls that share a key *)

Section shared.

Context {Value Err W : Type}.
Variable nilv : Value.
Variable nile : Err.
Implicit Types (s : State Value Err W) (th : thread Value Err W) (p : pc Value Err).
Implicit Types (ev : event Value Err) (args : list (string * @Fn Value Err W)).

(** The key of the call that goroutine [t] makes. *)
Definition call_key args (t : nat) : option string := fst <$> args !! t.

(** A call of the operation by a goroutine whose call has key [k]. *)
Definition is_invoke_by args (k : string) ev : Prop :=
  match ev with EvInvoke t _ _ _ => call_key args t = Some k | _ => False end.

Global Instance is_invoke_by_dec args k ev : Decision (is_invoke_by args k ev).
Proof. destruct ev; simpl; apply _. Defined.

(** Every record that was registered has been deleted by the call that
    registered it, or that call is between the registration and the
    deletion. *)
Definition closes s : Prop :=
  ∀ t c, EvRegister t c ∈ log s →
         EvUnregister t c ∈ log s ∨
         ∃ th, threads s !! t = Some th ∧ in_window (t_pc th) c.

Local Arguments registry : simpl never.

(** The step that tells the observer of an event is a step of the goroutine
    of the event, from the place in [Do] where the event happens. *)
Lemma step_event s t s' ev :
  step nilv nile t s = Some s' → log s' = log s ++ [ev] →
  event_thread ev = t ∧
  ∃ th, threads s !! t = Some th ∧
        match ev with
        | EvBegin _ => t_pc th = NotCalled
        | EvAttach _ c => t_pc th = AtLookup ∧ registry s (t_key th) = Some c
        | EvRegister _ c => t_pc th = AtLookup ∧ registry s (t_key th) = None
        | EvInvoke _ c _ _ => t_pc th = ExecCall c
        | EvUnregister _ c => t_pc th = ExecDelete c
        | EvEnd _ c _ _ => t_pc th = WaiterReturn c ∨ t_pc th = ExecReturn c
        end.
Proof.
  unfold step. destruct (threads s !! t) as [th|] eqn:Hth; [|done]. simpl.
  intros Hstep Hlog.
  assert (Hsilent : log s ≠ log s ++ [ev]).
  { intros Heq. apply (f_equal length) in Heq. rewrite length_app in Heq. simpl in Heq. lia. }
  destruct (t_pc th) as [| | |c|c|c|c|c|c|c|c|c|c|v e] eqn:Hpc;
    repeat (case_match; try done); simplify_option_eq;
    repeat (case_match; try done); simplify_eq/=;
    try (by destruct Hsilent);
    try (apply app_inj_tail in Hlog as [_ <-]); (split; [done|]); eexists;
    (split; [done|]); simpl; auto.
  - split; [done|]. unfold registry. destruct (m s); simpl in *; [done|].
    match goal with H : ∅ !! _ = Some _ |- _ => by rewrite lookup_empty in H end.
  - split; [done|]. unfold registry. by destruct (m s).
Qed.

Lemma step_log s t s' :
  step nilv nile t s = Some s' → log s' = log s ∨ ∃ ev, log s' = log s ++ [ev].
Proof.
  intros Hstep. destruct (step_log_registry nilv nile s t s' Hstep) as [_ Hcases].
  destruct Hcases as [[[?|(ev & ? & _)] _]|[(c & k & _ & _ & ? & _)|(c & k & _ & ? & _)]];
    eauto.
Qed.

(** The log of a reachable state has grown event by event: each of its
    events was added by a step from a reachable state. *)
Lemma prefix_step args w s l1 ev l2 :
  reachable nilv nile args w s → log s = l1 ++ ev :: l2 →
  ∃ s0 s1, reachable nilv nile args w s0 ∧ reachable nilv nile args w s1 ∧
           step nilv nile (event_thread ev) s0 = Some s1 ∧
           log s0 = l1 ∧ log s1 = l1 ++ [ev].
Proof.
  intros [sched Hrun]. revert s l2 Hrun.
  induction sched as [|t sched IH] using rev_ind; intros s l2 Hrun Hlog.
  - injection Hrun as <-. simpl in Hlog. by destruct l1.
  - rewrite run_snoc in Hrun.
    destruct (run nilv nile sched (init args w)) as [s'|] eqn:Hrun'; [|done].
    simpl in Hrun.
    assert (Hreach' : reachable nilv nile args w s') by (by exists sched).
    destruct (step_log s' t s Hrun) as [Hsame|[ev' Hnew]].
    + apply (IH s' l2 eq_refl). by rewrite <- Hsame.
    + rewrite Hlog in Hnew. symmetry in Hnew.
      apply snoc_eq_middle in Hnew as [(-> & -> & ->)|(l2' & -> & Hl)].
      * destruct (step_event s' t s ev' Hrun) as [Ht _]; [by rewrite Hlog|].
        exists s', s. rewrite Ht. split_and!; try done.
        by eapply reachable_step.
      * by apply (IH s' l2' eq_refl).
Qed.

Lemma prefix_reachable args w s l1 l2 :
  reachable nilv nile args w s → log s = l1 ++ l2 →
  ∃ s1, reachable nilv nile args w s1 ∧ log s1 = l1.
Proof.
  intros Hreach Hlog. destruct l2 as [|ev l2].
  - exists s. by rewrite app_nil_r in Hlog.
  - destruct (prefix_step args w s l1 ev l2 Hreach Hlog) as (s0 & _ & ? & _ & _ & ? & _).
    by exists s0.
Qed.

Lemma closes_move s s' t th p' :
  closes s → threads s !! t = Some th →
  threads s' = set_pc t p' (threads s) →
  (∀ ev, ev ∈ log s → ev ∈ log s') →
  (∀ u c, EvRegister u c ∈ log s' → EvRegister u c ∈ log s ∨ (u = t ∧ in_window p' c)) →
  (∀ c, in_window (t_pc th) c → in_window p' c ∨ EvUnregister t c ∈ log s') →
  closes s'.
Proof.
  intros Hcl Hth Hts Hmono Hreg Hwin u c Hin.
  assert (Hnew : threads s' !! t = Some (Thread (t_key th) (t_fn th) p')).
  { rewrite Hts. by apply lookup_set_pc_eq. }
  destruct (Hreg u c Hin) as [Hold|[-> Hw]]; [|right; eauto].
  destruct (Hcl u c Hold) as [Hun|(thu & Hu & Hw)]; [left; by apply Hmono|].
  destruct (decide (u = t)) as [->|Hne].
  - rewrite Hth in Hu. injection Hu as <-.
    destruct (Hwin c Hw) as [Hw'|Hun]; [right; eauto|by left].
  - right. exists thu. split; [|done]. rewrite Hts. rewrite lookup_set_pc_ne; [done|].
    by intros ->.
Qed.

Ltac window_next :=
  unfold in_window; intros ? [?|[?|[?|[?|?]]]]; simplify_eq; auto 10.

Lemma closes_step s t s' : closes s → step nilv nile t s = Some s' → closes s'.
Proof.
  intros Hcl. unfold step. destruct (threads s !! t) as [th|] eqn:Hth; [|done]. simpl.
  intros Hstep.
  destruct (t_pc th) as [| | |c|c|c|c|c|c|c|c|c|c|v e] eqn:Hpc;
    repeat (case_match; try done); simplify_option_eq;
    repeat (case_match; try done); simplify_eq/=;
    (eapply (closes_move s _ t th _ Hcl Hth); [done|simpl..]);
    try (intros ev0 Hev0; first [exact Hev0|apply elem_of_snoc; by left]);
    try (intros u c0 Hin; first [by left|apply elem_of_snoc in Hin as [?|Hin]; [by left|];
                                 first [discriminate Hin|
                                        injection Hin as -> ->; right; split; [done|by left]]]);
    try (rewrite Hpc; window_next).
  right. apply elem_of_snoc. by right.
Qed.

Lemma closes_reachable args w s : reachable nilv nile args w s → closes s.
Proof.
  intros [sched Hrun]. revert Hrun.
  assert (Hinit : closes (init args w)) by (intros t c Hin; by apply elem_of_nil in Hin).
  revert Hinit. generalize (init args w).
  induction sched as [|t sched IH]; intros s0 Hcl Hrun; simpl in Hrun.
  - by injection Hrun as <-.
  - destruct (step nilv nile t s0) as [s1|] eqn:Hstep; [|done]. simpl in Hrun.
    eapply IH; [|done]. by eapply closes_step.
Qed.

Lemma filter_agree (P Q : event Value Err → Prop)
    `{∀ x, Decision (P x)} `{∀ x, Decision (Q x)} (l : list (event Value Err)) :
  (∀ x, x ∈ l → P x ↔ Q x) → filter P l = filter Q l.
Proof.
  induction l as [|x l IH]; intros Hiff; [done|]. rewrite !filter_cons.
  rewrite IH by (intros y Hy; apply Hiff; by right).
  destruct (decide (P x)) as [HP|HP], (decide (Q x)) as [HQ|HQ]; try done.
  - destruct HQ. apply Hiff; [by left|done].
  - destruct HP. apply Hiff; [by left|done].
Qed.

(** The key of a goroutine's call is the key it was given. *)
Lemma call_key_thread args s t k :
  inv args s → call_key args t = Some k ↔ ∃ th, threads s !! t = Some th ∧ t_key th = k.
Proof.
  intros Hinv. unfold call_key. rewrite <- (inv_args _ _ Hinv), list_lookup_fmap.
  destruct (threads s !! t) as [th|]; simpl.
  - split; [intros [= <-]; eauto|intros (? & [= <-] & <-); done].
  - split; [done|intros (? & ? & _); done].
Qed.

Lemma call_key_of args s t : inv args s → call_key args t = key_of s t.
Proof.
  intros Hinv. unfold call_key, key_of.
  rewrite <- (inv_args _ _ Hinv), list_lookup_fmap. by destruct (threads s !! t).
Qed.

(** A goroutine between the registration and the deletion of [c] has [c]
    in the registry under its key. *)
Lemma window_registry args s t th c :
  inv args s → threads s !! t = Some th → in_window (t_pc th) c →
  EvRegister t c ∈ log s ∧ registry s (t_key th) = Some c.
Proof.
  intros Hinv Hth Hw. pose proof (inv_threads _ _ Hinv t th Hth) as Ht.
  unfold thread_inv in Ht. destruct Hw as [Hp|[Hp|[Hp|[Hp|Hp]]]]; rewrite Hp in Ht;
    by destruct Ht as (? & ? & _).
Qed.

(** While no call with key [k] has deleted its record, the calls with key
    [k] have registered at most one record. *)
Lemma one_record_per_key args w s k :
  reachable nilv nile args w s →
  (∀ t c, call_key args t = Some k → EvUnregister t c ∉ log s) →
  ∀ t u c c', call_key args t = Some k → call_key args u = Some k →
              EvRegister t c ∈ log s → EvRegister u c' ∈ log s → c = c'.
Proof.
  intros Hreach Hno t u c c' Ht Hu Hrt Hru.
  pose proof (inv_reachable nilv nile args w s Hreach) as Hinv.
  pose proof (closes_reachable args w s Hreach) as Hcl.
  destruct (Hcl t c Hrt) as [Hun|(tht & Htht & Hwt)]; [by destruct (Hno t c Ht)|].
  destruct (Hcl u c' Hru) as [Hun|(thu & Hthu & Hwu)]; [by destruct (Hno u c' Hu)|].
  destruct (window_registry args s t tht c Hinv Htht Hwt) as [_ Hkt].
  destruct (window_registry args s u thu c' Hinv Hthu Hwu) as [_ Hku].
  apply (call_key_thread args s t k Hinv) in Ht as (tht' & Ht' & Hk1).
  apply (call_key_thread args s u k Hinv) in Hu as (thu' & Hu' & Hk2).
  rewrite Htht in Ht'. injection Ht' as <-. rewrite Hthu in Hu'. injection Hu' as <-.
  rewrite Hk1 in Hkt. rewrite Hk2 in Hku. congruence.
Qed.

(** The operation is not called for a record after the record was
    deleted. *)
Lemma invoke_before_unregister args w s l1 l2 t c u v e :
  reachable nilv nile args w s →
  log s = l1 ++ EvUnregister t c :: l2 → EvInvoke u c v e ∉ l2.
Proof.
  intros Hreach Hlog Hin. apply list_elem_of_split in Hin as (la & lb & ->).
  assert (Hlog' : log s = (l1 ++ EvUnregister t c :: la) ++ EvInvoke u c v e :: lb).
  { by rewrite Hlog, <- app_assoc. }
  destruct (prefix_step args w s _ _ _ Hreach Hlog') as (s0 & s1 & Hr0 & _ & Hstep & Hl0 & Hl1).
  destruct (step_event s0 _ s1 (EvInvoke u c v e) Hstep) as (_ & th & Hth & Hpc);
    [by rewrite Hl0, Hl1|].
  pose proof (inv_reachable nilv nile args w s0 Hr0) as Hinv0. simpl in Hth.
  destruct (window_registry args s0 u th c Hinv0 Hth) as [_ Hk].
  { rewrite Hpc. right. by left. }
  assert (Hun : EvUnregister t c ∈ log s0).
  { rewrite Hl0. apply elem_of_app. right. left. }
  by destruct (proj2 (inv_unreg _ _ Hinv0 t c Hun) (t_key th)).
Qed.

(** A call that looks its key up after a call with that key has deleted
    its record finds, or registers, a record that was registered after the
    deletion. *)
Lemma lookup_after_unregister args w s k l1 l2 t c u cu :
  reachable nilv nile args w s →
  log s = l1 ++ EvUnregister t c :: l2 →
  call_key args t = Some k → call_key args u = Some k →
  EvAttach u cu ∈ l2 ∨ EvRegister u cu ∈ l2 →
  cu ≠ c ∧
  (∃ u', call_key args u' = Some k ∧ EvRegister u' cu ∈ l2) ∧
  (∀ u', EvRegister u' cu ∉ l1).
Proof.
  intros Hreach Hlog Ht Hu Hlook.
  pose proof (inv_reachable nilv nile args w s Hreach) as Hinv.
  (* the state in which the record is deleted *)
  destruct (prefix_step args w s _ _ _ Hreach Hlog)
    as (sd0 & sd1 & Hrd0 & _ & Hstepd & Hld0 & Hld1).
  pose proof (inv_reachable nilv nile args w sd0 Hrd0) as Hinvd.
  pose proof (closes_reachable args w sd0 Hrd0) as Hcld.
  destruct (step_event sd0 _ sd1 (EvUnregister t c) Hstepd) as (_ & tht & Htht & Hpct);
    [by rewrite Hld0, Hld1|]. simpl in Htht.
  destruct (window_registry args sd0 t tht c Hinvd Htht) as [Hrt Hkt].
  { rewrite Hpct. unfold in_window. auto 10. }
  assert (Hktht : t_key tht = k).
  { apply (call_key_thread args sd0 t k Hinvd) in Ht as (? & Ht' & <-). congruence. }
  rewrite Hld0 in Hrt. rewrite Hktht in Hkt.
  (* the state in which the key is looked up *)
  assert (∃ la lb evl, l2 = la ++ evl :: lb ∧ (evl = EvAttach u cu ∨ evl = EvRegister u cu))
    as (la & lb & evl & -> & Hevl).
  { destruct Hlook as [Hin|Hin]; apply list_elem_of_split in Hin as (la & lb & ->); eauto 10. }
  assert (Hlog' : log s = (l1 ++ EvUnregister t c :: la) ++ evl :: lb).
  { by rewrite Hlog, <- app_assoc. }
  destruct (prefix_step args w s _ _ _ Hreach Hlog')
    as (s0 & s1 & Hr0 & _ & Hstep & Hl0 & Hl1).
  pose proof (inv_reachable nilv nile args w s0 Hr0) as Hinv0.
  pose proof (key_reachable nilv nile args w s0 Hr0) as Hkey0.
  assert (Hun0 : EvUnregister t c ∈ log s0).
  { rewrite Hl0. apply elem_of_app. right. left. }
  assert (Hsub : ∀ ev, ev ∈ l1 → ev ∈ log s0).
  { intros ev Hev. rewrite Hl0. apply elem_of_app. by left. }
  assert (Hsubs : ∀ ev, ev ∈ log s0 → ev ∈ log s).
  { intros ev Hev. rewrite Hlog'. apply elem_of_app. left. by rewrite <- Hl0. }
  destruct (step_event s0 _ s1 evl Hstep) as (_ & thu & Hthu & Hpcu);
    [by rewrite Hl0, Hl1|].
  assert (Hkthu : event_thread evl = u → t_key thu = k).
  { intros Heq. rewrite Heq in Hthu.
    apply (call_key_thread args s0 u k Hinv0) in Hu as (? & Hu' & <-). congruence. }
  assert (Hla : ∀ ev, ev ∈ log s0 → ev ∉ l1 → (∀ t' c', ev ≠ EvUnregister t' c') → ev ∈ la).
  { intros ev Hev Hn1 Hne. rewrite Hl0 in Hev. apply elem_of_app in Hev as [?|Hev]; [done|].
    apply elem_of_cons in Hev as [->|?]; [by destruct (Hne t c)|done]. }
  assert (Hl2 : ∀ ev, ev ∈ la → ev ∈ la ++ evl :: lb).
  { intros ev Hev. apply elem_of_app. by left. }
  destruct Hevl as [-> | ->]; simpl in Hthu, Hpcu; destruct Hpcu as [Hpcu Hku];
    rewrite (Hkthu eq_refl) in Hku.
  - (* the call finds a record *)
    assert (Hne : cu ≠ c).
    { intros ->. by destruct (proj2 (inv_unreg _ _ Hinv0 t c Hun0) k). }
    destruct (key_registry _ Hkey0 k cu Hku) as (u' & Hru' & Hku').
    rewrite <- (call_key_of args s0 u' Hinv0) in Hku'.
    assert (Hn1 : ∀ u'', EvRegister u'' cu ∉ l1).
    { intros u'' Hin.
      assert (u'' = u') as ->.
      { apply (inv_reg_fun _ _ Hinv0 u'' u' cu); [by apply Hsub|done]. }
      rewrite <- Hld0 in Hin.
      destruct (Hcld u' cu Hin) as [Hun|(thu' & Hthu' & Hw)].
      - rewrite Hld0 in Hun. apply Hsub in Hun.
        by destruct (proj2 (inv_unreg _ _ Hinv0 u' cu Hun) k).
      - destruct (window_registry args sd0 u' thu' cu Hinvd Hthu' Hw) as [_ Hk'].
        apply (call_key_thread args sd0 u' k Hinvd) in Hku' as (? & Hu'' & Hk'').
        rewrite Hthu' in Hu''. injection Hu'' as <-. rewrite Hk'' in Hk'. congruence. }
    split_and!; [done| |done].
    exists u'. split; [done|]. apply Hl2, Hla; [done|apply Hn1|done].
  - (* the call registers a record *)
    pose proof (inv_threads _ _ Hinv0 u thu Hthu) as Hti. unfold thread_inv in Hti.
    rewrite Hpcu in Hti.
    assert (Hnew : EvRegister u cu ∈ log s).
    { rewrite Hlog'. apply elem_of_app. right. left. }
    assert (Hn1 : ∀ u'', EvRegister u'' cu ∉ l1).
    { intros u'' Hin.
      assert (u'' = u) as ->.
      { apply (inv_reg_fun _ _ Hinv u'' u cu); [by apply Hsubs, Hsub|done]. }
      by destruct (proj2 (Hti cu) (Hsub _ Hin)). }
    split_and!; [|exists u; split; [done|]; apply elem_of_app; right; left|done].
    intros ->. by destruct (Hn1 t).
Qed.

(** C4, as amended. In every state that calls of [Do] can reach, in any
    interleaving, whatever other keys are in use: two calls with one key
    are never both between the registration and the deletion of a record;
    a call that joined a record has not called the operation; a call that
    has returned with record [c] returns the pair of the one call of the
    operation made for [c], so all calls that share a record return one
    pair. When every lookup by the calls with key [k] comes before the first
    deletion by one of them, the operation is called at most once by the
    calls with key [k] (exactly once if one of them has returned) and those
    that have returned return the same pair. A call with key [k] that looks
    the key up after a call with key [k] has deleted its record [c] gets
    another record, registered after the deletion; the operation is called
    for [c] before the deletion and for the other record after it, and the
    call returns the pair of that later call of the operation. *)
Theorem Do_shared_call args w s :
  reachable nilv nile args w s →
  (∀ t u tht thu c c',
     threads s !! t = Some tht → threads s !! u = Some thu →
     t_key tht = t_key thu →
     in_window (t_pc tht) c → in_window (t_pc thu) c' → t = u) ∧
  (∀ t c c' v e, EvAttach t c ∈ log s → EvInvoke t c' v e ∉ log s) ∧
  (∀ t c v e, EvEnd t c v e ∈ log s →
     ∃ u, EvRegister u c ∈ log s ∧ EvInvoke u c v e ∈ log s ∧
          length (filter (is_invoke_of c) (log s)) = 1) ∧
  (∀ t u c v e v' e',
     EvEnd t c v e ∈ log s → EvEnd u c v' e' ∈ log s → v = v' ∧ e = e') ∧
  (∀ k l1 l2,
     (∀ a, a ∈ args → a.1 = k) →
     log s = l1 ++ l2 →
     (∀ t c, EvUnregister t c ∉ l1) →
     (∀ t c, (EvRegister t c ∉ l2) ∧ (EvAttach t c ∉ l2)) →
     length (filter is_invoke (log s)) ≤ 1 ∧
     (∀ t u c c' v e v' e',
        EvEnd t c v e ∈ log s → EvEnd u c' v' e' ∈ log s → c = c' ∧ v = v' ∧ e = e') ∧
     ((∃ t c v e, EvEnd t c v e ∈ log s) → length (filter is_invoke (log s)) = 1)) ∧
  (∀ k l1 l2,
     log s = l1 ++ l2 →
     (∀ t c, call_key args t = Some k → EvUnregister t c ∉ l1) →
     (∀ t c, call_key args t = Some k → (EvRegister t c ∉ l2) ∧ (EvAttach t c ∉ l2)) →
     length (filter (is_invoke_by args k) (log s)) ≤ 1 ∧
     (∀ t u c c' v e v' e',
        call_key args t = Some k → call_key args u = Some k →
        EvEnd t c v e ∈ log s → EvEnd u c' v' e' ∈ log s → c = c' ∧ v = v' ∧ e = e') ∧
     ((∃ t c v e, call_key args t = Some k ∧ EvEnd t c v e ∈ log s) →
      length (filter (is_invoke_by args k) (log s)) = 1)) ∧
  (∀ k l1 l2 t c u cu,
     log s = l1 ++ EvUnregister t c :: l2 →
     call_key args t = Some k → call_key args u = Some k →
     EvAttach u cu ∈ l2 ∨ EvRegister u cu ∈ l2 →
     cu ≠ c ∧
     (∃ u', call_key args u' = Some k ∧ EvRegister u' cu ∈ l2) ∧
     (∀ u', EvRegister u' cu ∉ l1) ∧
     (∀ u' v e, EvInvoke u' cu v e ∉ l1) ∧
     (∀ t' v e, EvInvoke t' c v e ∉ l2) ∧
     (∀ cu' v e, EvEnd u cu' v e ∈ log s →
        cu' = cu ∧
        ∃ u', call_key args u' = Some k ∧ EvInvoke u' cu v e ∈ l2)).
Proof.
  intros Hreach. pose proof (inv_reachable nilv nile args w s Hreach) as Hinv.
  pose proof (key_reachable nilv nile args w s Hreach) as Hkey.
  assert (Hpair : ∀ t u c v e v' e',
            EvEnd t c v e ∈ log s → EvEnd u c v' e' ∈ log s → v = v' ∧ e = e').
  { intros t u c v e v' e' Ht Hu.
    destruct (inv_end _ _ Hinv t c v e Ht) as ([t1 Ht1] & _).
    destruct (inv_end _ _ Hinv u c v' e' Hu) as ([u1 Hu1] & _).
    destruct (inv_invoke _ _ Hinv t1 c v e Ht1) as (_ & (cl & Hcl & <- & <-) & _).
    destruct (inv_invoke _ _ Hinv u1 c v' e' Hu1) as (_ & (cl' & Hcl' & <- & <-) & _).
    assert (cl' = cl) as -> by congruence. done. }
  split_and!.
  - intros t u tht thu c c' Ht Hu Hk Hwt Hwu.
    destruct (window_registry args s t tht c Hinv Ht Hwt) as [Hrt Hkt].
    destruct (window_registry args s u thu c' Hinv Hu Hwu) as [Hru Hku].
    rewrite Hk, Hku in Hkt. injection Hkt as ->. by eapply inv_reg_fun.
  - intros t c c' v e Ha Hi. destruct (inv_invoke _ _ Hinv t c' v e Hi) as (Hr & _).
    by eapply inv_role.
  - intros t c v e Hend. destruct (inv_end _ _ Hinv t c v e Hend) as ([u Hu] & _).
    destruct (inv_invoke _ _ Hinv u c v e Hu) as (Hr & _).
    exists u. split_and!; [done|done|by eapply invoke_count_one].
  - exact Hpair.
  - intros k l1 l2 Hkey1 Hlog Hno1 Hno2.
    assert (Hkeys : ∀ t a, args !! t = Some a → a.1 = k).
    { intros t a Ha. apply Hkey1. by eapply list_elem_of_lookup_2. }
    assert (Hsame : ∀ t u c c', EvRegister t c ∈ log s → EvRegister u c' ∈ log s → c = c').
    { intros t u c c' Ht Hu.
      destruct (inv_reg_alloc _ _ Hinv t c Ht) as [_ [a Ha]].
      destruct (inv_reg_alloc _ _ Hinv u c' Hu) as [_ [b Hb]].
      assert (Ht1 : EvRegister t c ∈ l1).
      { rewrite Hlog in Ht. apply elem_of_app in Ht as [?|Ht]; [done|]. by destruct (Hno2 t c). }
      assert (Hu1 : EvRegister u c' ∈ l1).
      { rewrite Hlog in Hu. apply elem_of_app in Hu as [?|Hu]; [done|]. by destruct (Hno2 u c'). }
      eapply (inv_single _ _ Hinv l1 l2 Hlog Hno1); [exact Ht1|exact Hu1|exact Ha|exact Hb|].
      by rewrite (Hkeys t a Ha), (Hkeys u b Hb). }
    assert (Hcalls : ∀ t u c c' v e v' e',
              EvInvoke t c v e ∈ log s → EvInvoke u c' v' e' ∈ log s → c = c').
    { intros t u c c' v e v' e' Ht Hu.
      destruct (inv_invoke _ _ Hinv t c v e Ht) as (Hrt & _).
      destruct (inv_invoke _ _ Hinv u c' v' e' Hu) as (Hru & _). by eapply Hsame. }
    assert (Hone : ∀ u c v e, EvInvoke u c v e ∈ log s →
                              length (filter is_invoke (log s)) = 1).
    { intros u c v e Hin. rewrite (filter_invoke_of _ c).
      - by eapply invoke_count_one.
      - intros u' c' v' e' Hin'. by eapply Hcalls. }
    split_and!.
    + destruct (filter is_invoke (log s)) as [|ev l] eqn:Hf; [simpl; lia|].
      assert (Hev : ev ∈ filter is_invoke (log s)) by (rewrite Hf; left).
      apply list_elem_of_filter in Hev as [Hi Hev].
      destruct ev as [| | |u c v e| |]; try done.
      pose proof (Hone u c v e Hev) as Hlen. try rewrite Hf in Hlen.
      simpl in *. lia.
    + intros t u c c' v e v' e' Ht Hu.
      destruct (inv_end _ _ Hinv t c v e Ht) as ([t1 Ht1] & _).
      destruct (inv_end _ _ Hinv u c' v' e' Hu) as ([u1 Hu1] & _).
      assert (c = c') as <- by (by eapply Hcalls). split; [done|]. by eapply Hpair.
    + intros (t & c & v & e & Hend).
      destruct (inv_end _ _ Hinv t c v e Hend) as ([t1 Ht1] & _). by eapply Hone.
  - intros k l1 l2 Hlog Hno1 Hno2.
    destruct (prefix_reachable args w s l1 l2 Hreach Hlog) as (s1 & Hr1 & Hl1).
    assert (Hin1 : ∀ t c, call_key args t = Some k → EvRegister t c ∈ log s →
                          EvRegister t c ∈ log s1).
    { intros t c Hk Hin. rewrite Hlog in Hin. rewrite Hl1.
      apply elem_of_app in Hin as [?|Hin]; [done|]. by destruct (proj1 (Hno2 t c Hk)). }
    assert (Hsame : ∀ t u c c', call_key args t = Some k → call_key args u = Some k →
                      EvRegister t c ∈ log s → EvRegister u c' ∈ log s → c = c').
    { intros t u c c' Ht Hu Hrt Hru.
      apply (one_record_per_key args w s1 k Hr1) with t u; auto.
      intros t' c'' Hk'. rewrite Hl1. by apply Hno1. }
    assert (Hrec : ∀ t c v e, call_key args t = Some k → EvEnd t c v e ∈ log s →
                     ∃ u, call_key args u = Some k ∧ EvRegister u c ∈ log s ∧
                          EvInvoke u c v e ∈ log s).
    { intros t c v e Hk Hend. destruct (inv_end _ _ Hinv t c v e Hend) as ([u Hu] & Hrole).
      destruct (inv_invoke _ _ Hinv u c v e Hu) as (Hru & _).
      exists u. split_and!; [|done|done].
      destruct Hrole as [Ha|[Hr _]].
      - destruct (key_attach _ Hkey t c Ha) as (t0 & k0 & Hr0 & Hkt & Hk0).
        assert (t0 = u) as -> by (by eapply inv_reg_fun).
        rewrite (call_key_of args s t Hinv) in Hk. rewrite (call_key_of args s u Hinv).
        congruence.
      - assert (u = t) as -> by (by eapply inv_reg_fun). done. }
    assert (Hone : ∀ u c v e, call_key args u = Some k → EvInvoke u c v e ∈ log s →
                     length (filter (is_invoke_by args k) (log s)) = 1).
    { intros u c v e Hk Hin. rewrite (filter_agree _ (is_invoke_of c)).
      - by eapply invoke_count_one.
      - intros ev Hev. destruct ev as [| | |u' c' v' e'| |]; try done. simpl.
        destruct (inv_invoke _ _ Hinv u c v e Hin) as (Hru & _).
        destruct (inv_invoke _ _ Hinv u' c' v' e' Hev) as (Hru' & _). split.
        + intros Hk'. by apply (Hsame u' u).
        + intros ->. assert (u' = u) as -> by (by eapply inv_reg_fun). done. }
    split_and!.
    + destruct (filter (is_invoke_by args k) (log s)) as [|ev l] eqn:Hf; [simpl; lia|].
      assert (Hev : ev ∈ filter (is_invoke_by args k) (log s)) by (rewrite Hf; left).
      apply list_elem_of_filter in Hev as [Hi Hev].
      destruct ev as [| | |u c v e| |]; try done.
      pose proof (Hone u c v e Hi Hev) as Hlen. try rewrite Hf in Hlen.
      simpl in *. lia.
    + intros t u c c' v e v' e' Hkt Hku Ht Hu.
      destruct (Hrec t c v e Hkt Ht) as (t1 & Hk1 & Hr1' & _).
      destruct (Hrec u c' v' e' Hku Hu) as (u1 & Hk2 & Hr2 & _).
      assert (c = c') as <- by (by apply (Hsame t1 u1)). split; [done|]. by eapply Hpair.
    + intros (t & c & v & e & Hk & Hend).
      destruct (Hrec t c v e Hk Hend) as (u & Hku & _ & Hu). by eapply Hone.
  - intros k l1 l2 t c u cu Hlog Hkt Hku Hlook.
    destruct (lookup_after_unregister args w s k l1 l2 t c u cu Hreach Hlog Hkt Hku Hlook)
      as (Hne & (u' & Hku' & Hru') & Hn1).
    destruct (prefix_reachable args w s l1 _ Hreach Hlog) as (s1 & Hr1 & Hl1).
    pose proof (inv_reachable nilv nile args w s1 Hr1) as Hinv1.
    assert (Hi1 : ∀ u'' v e, EvInvoke u'' cu v e ∉ l1).
    { intros u'' v e Hin. rewrite <- Hl1 in Hin.
      destruct (inv_invoke _ _ Hinv1 u'' cu v e Hin) as (Hr & _). rewrite Hl1 in Hr.
      by destruct (Hn1 u''). }
    assert (Hl2 : ∀ ev, ev ∈ l2 → ev ∈ log s).
    { intros ev Hev. rewrite Hlog. apply elem_of_app. right. by right. }
    split_and!; [done|by eauto|done|done| |].
    + intros t' v e. apply (invoke_before_unregister args w s l1 l2 t c t' v e Hreach Hlog).
    + intros cu' v e Hend.
      destruct (inv_end _ _ Hinv u cu' v e Hend) as ([u1 Hu1] & Hrole).
      assert (cu' = cu) as ->.
      { destruct Hlook as [Ha%Hl2|Hr%Hl2]; destruct Hrole as [Ha'|[Hr' _]].
        - exact (inv_attach_once _ _ Hinv u cu' cu Ha' Ha).
        - by destruct (inv_role _ _ Hinv u cu cu' Ha Hr').
        - by destruct (inv_role _ _ Hinv u cu' cu Ha' Hr).
        - exact (inv_reg_once _ _ Hinv u cu' cu Hr' Hr). }
      split; [done|]. exists u1.
      destruct (inv_invoke _ _ Hinv u1 cu v e Hu1) as (Hr1' & _).
      assert (u1 = u') as ->.
      { exact (inv_reg_fun _ _ Hinv u1 u' cu Hr1' (Hl2 _ Hru')). }
      split; [done|]. rewrite Hlog in Hu1.
      apply elem_of_app in Hu1 as [Hin|Hin]; [by destruct (Hi1 u' v e)|].
      by apply elem_of_cons in Hin as [?|?].
Qed.

End shared.

(** ** Two calls with one key *)

(** Two goroutines call [Do] with the key ["k"] and an operation that counts
    its calls in the world and returns the count. *)
Definition count : @Fn nat string nat := λ w, (S w, "", S w).

Definition two_calls : list (string * @Fn nat string nat) :=
  [("k", count); ("k", count)].

Definition final (sched : list nat) : State nat string nat :=
  default (init two_calls 0) (run 0 "" sched (init two_calls 0)).


(** The second call looks the key up while the first is running the
    operation. *)
Definition joined : list nat := [0; 0; 0; 0; 1; 1; 1; 1; 0; 0; 1; 0; 0; 0; 0; 1].

(** Both calls have begun; the first runs up to its deletion of the record
    before the second takes the mutex. *)
Definition overlapping : list nat := [1; 0] ++ replicate 8 0 ++ replicate 9 1 ++ [0].

(** Two calls with the key ["k"] and one with the key ["j"]. *)
Definition three_calls : list (string * @Fn nat string nat) :=
  [("k", count); ("k", count); ("j", count)].

Definition final3 (sched : list nat) : State nat string nat :=
  default (init three_calls 0) (run 0 "" sched (init three_calls 0)).

(** The call with the key ["j"] runs alone; then the two calls with the
    key ["k"] run as in [joined]. *)
Definition beside : list nat := solo 2 ++ joined.

Lemma reachable_final sched :
  is_Some (run 0 "" sched (init two_calls 0)) →
  reachable 0 "" two_calls 0 (final sched).
Proof. intros [s Hs]. exists sched. unfold final. by rewrite Hs. Qed.

Lemma two_calls_key a : a ∈ two_calls → a.1 = "k".
Proof.
  unfold two_calls. intros Ha.
  repeat (apply elem_of_cons in Ha as [->|Ha]; [done|]). by apply elem_of_nil in Ha.
Qed.



Lemma reachable_joined : reachable 0 "" two_calls 0 (final joined).
Proof. apply reachable_final. vm_compute. by eexists. Qed.

Lemma log_joined :
  log (final joined) =
  [EvBegin 0; EvRegister 0 0; EvBegin 1; EvAttach 1 0] ++
  [EvInvoke 0 0 1 ""; EvUnregister 0 0; EvEnd 0 0 1 ""; EvEnd 1 0 1 ""].
Proof. vm_compute. reflexivity. Qed.

Lemma returned_joined :
  t_pc <$> threads (final joined) = [Returned 1 ""; Returned 1 ""].
Proof. vm_compute. reflexivity. Qed.

Lemma reachable_overlapping : reachable 0 "" two_calls 0 (final overlapping).
Proof. apply reachable_final. vm_compute. by eexists. Qed.

Lemma log_overlapping :
  log (final overlapping) =
  [EvBegin 1; EvBegin 0; EvRegister 0 0; EvInvoke 0 0 1 ""; EvUnregister 0 0;
   EvRegister 1 1; EvInvoke 1 1 2 ""; EvUnregister 1 1; EvEnd 1 1 2 "";
   EvEnd 0 0 1 ""].
Proof. vm_compute. reflexivity. Qed.

Lemma returned_overlapping :
  t_pc <$> threads (final overlapping) = [Returned 1 ""; Returned 2 ""].
Proof. vm_compute. reflexivity. Qed.

Lemma reachable_beside : reachable 0 "" three_calls 0 (final3 beside).
Proof. exists beside. vm_compute. reflexivity. Qed.

Lemma log_beside :
  log (final3 beside) =
  [EvBegin 2; EvRegister 2 0; EvInvoke 2 0 1 ""; EvUnregister 2 0; EvEnd 2 0 1 "";
   EvBegin 0; EvRegister 0 1; EvBegin 1; EvAttach 1 1] ++
  [EvInvoke 0 1 2 ""; EvUnregister 0 1; EvEnd 0 1 2 ""; EvEnd 1 1 2 ""].
Proof. vm_compute. reflexivity. Qed.

Lemma invokes_beside : length (filter is_invoke (log (final3 beside))) = 2.
Proof. vm_compute. reflexivity. Qed.

Ltac in_log := repeat constructor.
Ltac not_in_log H :=
  repeat (apply elem_of_cons in H as [H|H]; [discriminate H|]);
  exact (proj1 (elem_of_nil _) H).

Ltac not_by_key Hk H :=
  repeat (apply elem_of_cons in H as [H|H];
          [first [discriminate H|injection H as -> ->; vm_compute in Hk; discriminate Hk]|]);
  exact (proj1 (elem_of_nil _) H).

Lemma no_begin_after_end (l1 l2 : list (event nat string)) t c v e u :
  [EvBegin 1; EvBegin 0; EvRegister 0 0; EvInvoke 0 0 1 ""; EvUnregister 0 0;
   EvRegister 1 1; EvInvoke 1 1 2 ""; EvUnregister 1 1; EvEnd 1 1 2 "";
   EvEnd 0 0 1 ""] = l1 ++ EvEnd t c v e :: l2 →
  EvBegin u ∉ l2.
Proof.
  intros Hsplit Hbegin.
  do 10 (destruct l1 as [|? l1];
         [simplify_eq/=; not_in_log Hbegin|injection Hsplit as <- Hsplit]).
  by destruct l1.
Qed.


Lemma Do_shared_call_witness :
  (reachable 0 "" two_calls 0 (final joined) ∧
   t_pc <$> threads (final joined) = [Returned 1 ""; Returned 1 ""] ∧
   length (filter is_invoke (log (final joined))) = 1 ∧
   (∀ t u c c' v e v' e',
      EvEnd t c v e ∈ log (final joined) → EvEnd u c' v' e' ∈ log (final joined) →
      c = c' ∧ v = v' ∧ e = e')) ∧
  (reachable 0 "" three_calls 0 (final3 beside) ∧
   length (filter is_invoke (log (final3 beside))) = 2 ∧
   length (filter (is_invoke_by three_calls "k") (log (final3 beside))) = 1 ∧
   (∀ t u c c' v e v' e',
      call_key three_calls t = Some "k" → call_key three_calls u = Some "k" →
      EvEnd t c v e ∈ log (final3 beside) → EvEnd u c' v' e' ∈ log (final3 beside) →
      c = c' ∧ v = v' ∧ e = e')) ∧
  (reachable 0 "" two_calls 0 (final overlapping) ∧
   1 ≠ 0 ∧
   (∀ t' v e, EvInvoke t' 0 v e ∉
      [EvRegister 1 1; EvInvoke 1 1 2 ""; EvUnregister 1 1; EvEnd 1 1 2 ""; EvEnd 0 0 1 ""]) ∧
   ∃ u', call_key two_calls u' = Some "k" ∧
         EvInvoke u' 1 2 "" ∈
           [EvRegister 1 1; EvInvoke 1 1 2 ""; EvUnregister 1 1; EvEnd 1 1 2 "";
            EvEnd 0 0 1 ""]).
Proof.
  split; [|split].
  - destruct (Do_shared_call 0 "" two_calls 0 (final joined) reachable_joined)
      as (_ & _ & _ & _ & Hall & _).
    destruct (Hall "k" _ _ two_calls_key log_joined) as (_ & Hsame & Hone).
    + intros t c H. not_in_log H.
    + intros t c. split; intros H; not_in_log H.
    + split_and!; [exact reachable_joined|exact returned_joined|..|exact Hsame].
      apply Hone. exists 0, 0, 1, "". rewrite log_joined. in_log.
  - destruct (Do_shared_call 0 "" three_calls 0 (final3 beside) reachable_beside)
      as (_ & _ & _ & _ & _ & Hkey & _).
    destruct (Hkey "k" _ _ log_beside) as (_ & Hsame & Hone).
    + intros t c Hk H. not_by_key Hk H.
    + intros t c Hk. split; intros H; not_in_log H.
    + split_and!; [exact reachable_beside|exact invokes_beside|..|exact Hsame].
      apply Hone. exists 0, 1, 2, "". split; [reflexivity|]. rewrite log_beside. in_log.
  - destruct (Do_shared_call 0 "" two_calls 0 (final overlapping) reachable_overlapping)
      as (_ & _ & _ & _ & _ & _ & Hafter).
    destruct (Hafter "k"
                [EvBegin 1; EvBegin 0; EvRegister 0 0; EvInvoke 0 0 1 ""]
                [EvRegister 1 1; EvInvoke 1 1 2 ""; EvUnregister 1 1; EvEnd 1 1 2 "";
                 EvEnd 0 0 1 ""] 0 0 1 1 log_overlapping eq_refl eq_refl)
      as (Hne & _ & _ & _ & Hbefore & Hend).
    + right. in_log.
    + split_and!; [exact reachable_overlapping|exact Hne|exact Hbefore|].
      destruct (Hend 1 2 "") as (_ & Hnew); [|exact Hnew].
      rewrite log_overlapping. in_log.
Defined.

(** C4 as the specification states it fails: two calls with one key, both
    begun before either returns, call the operation twice and return
    different pairs, when the first deletes its record before the second
    takes the mutex. *)
Lemma overlapping_calls_invoke_twice :
  (reachable 0 "" two_calls 0 (final overlapping) ∧
   log (final overlapping) =
     [EvBegin 1; EvBegin 0; EvRegister 0 0; EvInvoke 0 0 1 ""; EvUnregister 0 0;
      EvRegister 1 1; EvInvoke 1 1 2 ""; EvUnregister 1 1; EvEnd 1 1 2 "";
      EvEnd 0 0 1 ""] ∧
   t_pc <$> threads (final overlapping) = [Returned 1 ""; Returned 2 ""]) ∧
  ¬ (∀ (args : list (string * @Fn nat string nat)) (w : nat) (s : State nat string nat)
       (k : string),
       reachable 0 "" args w s →
       (∀ a, a ∈ args → a.1 = k) →
       (∀ l1 l2 t c v e u, log s = l1 ++ EvEnd t c v e :: l2 → EvBegin u ∉ l2) →
       (∀ th, th ∈ threads s → ∃ v e, t_pc th = Returned v e) →
       length (filter is_invoke (log s)) = 1 ∧
       (∀ t u c c' v e v' e',
          EvEnd t c v e ∈ log s → EvEnd u c' v' e' ∈ log s → v = v' ∧ e = e')).
Proof.
  split; [split_and!;
          [exact reachable_overlapping|exact log_overlapping|exact returned_overlapping]|].
  intros Hclaim.
  destruct (Hclaim two_calls 0 (final overlapping) "k" reachable_overlapping two_calls_key)
    as [Hone _].
  - intros l1 l2 t c v e u. rewrite log_overlapping. apply no_begin_after_end.
  - intros th Hth. assert (Hpc : t_pc th ∈ t_pc <$> threads (final overlapping)).
    { apply list_elem_of_fmap. exists th. split; [reflexivity|exact Hth]. }
    rewrite returned_overlapping in Hpc. clear Hth.
    repeat (apply elem_of_cons in Hpc as [->|Hpc]; [by eauto|]). by apply elem_of_nil in Hpc.
  - rewrite log_overlapping in Hone. vm_compute in Hone. discriminate Hone.
Qed.

(** The first call holds the mutex and the second has come to the
    [Lock]. *)
Definition contended : list nat := [0; 0; 1].

(** The first call is about to call [Done]. *)
Definition before_Done : list nat := [0; 0; 0; 0; 0].

Lemma reachable_contended : reachable 0 "" two_calls 0 (final contended).
Proof. apply reachable_final. vm_compute. by eexists. Qed.

Lemma reachable_before_Done : reachable 0 "" two_calls 0 (final before_Done).
Proof. apply reachable_final. vm_compute. by eexists. Qed.

Lemma mutex_guards_registry_witness :
  mu (final contended) = Some 0 ∧
  ∀ t th, threads (final contended) !! t = Some th → holds_mutex (t_pc th) → t = 0.
Proof.
  destruct (mutex_guards_registry 0 "" two_calls 0 (final contended) reachable_contended)
    as (Hiff & _).
  assert (Hmu : mu (final contended) = Some 0) by (vm_compute; reflexivity).
  split; [exact Hmu|]. intros t th Hth Hh. apply (Hiff t th Hth) in Hh.
  rewrite Hmu in Hh. by injection Hh.
Defined.

Lemma WaitGroup_counter_witness :
  ∃ cl s', calls (final before_Done) !! 0 = Some cl ∧ wg cl = 1 ∧
           step 0 "" 0 (final before_Done) = Some s' ∧
           ∃ cl', calls s' !! 0 = Some cl' ∧ wg cl' = 0 ∧ val cl' = val cl.
Proof.
  destruct (WaitGroup_counter 0 "" two_calls 0 (final before_Done) reachable_before_Done)
    as (_ & _ & HDone).
  destruct (HDone 0 (Thread "k" count (ExecDone 0)) 0)
    as (cl & s' & Hcl & Hwg & Hstep & cl' & Hcl' & Hwg' & Hval & _).
  - vm_compute. reflexivity.
  - reflexivity.
  - exists cl, s'. split_and!; [exact Hcl|exact Hwg|exact Hstep|].
    exists cl'. split_and!; [exact Hcl'|exact Hwg'|exact Hval].
Defined.

Lemma Do_blocks_only_on_running_goroutine_witness :
  step 0 "" 1 (final contended) = None ∧ ∃ u, waits_for 0 "" (final contended) 1 u.
Proof.
  assert (Hth : threads (final contended) !! 1 = Some (Thread "k" count AtLock)).
  { vm_compute. reflexivity. }
  destruct (Do_blocks_only_on_running_goroutine 0 "" two_calls 0 (final contended) 1
              (Thread "k" count AtLock) reachable_contended Hth) as (_ & Hnot & Hwaits).
  destruct (Hnot (λ Hr, Hr)) as [Hstep|[u Hu]].
  - assert (Hblocked : step 0 "" 1 (final contended) = None) by (vm_compute; reflexivity).
    rewrite Hblocked in Hstep. destruct Hstep as [s' Hs']. discriminate Hs'.
  - split; [exact (proj1 (Hwaits u Hu))|]. exists u. exact Hu.
Defined.

Lemma Do_terminates_witness :
  ∃ sched s', run 0 "" sched (final contended) = Some s' ∧
              ∀ th, th ∈ threads s' → has_returned (t_pc th).
Proof.
  destruct (Do_terminates 0 "" two_calls 0 (final contended) reachable_contended)
    as (Hterm & _).
  exact Hterm.
Defined.


Lemma registry_holds_calls_in_progress_witness :
  mu (final joined) = None ∧ ∀ k, registry (final joined) k = None.
Proof.
  destruct (registry_holds_calls_in_progress 0 "" two_calls 0 (final joined)
              reachable_joined) as [_ Hquiet].
  apply Hquiet. intros th Hth.
  assert (Hpc : t_pc th ∈ t_pc <$> threads (final joined)).
  { apply list_elem_of_fmap. exists th. split; [reflexivity|exact Hth]. }
  rewrite returned_joined in Hpc. clear Hth.
  repeat (apply elem_of_cons in Hpc as [->|Hpc]; [exact I|]).
  exact (False_ind _ (proj1 (elem_of_nil _) Hpc)).
Defined.

End singleflight.

(* ===================================================================== *)
(** * Package consistenthash *)
(* ===================================================================== *)

Module consistenthash.

Local Open Scope Z_scope.

(** A Go string is a sequence of bytes, and so is a [string] here;
    [[]byte(s)] keeps the bytes.

    type Hash func(data []byte) uint32. A function into [Z] stands for the
    function whose result is that number as a [uint32]. *)
Definition Hash := string → Z.

(** The conversion [int(x)] of a [uint32] (on a platform with 64-bit int,
    where it keeps the value). *)
Definition int_of_uint32 (x : Z) : Z := x mod 2 ^ 32.

(** crc32.ChecksumIEEE of the Go library: the CRC-32 of IEEE 802.3,
    reflected polynomial 0xEDB88320, bit by bit. *)
Definition crc32_shift (crc : Z) : Z :=
  if Z.testbit crc 0 then Z.lxor (Z.shiftr crc 1) 0xEDB88320 else Z.shiftr crc 1.

Definition crc32_byte (crc : Z) (b : Z) : Z :=
  Nat.iter 8 crc32_shift (Z.lxor crc b).

Fixpoint crc32_update (crc : Z) (data : string) : Z :=
  match data with
  | EmptyString => crc
  | String a data' => crc32_update (crc32_byte crc (Z.of_N (Ascii.N_of_ascii a))) data'
  end.

Definition ChecksumIEEE : Hash :=
  λ data, Z.lxor (crc32_update 0xFFFFFFFF data) 0xFFFFFFFF.

(** strconv.Itoa *)
Definition Itoa (i : Z) : string := pretty i.

(** sort.Ints: the ascending rearrangement of the slice. *)
Definition sort_Ints (l : list Z) : list Z := merge_sort Z.le l.

(** sort.Search of the Go library on [0, n): the loop
    [for i < j { h := (i+j)/2; if !f(h) { i = h+1 } else { j = h } }],
    with a fault of [f] propagated. The loop runs at most [j - i] times;
    [fuel] bounds the iterations. *)
Fixpoint Search_loop (fuel : nat) (f : nat → option bool) (i j : nat) : option nat :=
  match fuel with
  | O => Some i
  | S fuel' =>
      if bool_decide (i < j)%nat then
        let h := ((i + j) / 2)%nat in
        b ← f h;
        if negb b then Search_loop fuel' f (h + 1)%nat j
        else Search_loop fuel' f i h
      else Some i
  end.

Definition sort_Search (n : nat) (f : nat → option bool) : option nat :=
  Search_loop n f 0%nat n.

(** type Map struct *)
Record Map := mkMap {
  hash : Hash;
  replicas : Z;
  keys : list Z;
  hashMap : gmap Z string
}.

(** func New(replicas int, fn Hash) *Map; a nil [fn] is [None]. *)
Definition New (replicas : Z) (fn : option Hash) : Map :=
  mkMap (default ChecksumIEEE fn) replicas [] ∅.

(** func (m *Map) IsEmpty() bool *)
Definition IsEmpty (m : Map) : bool := bool_decide (length (keys m) = 0%nat).

(** The hash of the [i]-th virtual point of node [key]:
    [int(m.hash([]byte(strconv.Itoa(i) + key)))]. *)
Definition point (m : Map) (i : Z) (key : string) : Z :=
  int_of_uint32 (hash m (Itoa i +:+ key)).

(** The body of the inner loop of [Add]. *)
Definition add_point (key : string) (m : Map) (i : Z) : Map :=
  let h := point m i key in
  mkMap (hash m) (replicas m) (keys m ++ [h]) (<[h := key]> (hashMap m)).

(** The inner loop: [for i := 0; i < m.replicas; i++]. *)
Definition add_node (m : Map) (key : string) : Map :=
  foldl (add_point key) m (seqZ 0 (replicas m)).

(** func (m *Map) Add(keys ...string) *)
Definition Add (ks : list string) (m : Map) : Map :=
  let m' := foldl add_node m ks in
  mkMap (hash m') (replicas m') (sort_Ints (keys m')) (hashMap m').

(** func (m *Map) Get(key string) string. Indexing the slice out of range
    is a fault ([None]); reading a key the map does not hold gives the
    empty string. *)
Definition Get (key : string) (m : Map) : option string :=
  if IsEmpty m then Some ""
  else
    let h := int_of_uint32 (hash m key) in
    idx ← sort_Search (length (keys m))
             (λ i, k ← (keys m !! i : option Z); Some (bool_decide (k >= h)%Z));
    let idx := if bool_decide (idx = length (keys m)) then 0%nat else idx in
    k ← (keys m !! idx : option Z);
    Some (default "" (hashMap m !! k)).

(** A ring as a program builds it: [New], then some calls of [Add]. *)
Definition ring (replicas : Z) (fn : option Hash) (calls : list (list string)) : Map :=
  foldl (λ m ks, Add ks m) (New replicas fn) calls.

(** A hash for examples: the number that a decimal numeral denotes. *)
Fixpoint decimal_value (acc : Z) (s : string) : Z :=
  match s with
  | EmptyString => acc
  | String a s' => decimal_value (10 * acc + (Z.of_N (Ascii.N_of_ascii a) - 48)) s'
  end.

Definition decimal_hash : Hash := decimal_value 0.

(** The virtual points of a list of nodes, in the order [Add] makes them,
    each with its node. *)
Definition points_of (m : Map) (node : string) : list (Z * string) :=
  (λ i, (point m i node, node)) <$> seqZ 0 (replicas m).

Definition points (m : Map) (nodes : list string) : list (Z * string) :=
  nodes ≫= points_of m.

(** Recording points in the hash-to-node map, first to last: a later point
    with the hash of an earlier one takes its place. *)
Definition record_points (hm : gmap Z string) (ps : list (Z * string)) : gmap Z string :=
  foldl (λ hm' p, <[p.1 := p.2]> hm') hm ps.

(** The invariant of a ring: the virtual points are in ascending order,
    the map holds exactly the hashes of the list, and the node filed under
    a hash has a virtual point with that hash. *)
Definition ring_ok (m : Map) : Prop :=
  StronglySorted Z.le (keys m) ∧
  (∀ h, h ∈ keys m ↔ is_Some (hashMap m !! h)) ∧
  (∀ h node, hashMap m !! h = Some node →
             ∃ i, 0 ≤ i < replicas m ∧ h = point m i node).

(** ** Binary search *)

Lemma Search_loop_S fuel f i j :
  Search_loop (S fuel) f i j
  = if bool_decide (i < j)%nat then
      b ← f ((i + j) / 2)%nat;
      if negb b then Search_loop fuel f ((i + j) / 2 + 1)%nat j
      else Search_loop fuel f i ((i + j) / 2)%nat
    else Some i.
Proof. done. Qed.

(** On a predicate that holds from some index on, the search returns the
    least index at which it holds, or [n] when it holds nowhere. *)
Lemma Search_loop_spec (p : nat → bool) (f : nat → option bool) (n : nat) :
  (∀ a, (a < n)%nat → f a = Some (p a)) →
  (∀ a b, (a ≤ b)%nat → (b < n)%nat → p a = true → p b = true) →
  ∀ fuel i j,
    (i ≤ j)%nat → (j ≤ n)%nat → (j - i ≤ fuel)%nat →
    (∀ a, (a < i)%nat → p a = false) →
    (∀ a, (j ≤ a)%nat → (a < n)%nat → p a = true) →
    ∃ idx, Search_loop fuel f i j = Some idx ∧ (idx ≤ n)%nat ∧
           (∀ a, (a < idx)%nat → p a = false) ∧
           (∀ a, (idx ≤ a)%nat → (a < n)%nat → p a = true).
Proof.
  intros Hf Hmono fuel. induction fuel as [|fuel IH]; intros i j Hij Hjn Hfuel Hlo Hhi.
  { exists i. simpl. assert (i = j) as -> by lia. split_and!; [done|lia|done|done]. }
  rewrite Search_loop_S. case_bool_decide as Hlt.
  - set (h := ((i + j) / 2)%nat).
    assert (Hh : (i ≤ h)%nat ∧ (h < j)%nat).
    { subst h. split.
      - apply Nat.div_le_lower_bound; lia.
      - apply Nat.Div0.div_lt_upper_bound; lia. }
    clearbody h. rewrite Hf by lia. simpl. destruct (p h) eqn:Hph; simpl.
    + apply IH; [lia|lia|lia|done|].
      intros a Ha Han. apply (Hmono h a); [lia|done|done].
    + apply IH; [lia|lia|lia| |done].
      intros a Ha. destruct (p a) eqn:Hpa; [|done].
      rewrite (Hmono a h) in Hph; [done|lia|lia|done].
  - exists i. assert (i = j) as -> by lia. split_and!; [done|lia|done|done].
Qed.

Lemma sort_Search_spec (p : nat → bool) (f : nat → option bool) (n : nat) :
  (∀ a, (a < n)%nat → f a = Some (p a)) →
  (∀ a b, (a ≤ b)%nat → (b < n)%nat → p a = true → p b = true) →
  ∃ idx, sort_Search n f = Some idx ∧ (idx ≤ n)%nat ∧
         (∀ a, (a < idx)%nat → p a = false) ∧
         (∀ a, (idx ≤ a)%nat → (a < n)%nat → p a = true).
Proof.
  intros Hf Hmono. apply (Search_loop_spec p f n Hf Hmono); lia.
Qed.

(** ** What [Add] builds *)

Lemma foldl_add_point node (ids : list Z) m :
  foldl (add_point node) m ids
  = mkMap (hash m) (replicas m)
      (keys m ++ ((λ i, (point m i node, node)) <$> ids).*1)
      (record_points (hashMap m) ((λ i, (point m i node, node)) <$> ids)).
Proof.
  revert m. induction ids as [|i ids IH]; intros m.
  { simpl. rewrite app_nil_r. by destruct m. }
  simpl. rewrite IH. simpl. by rewrite <- app_assoc.
Qed.

Lemma add_node_spec m node :
  add_node m node
  = mkMap (hash m) (replicas m) (keys m ++ (points_of m node).*1)
      (record_points (hashMap m) (points_of m node)).
Proof. apply foldl_add_point. Qed.

Lemma record_points_app hm ps1 ps2 :
  record_points hm (ps1 ++ ps2) = record_points (record_points hm ps1) ps2.
Proof. apply foldl_app. Qed.

Lemma foldl_add_node nodes m :
  foldl add_node m nodes
  = mkMap (hash m) (replicas m) (keys m ++ (points m nodes).*1)
      (record_points (hashMap m) (points m nodes)).
Proof.
  revert m. induction nodes as [|node nodes IH]; intros m.
  { simpl. rewrite app_nil_r. by destruct m. }
  simpl. rewrite IH, add_node_spec. simpl. unfold points. simpl.
  rewrite fmap_app, app_assoc, record_points_app. done.
Qed.

(** [Add] appends the points of the nodes, node by node and replica by
    replica, records each in the map, and sorts the list. *)
Lemma Add_spec nodes m :
  Add nodes m
  = mkMap (hash m) (replicas m) (sort_Ints (keys m ++ (points m nodes).*1))
      (record_points (hashMap m) (points m nodes)).
Proof. unfold Add. by rewrite foldl_add_node. Qed.

Lemma record_points_is_Some hm ps h :
  is_Some (record_points hm ps !! h) ↔ is_Some (hm !! h) ∨ h ∈ ps.*1.
Proof.
  revert hm. induction ps as [|[h' node] ps IH]; intros hm; simpl.
  { split; [by left|]. intros [?|Hin]; [done|]. by apply elem_of_nil in Hin. }
  unfold record_points in *. simpl. rewrite IH, elem_of_cons.
  destruct (decide (h' = h)) as [->|Hne].
  - rewrite lookup_insert_eq. split; [intros _; right; by left|]. intros _. left. eauto.
  - rewrite lookup_insert_ne by done. split; intros [?|?]; try tauto.
    destruct H as [->|?]; [done|tauto].
Qed.

(** The node filed under a hash was there before or is one of the points
    recorded. *)
Lemma record_points_Some hm ps h node :
  record_points hm ps !! h = Some node → hm !! h = Some node ∨ (h, node) ∈ ps.
Proof.
  revert hm. induction ps as [|[h' node'] ps IH]; intros hm; simpl; [by left|].
  unfold record_points in *. simpl. intros [Hhm|Hin]%IH; [|right; by right].
  apply lookup_insert_Some in Hhm as [[<- <-]|[_ Hhm]]; [right; left|by left].
Qed.

(** A point whose hash no other recorded point shares is filed under its
    own node. *)
Lemma record_points_own hm ps h node :
  (h, node) ∈ ps → (∀ node', (h, node') ∈ ps → node' = node) →
  record_points hm ps !! h = Some node.
Proof.
  revert hm. induction ps as [|[h' node'] ps IH]; intros hm Hin Hown.
  { by apply elem_of_nil in Hin. }
  unfold record_points in *. simpl.
  destruct (decide ((h, node) ∈ ps)) as [Hps|Hps].
  - apply IH; [done|]. intros node'' Hin''. apply Hown. by right.
  - apply elem_of_cons in Hin as [Heq|?]; [|done]. injection Heq as <- <-.
    assert (Hnone : h ∉ ps.*1).
    { intros (p & Hp1 & Hp)%list_elem_of_fmap. destruct p as [h2 n2]. simpl in Hp1. subst h2.
      apply Hps. rewrite <- (Hown n2); [done|by right]. }
    clear IH Hown Hps. revert hm. induction ps as [|[h2 n2] ps IH]; intros hm; simpl.
    + by rewrite lookup_insert_eq.
    + csimpl in Hnone. apply not_elem_of_cons in Hnone as [Hne Hnone].
      rewrite insert_insert_ne by done. by apply IH.
Qed.

Lemma elem_of_points m nodes h node :
  (h, node) ∈ points m nodes
  ↔ node ∈ nodes ∧ ∃ i, 0 ≤ i < replicas m ∧ h = point m i node.
Proof.
  unfold points, points_of. rewrite list_elem_of_bind. split.
  - intros (node' & (i & Heq & Hi)%list_elem_of_fmap & Hnode). injection Heq as -> ->.
    apply elem_of_seqZ in Hi. split; [done|]. exists i. split; [lia|done].
  - intros (Hnode & i & Hi & ->). exists node. split; [|done].
    apply list_elem_of_fmap. exists i. split; [done|]. apply elem_of_seqZ. lia.
Qed.

Lemma length_points m nodes :
  length (points m nodes) = (length nodes * Z.to_nat (replicas m))%nat.
Proof.
  unfold points. induction nodes as [|node nodes IH]; [done|]. csimpl.
  rewrite length_app, IH. unfold points_of. rewrite length_fmap, length_seqZ. lia.
Qed.

(** ** The invariant *)

Lemma elem_of_sort_Ints l h : h ∈ sort_Ints l ↔ h ∈ l.
Proof. unfold sort_Ints. by rewrite merge_sort_Permutation. Qed.

Lemma sort_Ints_sorted l : StronglySorted Z.le (sort_Ints l).
Proof. apply StronglySorted_merge_sort; apply _. Qed.

Lemma ring_ok_New r fn : ring_ok (New r fn).
Proof.
  split_and!; simpl.
  - constructor.
  - intros h. rewrite lookup_empty. split; [by intros ?%elem_of_nil|by intros [? ?]].
  - intros h node Hh. by rewrite lookup_empty in Hh.
Qed.

Lemma ring_ok_Add nodes m : ring_ok m → ring_ok (Add nodes m).
Proof.
  intros (Hsorted & Hdom & Hown). rewrite Add_spec. split_and!; simpl.
  - apply sort_Ints_sorted.
  - intros h. rewrite elem_of_sort_Ints, elem_of_app, record_points_is_Some, Hdom. done.
  - intros h node [Hh|Hh]%record_points_Some; [by apply Hown|].
    apply elem_of_points in Hh as [_ Hh]. done.
Qed.

Lemma ring_ok_foldl calls m :
  ring_ok m → ring_ok (foldl (λ m' ks, Add ks m') m calls).
Proof.
  revert m. induction calls as [|ks calls IH]; intros m Hm; [done|].
  simpl. by apply IH, ring_ok_Add.
Qed.

Lemma ring_ok_ring r fn calls : ring_ok (ring r fn calls).
Proof. apply ring_ok_foldl, ring_ok_New. Qed.

(** ** Lookup *)

Lemma StronglySorted_le_lookup (l : list Z) (a b : nat) (x y : Z) :
  StronglySorted Z.le l → (a ≤ b)%nat → l !! a = Some x → l !! b = Some y → x ≤ y.
Proof.
  intros Hs. revert a b. induction Hs as [|z l Hs IH Hall]; intros a b Hab Ha Hb.
  { done. }
  destruct a as [|a], b as [|b]; simpl in *; simplify_eq; try lia.
  - rewrite Forall_forall in Hall. apply Hall. by eapply list_elem_of_lookup_2.
  - apply (IH a b); [lia|done|done].
Qed.

(** [Get] on a ring that satisfies the invariant. *)
Lemma Get_ring_ok key m :
  ring_ok m → keys m ≠ [] →
  ∃ k node,
    Get key m = Some node ∧ k ∈ keys m ∧ hashMap m !! k = Some node ∧
    ((int_of_uint32 (hash m key) ≤ k ∧
      ∀ k', k' ∈ keys m → int_of_uint32 (hash m key) ≤ k' → k ≤ k') ∨
     ((∀ k', k' ∈ keys m → k' < int_of_uint32 (hash m key)) ∧
      ∀ k', k' ∈ keys m → k ≤ k')).
Proof.
  intros (Hsorted & Hdom & _) Hne. unfold Get, IsEmpty.
  set (h := int_of_uint32 (hash m key)). set (l := keys m) in *.
  rewrite bool_decide_eq_false_2 by (by destruct l).
  set (f := λ i : nat, k ← (l !! i : option Z); Some (bool_decide (k >= h))).
  set (p := λ a : nat, match l !! a with
                       | Some k => bool_decide (k >= h)
                       | None => true
                       end).
  destruct (sort_Search_spec p f (length l)) as (idx & -> & Hidx & Hlo & Hhi).
  { intros a Ha. unfold f, p. destruct (lookup_lt_is_Some_2 l a Ha) as [k ->]. done. }
  { intros a b Hab Hb. unfold p.
    destruct (lookup_lt_is_Some_2 l a) as [ka Hka]; [lia|].
    destruct (lookup_lt_is_Some_2 l b Hb) as [kb Hkb]. rewrite Hka, Hkb.
    intros Hge%bool_decide_eq_true. apply bool_decide_eq_true.
    pose proof (StronglySorted_le_lookup l a b ka kb Hsorted Hab Hka Hkb). lia. }
  simpl.
  assert (Hp_false : ∀ a k', l !! a = Some k' → p a = false → k' < h).
  { intros a k' Ha. unfold p. rewrite Ha. intros Hf%bool_decide_eq_false. lia. }
  assert (Hp_true : ∀ a k', l !! a = Some k' → p a = true → h ≤ k').
  { intros a k' Ha. unfold p. rewrite Ha. intros Hf%bool_decide_eq_true. lia. }
  case_bool_decide as Hwrap.
  - subst idx.
    destruct (lookup_lt_is_Some_2 l 0) as [k0 Hk0].
    { destruct l; [done|simpl; lia]. }
    rewrite Hk0. simpl.
    assert (Hk0in : k0 ∈ keys m) by (by eapply list_elem_of_lookup_2).
    destruct (proj1 (Hdom k0) Hk0in) as [node Hnode].
    exists k0, node. rewrite Hnode. split_and!; try done. right. split.
    + intros k' [a Ha]%list_elem_of_lookup_1. apply (Hp_false a); [done|].
      apply Hlo. by eapply lookup_lt_Some.
    + intros k' [a Ha]%list_elem_of_lookup_1.
      apply (StronglySorted_le_lookup l 0 a); [done|lia|done|done].
  - destruct (lookup_lt_is_Some_2 l idx) as [k Hk]; [lia|]. rewrite Hk. simpl.
    assert (Hkin : k ∈ keys m) by (by eapply list_elem_of_lookup_2).
    destruct (proj1 (Hdom k) Hkin) as [node Hnode].
    exists k, node. rewrite Hnode. split_and!; try done. left. split.
    + apply (Hp_true idx); [done|]. apply Hhi; [done|lia].
    + intros k' [a Ha]%list_elem_of_lookup_1 Hhk'.
      destruct (decide (a < idx)%nat) as [Hlt|Hge].
      * pose proof (Hp_false a k' Ha (Hlo a Hlt)). lia.
      * apply (StronglySorted_le_lookup l idx a); [done|lia|done|done].
Qed.

Lemma replicas_foldl calls m :
  replicas (foldl (λ m' ks, Add ks m') m calls) = replicas m.
Proof.
  revert m. induction calls as [|ks calls IH]; intros m; [done|].
  simpl. rewrite IH. by rewrite Add_spec.
Qed.

Lemma replicas_ring r fn calls : replicas (ring r fn calls) = r.
Proof. unfold ring. by rewrite replicas_foldl. Qed.

Lemma hash_foldl calls m :
  hash (foldl (λ m' ks, Add ks m') m calls) = hash m.
Proof.
  revert m. induction calls as [|ks calls IH]; intros m; [done|].
  simpl. rewrite IH. by rewrite Add_spec.
Qed.

Lemma hash_ring r fn calls : hash (ring r fn calls) = default ChecksumIEEE fn.
Proof. unfold ring. by rewrite hash_foldl. Qed.

(** C2. On a ring built by [New] and calls of [Add]: with no virtual
    point, [Get] returns the empty string. Otherwise [Get] returns the node
    that the map files under a virtual point [k], where, for [h] the hash of
    the key alone, [k] is the least point with [h ≤ k], or, when every point
    is below [h], the least point of all; and that node has a virtual point
    with hash [k]. *)
Theorem Get_owner r fn calls key :
  (keys (ring r fn calls) = [] → Get key (ring r fn calls) = Some "") ∧
  (keys (ring r fn calls) ≠ [] →
   ∃ k node,
     Get key (ring r fn calls) = Some node ∧
     k ∈ keys (ring r fn calls) ∧
     hashMap (ring r fn calls) !! k = Some node ∧
     (∃ i, 0 ≤ i < r ∧ k = int_of_uint32 (hash (ring r fn calls) (Itoa i +:+ node))) ∧
     ((int_of_uint32 (hash (ring r fn calls) key) ≤ k ∧
       ∀ k', k' ∈ keys (ring r fn calls) →
             int_of_uint32 (hash (ring r fn calls) key) ≤ k' → k ≤ k') ∨
      ((∀ k', k' ∈ keys (ring r fn calls) →
              k' < int_of_uint32 (hash (ring r fn calls) key)) ∧
       ∀ k', k' ∈ keys (ring r fn calls) → k ≤ k'))).
Proof.
  split.
  - intros Hnil. unfold Get, IsEmpty. by rewrite Hnil.
  - intros Hne. pose proof (ring_ok_ring r fn calls) as Hok.
    destruct (Get_ring_ok key _ Hok Hne) as (k & node & HGet & Hk & Hnode & Hleast).
    exists k, node. split_and!; try done.
    destruct Hok as (_ & _ & Hown). destruct (Hown k node Hnode) as (i & Hi & ->).
    exists i. split; [|done].
    by rewrite replicas_ring in Hi.
Qed.

Lemma Get_owner_witness :
  keys (ring 3 None [["6"; "4"; "2"]]) ≠ [] ∧
  ∃ k node,
    Get "x" (ring 3 None [["6"; "4"; "2"]]) = Some node ∧
    k ∈ keys (ring 3 None [["6"; "4"; "2"]]) ∧
    hashMap (ring 3 None [["6"; "4"; "2"]]) !! k = Some node.
Proof.
  assert (Hne : keys (ring 3 None [["6"; "4"; "2"]]) ≠ []).
  { vm_compute. discriminate. }
  split; [exact Hne|].
  destruct (Get_owner 3 None [["6"; "4"; "2"]] "x") as [_ Hget].
  destruct (Hget Hne) as (k & node & HGet & Hk & Hnode & _).
  exists k, node. split_and!; [exact HGet|exact Hk|exact Hnode].
Defined.

(** ** Adding nodes *)

(** A hash among the recorded points is filed under one of the nodes
    recorded with it. *)
Lemma record_points_elem_of hm ps h :
  h ∈ ps.*1 → ∃ node, record_points hm ps !! h = Some node ∧ (h, node) ∈ ps.
Proof.
  induction ps as [|[h' node'] ps IH] using rev_ind; [by intros ?%elem_of_nil|].
  rewrite fmap_app, elem_of_app, record_points_app. simpl.
  destruct (decide (h' = h)) as [->|Hne].
  - intros _. exists node'. rewrite lookup_insert_eq. split; [done|].
    apply elem_of_app. right. left.
  - rewrite lookup_insert_ne by done. intros [Hin|Hin].
    + destruct (IH Hin) as (node & Hnode & Hps). exists node. split; [done|].
      apply elem_of_app. by left.
    + apply list_elem_of_singleton in Hin. done.
Qed.

(** ** The decimal numerals of [strconv.Itoa] *)

Lemma length_append (s1 s2 : string) :
  String.length (s1 +:+ s2) = (String.length s1 + String.length s2)%nat.
Proof. induction s1 as [|a s1 IH]; simpl; [done|]. by rewrite IH. Qed.

Lemma append_inj_r (s1 s2 t : string) : s1 +:+ t = s2 +:+ t → s1 = s2.
Proof.
  revert s2. induction s1 as [|a s1 IH]; intros [|b s2] Heq; simpl in Heq.
  - done.
  - apply (f_equal String.length) in Heq.
    rewrite !length_append in Heq. simpl in Heq. lia.
  - apply (f_equal String.length) in Heq.
    rewrite !length_append in Heq. simpl in Heq. lia.
  - injection Heq as -> Heq. f_equal. by apply IH.
Qed.

Lemma append_assoc (s1 s2 s3 : string) : (s1 +:+ s2) +:+ s3 = s1 +:+ (s2 +:+ s3).
Proof.
  induction s1 as [|a s1 IH]; [done|].
  change (String a ((s1 +:+ s2) +:+ s3) = String a (s1 +:+ s2 +:+ s3)).
  by rewrite IH.
Qed.

Lemma pretty_N_go_app (x : N) (s : string) :
  pretty_N_go x s = pretty_N_go x "" +:+ s.
Proof.
  revert s. induction (N.lt_wf_0 x) as [x _ IH]; intros s.
  destruct (decide (x = 0%N)) as [->|Hx]; [done|].
  assert (Hlt : (x `div` 10 < x)%N) by (apply N.div_lt; lia).
  rewrite !(pretty_N_go_step x) by lia.
  rewrite (IH _ Hlt (String _ s)), (IH _ Hlt (String _ "")).
  by rewrite append_assoc.
Qed.

Lemma pretty_N_digit (x : N) :
  (x < 10)%N → pretty x = String (pretty_N_char x) "".
Proof.
  intros Hx. unfold pretty, pretty_N. destruct (decide (x = 0%N)) as [->|Hne]; [done|].
  rewrite pretty_N_go_step by lia.
  rewrite N.div_small, N.mod_small by done. apply pretty_N_go_0.
Qed.

Lemma pretty_N_digits (x : N) :
  (10 ≤ x)%N → pretty x = pretty (x `div` 10)%N +:+ pretty (x `mod` 10)%N.
Proof.
  intros Hx. rewrite (pretty_N_digit (x `mod` 10)) by (apply N.mod_lt; lia).
  unfold pretty at 1 2, pretty_N.
  assert (Hq : (0 < x `div` 10)%N).
  { apply N.div_str_pos. lia. }
  rewrite !decide_False by lia.
  rewrite pretty_N_go_step by lia. apply pretty_N_go_app.
Qed.

Lemma Itoa_of_N (x : N) : Itoa (Z.of_N x) = pretty x.
Proof. by destruct x. Qed.

(** A digit is its character; a number of two digits or more is the numeral
    of its tenth followed by its last digit. *)
Lemma Itoa_digit i :
  0 ≤ i < 10 → Itoa i = String (Ascii.ascii_of_nat (48 + Z.to_nat i)) "".
Proof.
  intros Hi.
  assert (Hcases : i = 0 ∨ i = 1 ∨ i = 2 ∨ i = 3 ∨ i = 4 ∨ i = 5 ∨ i = 6 ∨ i = 7
                   ∨ i = 8 ∨ i = 9) by lia.
  repeat (destruct Hcases as [->|Hcases]; [reflexivity|]). by subst.
Qed.

Lemma Itoa_digits i :
  10 ≤ i → Itoa i = Itoa (i `div` 10) +:+ Itoa (i `mod` 10).
Proof.
  intros Hi. rewrite <- (Z2N.id i) by lia.
  change 10 with (Z.of_N 10).
  rewrite <- N2Z.inj_div, <- N2Z.inj_mod, !Itoa_of_N.
  apply pretty_N_digits. lia.
Qed.

Lemma Itoa_prefix_inj node i j : Itoa i +:+ node = Itoa j +:+ node → i = j.
Proof. intros Heq%append_inj_r. by apply (inj pretty) in Heq. Qed.

Lemma NoDup_replica_strings node r :
  NoDup ((λ i, Itoa i +:+ node) <$> seqZ 0 r).
Proof.
  apply NoDup_fmap_2; [|apply NoDup_seqZ]. intros i j. apply Itoa_prefix_inj.
Qed.

(** C7. A call [Add(nodes...)] keeps the hash function and the replica
    count; makes, for each node in turn, one virtual point per replica index
    [0 .. replicas-1], with the hash of the index's decimal numeral followed
    by the node, so that the strings hashed for one node differ from index
    to index (and so do the points, when the hash takes no value twice);
    leaves as list of points the ascending rearrangement of the old points
    and the new ones; and files every new hash in the map, under a node of
    the call that has a point with that hash, which is the node itself when
    no other point of the call has the same hash. The list of points of a
    ring built by [New] and calls of [Add] is ascending. *)
Theorem Add_virtual_points nodes m :
  hash (Add nodes m) = hash m ∧
  replicas (Add nodes m) = replicas m ∧
  points m nodes
  = (nodes ≫= λ node,
       (λ i, (int_of_uint32 (hash m (Itoa i +:+ node)), node)) <$> seqZ 0 (replicas m)) ∧
  (∀ node, length (points_of m node) = Z.to_nat (replicas m)) ∧
  keys (Add nodes m) ≡ₚ keys m ++ (points m nodes).*1 ∧
  keys (Add nodes m)
  ≡ₚ keys m ++ (nodes ≫= λ node,
                  (λ i, int_of_uint32 (hash m (Itoa i +:+ node))) <$> seqZ 0 (replicas m)) ∧
  length (keys (Add nodes m))
  = (length (keys m) + length nodes * Z.to_nat (replicas m))%nat ∧
  StronglySorted Z.le (keys (Add nodes m)) ∧
  (∀ i, 0 ≤ i < 10 → Itoa i = String (Ascii.ascii_of_nat (48 + Z.to_nat i)) "") ∧
  (∀ i, 10 ≤ i → Itoa i = Itoa (i `div` 10) +:+ Itoa (i `mod` 10)) ∧
  (∀ node i j, Itoa i +:+ node = Itoa j +:+ node → i = j) ∧
  (∀ node, NoDup ((λ i, Itoa i +:+ node) <$> seqZ 0 (replicas m))) ∧
  (∀ node,
     (∀ s t, int_of_uint32 (hash m s) = int_of_uint32 (hash m t) → s = t) →
     NoDup ((λ i, int_of_uint32 (hash m (Itoa i +:+ node))) <$> seqZ 0 (replicas m))) ∧
  (∀ node i, node ∈ nodes → 0 ≤ i < replicas m →
     int_of_uint32 (hash m (Itoa i +:+ node)) ∈ keys (Add nodes m) ∧
     ∃ owner,
       hashMap (Add nodes m) !! int_of_uint32 (hash m (Itoa i +:+ node)) = Some owner ∧
       owner ∈ nodes ∧
       (∃ j, 0 ≤ j < replicas m ∧
             int_of_uint32 (hash m (Itoa j +:+ owner))
             = int_of_uint32 (hash m (Itoa i +:+ node))) ∧
       ((∀ node' j, node' ∈ nodes → 0 ≤ j < replicas m →
                    int_of_uint32 (hash m (Itoa j +:+ node'))
                    = int_of_uint32 (hash m (Itoa i +:+ node)) → node' = node) →
        owner = node)) ∧
  (∀ r fn calls, StronglySorted Z.le (keys (ring r fn calls))).
Proof.
  rewrite Add_spec. simpl.
  assert (Hperm : sort_Ints (keys m ++ (points m nodes).*1)
                  ≡ₚ keys m ++ (points m nodes).*1).
  { apply merge_sort_Permutation. }
  assert (Hpts : (points m nodes).*1
                 = nodes ≫= λ node,
                     (λ i, int_of_uint32 (hash m (Itoa i +:+ node))) <$> seqZ 0 (replicas m)).
  { clear Hperm. unfold points, points_of, point.
    induction nodes as [|node nodes IH]; [done|].
    csimpl. rewrite fmap_app, IH. f_equal. by rewrite <- list_fmap_compose. }
  split_and!; try done.
  - intros node. unfold points_of. by rewrite length_fmap, length_seqZ.
  - by rewrite Hperm, Hpts.
  - by rewrite Hperm, length_app, length_fmap, length_points.
  - apply sort_Ints_sorted.
  - apply Itoa_digit.
  - apply Itoa_digits.
  - apply Itoa_prefix_inj.
  - intros node. apply NoDup_replica_strings.
  - intros node Hinj. rewrite (list_fmap_compose (λ i, Itoa i +:+ node)
                                 (λ s, int_of_uint32 (hash m s))).
    apply NoDup_fmap_2; [|apply NoDup_replica_strings]. intros s t. apply Hinj.
  - intros node i Hnode Hi.
    assert (Hin : (point m i node, node) ∈ points m nodes).
    { apply elem_of_points. eauto. }
    assert (Hin1 : point m i node ∈ (points m nodes).*1).
    { by apply (list_elem_of_fmap_2 fst _ (point m i node, node)). }
    split.
    { rewrite Hperm, elem_of_app. by right. }
    destruct (record_points_elem_of (hashMap m) _ _ Hin1) as (owner & Hlook & Hown).
    apply elem_of_points in Hown as (Hownode & j & Hj & Hpt).
    exists owner. split_and!; try done.
    + exists j. done.
    + intros Huniq. by apply (Huniq owner j).
  - intros r fn calls. apply ring_ok_ring.
Qed.

Lemma Add_virtual_points_witness :
  (Itoa 0 = "0" ∧ Itoa 1 = "1" ∧ Itoa 2 = "2" ∧ Itoa 12 = "12") ∧
  keys (Add ["6"; "4"; "2"] (New 3 (Some decimal_hash)))
  = [2; 4; 6; 12; 14; 16; 22; 24; 26] ∧
  hashMap (Add ["6"; "4"; "2"] (New 3 (Some decimal_hash))) !! 14 = Some "4" ∧
  (ChecksumIEEE <$> ["06"; "16"; "26"; "04"; "14"; "24"; "02"; "12"; "22"])
  = [1361424789; 1212055764; 1662243607; 3207319737; 2788221432;
     2367533627; 1447589260; 1330857165; 1685985038] ∧
  keys (Add ["6"; "4"; "2"] (New 3 None))
  = [1212055764; 1330857165; 1361424789; 1447589260; 1662243607;
     1685985038; 2367533627; 2788221432; 3207319737] ∧
  hashMap (Add ["6"; "4"; "2"] (New 3 None)) !! 2788221432 = Some "4".
Proof.
  destruct (Add_virtual_points ["6"; "4"; "2"] (New 3 None))
    as (_ & _ & _ & _ & _ & _ & _ & _ & Hdigit & Hdigits & _ & _ & _ & Hpts & _).
  split.
  { rewrite (Hdigits 12), !Hdigit by lia. vm_compute. done. }
  split; [by vm_compute|]. split; [by vm_compute|]. split; [by vm_compute|].
  split; [by vm_compute|].
  assert (Hnode : "4" ∈ ["6"; "4"; "2"]) by (right; left).
  destruct (Hpts "4" 1 Hnode ltac:(simpl; lia)) as (_ & owner & Hlook & _ & _ & Hown).
  change (int_of_uint32 (hash (New 3 None) (Itoa 1 +:+ "4"))) with 2788221432 in Hlook.
  rewrite Hlook. f_equal. apply Hown. intros node' j Hin Hj Heq. simpl in Hj.
  assert (Hjs : j = 0 ∨ j = 1 ∨ j = 2) by lia.
  apply elem_of_cons in Hin as [->|Hin]; [|apply elem_of_cons in Hin as [->|Hin]];
    [| |apply list_elem_of_singleton in Hin as ->];
    destruct Hjs as [->|[->| ->]]; vm_compute in Heq; first [reflexivity|discriminate Heq].
Defined.

(** ** Further properties of the ring *)

(** Two ascending rearrangements of the same points are the same list. *)
Lemma sort_Ints_Permutation l1 l2 : l1 ≡ₚ l2 → sort_Ints l1 = sort_Ints l2.
Proof.
  intros Hperm. apply (StronglySorted_unique Z.le); [apply sort_Ints_sorted..|].
  unfold sort_Ints. by rewrite !merge_sort_Permutation.
Qed.

Lemma sort_Ints_id l : StronglySorted Z.le l → sort_Ints l = l.
Proof.
  intros Hs. apply (StronglySorted_unique Z.le); [apply sort_Ints_sorted|done|].
  apply merge_sort_Permutation.
Qed.

Lemma ring_snoc r fn calls nodes :
  ring r fn (calls ++ [nodes]) = Add nodes (ring r fn calls).
Proof. unfold ring. by rewrite foldl_app. Qed.

Lemma points_no_replicas m nodes : replicas m ≤ 0 → points m nodes = [].
Proof.
  intros Hr. unfold points. induction nodes as [|node nodes IH]; [done|].
  csimpl. rewrite IH. unfold points_of. by rewrite seqZ_nil by lia.
Qed.

(** The points of a ring are the hashes of the replica indices of the nodes
    added, and the nodes on file are nodes that were added. *)
Lemma ring_points r fn calls :
  (∀ h, h ∈ keys (ring r fn calls) ↔
        ∃ nodes node i, nodes ∈ calls ∧ node ∈ nodes ∧ 0 ≤ i < r ∧
                        h = point (New r fn) i node) ∧
  (∀ h node, hashMap (ring r fn calls) !! h = Some node →
             ∃ nodes, nodes ∈ calls ∧ node ∈ nodes).
Proof.
  induction calls as [|nodes calls [IHk IHm]] using rev_ind.
  { split.
    - intros h. split; [by intros ?%elem_of_nil|].
      by intros (nodes & _ & _ & ?%elem_of_nil & _).
    - intros h node Hh. change (hashMap (ring r fn [])) with (∅ : gmap Z string) in Hh.
      by rewrite lookup_empty in Hh. }
  rewrite ring_snoc, Add_spec. simpl. split.
  - intros h. rewrite elem_of_sort_Ints, elem_of_app, IHk. split.
    + intros [(ns & node & i & Hns & Hnode & Hi & ->)|Hpt].
      * exists ns, node, i. rewrite elem_of_app. eauto.
      * apply list_elem_of_fmap in Hpt as ([h' node] & -> & Hin).
        apply elem_of_points in Hin as (Hnode & i & Hi & Hh).
        rewrite replicas_ring in Hi. exists nodes, node, i.
        split; [apply elem_of_app; right; by apply list_elem_of_singleton|].
        split; [done|]. split; [done|].
        simpl. rewrite Hh. unfold point. by rewrite hash_ring.
    + intros (ns & node & i & [Hns|Hns]%elem_of_app & Hnode & Hi & ->).
      * left. eauto 10.
      * apply list_elem_of_singleton in Hns as ->. right.
        apply (list_elem_of_fmap_2 fst _ (point (New r fn) i node, node)).
        apply elem_of_points. split; [done|]. exists i. rewrite replicas_ring.
        split; [done|]. unfold point. by rewrite hash_ring.
  - intros h node [Hh|Hh]%record_points_Some.
    + destruct (IHm h node Hh) as (ns & Hns & Hnode). exists ns.
      rewrite elem_of_app. eauto.
    + apply elem_of_points in Hh as [Hnode _]. exists nodes.
      rewrite elem_of_app, list_elem_of_singleton. eauto.
Qed.

(** X15. With a replica count of zero or less, [Add] makes no point: every ring
    stays empty and [Get] returns the empty string for every key, whatever
    nodes were added. *)
Theorem no_replicas_ring_stays_empty r fn calls key :
  r ≤ 0 →
  keys (ring r fn calls) = [] ∧ hashMap (ring r fn calls) = ∅ ∧
  IsEmpty (ring r fn calls) = true ∧ Get key (ring r fn calls) = Some "".
Proof.
  intros Hr.
  assert (Hempty : keys (ring r fn calls) = [] ∧ hashMap (ring r fn calls) = ∅).
  { induction calls as [|nodes calls [IHk IHm]] using rev_ind; [done|].
    rewrite ring_snoc, Add_spec. simpl.
    rewrite points_no_replicas by (by rewrite replicas_ring).
    rewrite IHk, IHm. done. }
  destruct Hempty as [Hk Hm]. unfold Get, IsEmpty. rewrite Hk. done.
Qed.

(** X16. With a positive replica count, once a node has been added [Get]
    returns, for every key, one of the nodes that were added; when one node
    only was added (any number of times), that node. *)
Theorem Get_returns_added_node r fn calls key nodes0 node0 :
  0 < r → nodes0 ∈ calls → node0 ∈ nodes0 →
  (∃ node nodes, Get key (ring r fn calls) = Some node ∧
                 nodes ∈ calls ∧ node ∈ nodes) ∧
  ((∀ nodes node, nodes ∈ calls → node ∈ nodes → node = node0) →
   Get key (ring r fn calls) = Some node0).
Proof.
  intros Hr Hnodes Hnode. destruct (ring_points r fn calls) as [Hkeys Hmap].
  assert (Hne : keys (ring r fn calls) ≠ []).
  { assert (Hin : point (New r fn) 0 node0 ∈ keys (ring r fn calls)).
    { apply Hkeys. exists nodes0, node0, 0. split; [done|]. split; [done|].
      split; [lia|done]. }
    intros Hnil. rewrite Hnil in Hin. by apply elem_of_nil in Hin. }
  destruct (Get_ring_ok key _ (ring_ok_ring r fn calls) Hne)
    as (k & node & HGet & _ & Hk & _).
  destruct (Hmap k node Hk) as (nodes & Hns & Hn). split.
  - exists node, nodes. done.
  - intros Hall. by rewrite HGet, (Hall nodes node Hns Hn).
Qed.

(** X17. Adding nodes to a ring moves a key to one of the added nodes or leaves
    it where it was: for every key, [Get] after the [Add] returns what it
    returned before, or a node of the [Add]. *)
Theorem Add_moves_keys_to_added_nodes_only r fn calls nodes key :
  Get key (Add nodes (ring r fn calls)) = Get key (ring r fn calls) ∨
  ∃ node, node ∈ nodes ∧ Get key (Add nodes (ring r fn calls)) = Some node.
Proof.
  pose proof (ring_ok_ring r fn calls) as Hok. set (m := ring r fn calls) in *.
  clearbody m. pose proof (ring_ok_Add nodes m Hok) as Hok'.
  assert (Hsub : ∀ k, k ∈ keys m → k ∈ keys (Add nodes m)).
  { intros k Hk. rewrite Add_spec. simpl. rewrite elem_of_sort_Ints, elem_of_app. by left. }
  assert (Hhash : hash (Add nodes m) = hash m) by (by rewrite Add_spec).
  destruct (decide (keys (Add nodes m) = [])) as [Hnil|Hne'].
  { left. assert (Hnil0 : keys m = []).
    { destruct (keys m) as [|k l] eqn:Hk; [done|].
      assert (Hin : k ∈ keys (Add nodes m)) by (apply Hsub; rewrite ?Hk; left).
      rewrite Hnil in Hin. by apply elem_of_nil in Hin. }
    unfold Get, IsEmpty. by rewrite Hnil, Hnil0. }
  destruct (Get_ring_ok key _ Hok' Hne') as (k' & node' & HGet' & Hk' & Hnode' & Hleast').
  rewrite Hhash in Hleast'.
  assert (Hrec : hashMap m !! k' = Some node' ∨ (k', node') ∈ points m nodes).
  { rewrite Add_spec in Hnode'. simpl in Hnode'. by apply record_points_Some. }
  destruct Hrec as [Hold|Hnew].
  2: { right. exists node'. split; [|done]. by apply elem_of_points in Hnew as [? _]. }
  left. rewrite HGet'.
  assert (Hk0 : k' ∈ keys m).
  { destruct Hok as (_ & Hdom & _). apply Hdom. eauto. }
  assert (Hne : keys m ≠ []).
  { intros Hnil. rewrite Hnil in Hk0. by apply elem_of_nil in Hk0. }
  destruct (Get_ring_ok key _ Hok Hne) as (k & node & HGet & Hk & Hnode & Hleast).
  rewrite HGet. f_equal.
  assert (k = k') as ->; [|congruence].
  pose proof (Hsub k Hk) as Hkin.
  destruct Hleast' as [[Hge' Hmin']|[Hlt' Hmin']], Hleast as [[Hge Hmin]|[Hlt Hmin]].
  - pose proof (Hmin k' Hk0 Hge'). pose proof (Hmin' k Hkin Hge). lia.
  - pose proof (Hlt k' Hk0). lia.
  - pose proof (Hlt' k Hkin). lia.
  - pose proof (Hmin k' Hk0). pose proof (Hmin' k Hkin). lia.
Qed.

Lemma points_Add nodes' nodes m : points (Add nodes' m) nodes = points m nodes.
Proof. by rewrite Add_spec. Qed.

Lemma points_app m nodes1 nodes2 :
  points m (nodes1 ++ nodes2) = points m nodes1 ++ points m nodes2.
Proof. unfold points. by rewrite bind_app. Qed.

(** X18. One [Add] of several nodes builds the ring that successive [Add]s of
    the nodes build, and an [Add] of no node leaves a ring as it is. *)
Theorem Add_in_one_call_or_several nodes1 nodes2 m :
  Add (nodes1 ++ nodes2) m = Add nodes2 (Add nodes1 m) ∧
  (∀ r fn calls, Add [] (ring r fn calls) = ring r fn calls ∧
                 ring r fn (calls ++ [nodes1 ++ nodes2])
                 = ring r fn (calls ++ [nodes1; nodes2])).
Proof.
  assert (Hsplit : ∀ m', Add (nodes1 ++ nodes2) m' = Add nodes2 (Add nodes1 m')).
  { intros m'. rewrite (Add_spec nodes2), points_Add, !Add_spec. simpl.
    rewrite points_app, fmap_app, record_points_app. f_equal.
    apply sort_Ints_Permutation. unfold sort_Ints.
    by rewrite merge_sort_Permutation, app_assoc. }
  split; [apply Hsplit|]. intros r fn calls. split.
  - rewrite Add_spec. simpl. rewrite app_nil_r.
    destruct (ring_ok_ring r fn calls) as (Hs & _). rewrite sort_Ints_id by done.
    by destruct (ring r fn calls).
  - rewrite ring_snoc, Hsplit. unfold ring. by rewrite foldl_app.
Qed.

Lemma record_points_notin hm ps h :
  h ∉ ps.*1 → record_points hm ps !! h = hm !! h.
Proof.
  revert hm. induction ps as [|[h' node] ps IH]; intros hm Hnotin; [done|].
  csimpl in Hnotin. apply not_elem_of_cons in Hnotin as [Hne Hnotin].
  unfold record_points in *. simpl. rewrite IH by done. by rewrite lookup_insert_ne.
Qed.

(** Recording the same points in another order gives the same map, when no
    hash is recorded for two nodes. *)
Lemma record_points_Permutation hm ps1 ps2 :
  ps1 ≡ₚ ps2 →
  (∀ h node node', (h, node) ∈ ps1 → (h, node') ∈ ps1 → node = node') →
  record_points hm ps1 = record_points hm ps2.
Proof.
  intros Hperm Hfun. apply map_eq. intros h.
  destruct (decide (h ∈ ps1.*1)) as [Hin|Hnotin].
  - destruct (record_points_elem_of hm ps1 h Hin) as (node1 & -> & H1).
    rewrite Hperm in Hin.
    destruct (record_points_elem_of hm ps2 h Hin) as (node2 & -> & H2).
    rewrite <- Hperm in H2. by rewrite (Hfun h node1 node2).
  - rewrite record_points_notin by done. rewrite Hperm in Hnotin.
    by rewrite record_points_notin.
Qed.

(** X19. The points of a ring do not depend on the order in which an [Add] is
    given its nodes; and when no two different nodes of the [Add] have a
    virtual point with the same hash, neither does the ring, so neither
    does [Get]. *)
Theorem Add_order_of_nodes nodes1 nodes2 m :
  nodes1 ≡ₚ nodes2 →
  keys (Add nodes1 m) = keys (Add nodes2 m) ∧
  ((∀ node node' i j, node ∈ nodes1 → node' ∈ nodes1 →
      0 ≤ i < replicas m → 0 ≤ j < replicas m →
      point m i node = point m j node' → node = node') →
   Add nodes1 m = Add nodes2 m ∧
   ∀ key, Get key (Add nodes1 m) = Get key (Add nodes2 m)).
Proof.
  intros Hperm.
  assert (Hpts : points m nodes1 ≡ₚ points m nodes2).
  { unfold points. by rewrite Hperm. }
  assert (Hkeys : sort_Ints (keys m ++ (points m nodes1).*1)
                  = sort_Ints (keys m ++ (points m nodes2).*1)).
  { apply sort_Ints_Permutation. by rewrite Hpts. }
  rewrite !Add_spec. simpl. split; [done|]. intros Hfun.
  assert (Heq : record_points (hashMap m) (points m nodes1)
                = record_points (hashMap m) (points m nodes2)).
  { apply record_points_Permutation; [done|].
    intros h node node' (Hn & i & Hi & ->)%elem_of_points (Hn' & j & Hj & Hh)%elem_of_points.
    by apply (Hfun node node' i j). }
  rewrite Hkeys, Heq. done.
Qed.

Lemma no_replicas_ring_stays_empty_witness :
  IsEmpty (ring 0 None [["6"; "4"]; ["2"]]) = true ∧
  Get "x" (ring 0 None [["6"; "4"]; ["2"]]) = Some "".
Proof.
  destruct (no_replicas_ring_stays_empty 0 None [["6"; "4"]; ["2"]] "x") as (_ & _ & He & HGet).
  - lia.
  - split; [exact He|exact HGet].
Defined.

Lemma Get_returns_added_node_witness :
  ∃ node, Get "x" (ring 3 None [["6"; "4"; "2"]]) = Some node ∧ node ∈ ["6"; "4"; "2"].
Proof.
  assert (Hcall : ["6"; "4"; "2"] ∈ [["6"; "4"; "2"]]) by left.
  assert (Hnode : "6" ∈ ["6"; "4"; "2"]) by left.
  destruct (Get_returns_added_node 3 None [["6"; "4"; "2"]] "x" _ "6" ltac:(lia) Hcall Hnode)
    as [(node & nodes & HGet & Hin & Hn) _].
  apply list_elem_of_singleton in Hin. rewrite Hin in Hn.
  exists node. split; [exact HGet|exact Hn].
Defined.

Lemma Add_order_of_nodes_witness :
  Add ["6"; "4"; "2"] (New 3 None) = Add ["2"; "6"; "4"] (New 3 None).
Proof.
  assert (Hperm : ["6"; "4"; "2"] ≡ₚ ["2"; "6"; "4"]).
  { symmetry. apply (Permutation_cons_append ["6"; "4"] "2"). }
  destruct (Add_order_of_nodes ["6"; "4"; "2"] ["2"; "6"; "4"] (New 3 None) Hperm)
    as [_ Hsame].
  apply Hsame. intros node node' i j Hn Hn' Hi Hj Heq. simpl in Hi, Hj.
  assert (His : i = 0 ∨ i = 1 ∨ i = 2) by lia.
  assert (Hjs : j = 0 ∨ j = 1 ∨ j = 2) by lia.
  repeat (apply elem_of_cons in Hn as [->|Hn]); [| | |by apply elem_of_nil in Hn];
    (repeat (apply elem_of_cons in Hn' as [->|Hn']); [| | |by apply elem_of_nil in Hn']);
    try reflexivity;
    destruct His as [->|[->| ->]], Hjs as [->|[->| ->]];
    vm_compute in Heq; discriminate Heq.
Defined.

End consistenthash.
